(** * htmlparse: a shallow embedding of the tag-soup parser and its node arena

    The development follows the Go sources: [alloc.go] (the bump allocator)
    and the parser with its scanner, classifier and recursive tree builder
    ([Parse], [parse], [parseRaw], [textNode], [parseStartTag],
    [parseEndTag], [nextIdent], [nextValue], [categorize]).

    Conventions of the embedding.
    - A [[]byte] and a Go [string] are both a [list ascii]; the conversions
      [string(b)] and [[]byte(s)] copy, so they are the identity here.
    - A Go [int] index is a [Z]; [bytes.IndexByte] and friends return [-1]
      when nothing is found, exactly as in Go.
    - A slice expression or an index expression out of range is a run-time
      panic in Go; it is the outcome [Panic] here, distinct from an [error]
      returned through the error result ([Err]).
    - The parser's cursor [p.text] is threaded explicitly; the tree is built
      by value: a call that receives [parent *html.Node] returns the updated
      parent.  A body parser only touches the element it was given and that
      element's descendants, so appending the element after its body was
      parsed yields the same tree as the Go order (append, then fill).  The
      partially built parent is returned with every outcome.
    - Loops carry a fuel argument; [parse_total] shows the fuel [Parse]
      supplies is always enough. *)

From Stdlib Require Import List Ascii String ZArith NArith Bool Lia Permutation.
Import ListNotations.
Local Open Scope Z_scope.

(** ** Bytes *)

Definition bytes := list ascii.

(** A byte-string literal. *)
Definition B (s : string) : bytes := list_ascii_of_string s.

Definition bytes_eqb (a b : bytes) : bool :=
  if list_eq_dec ascii_dec a b then true else false.

(** [len(s)] *)
Definition len (s : bytes) : Z := Z.of_nat (List.length s).

(** ** Outcomes *)

(** The errors the parser builds with [errors.New] and [fmt.Errorf]. *)
Inductive error : Type :=
| EOFInOpeningTag                                   (* "Unexpected end of file in opening tag" *)
| EOFInCommentTag                                   (* "Unexpected end of file in comment tag" *)
| Unclosed (name : bytes)                           (* "Unclosed %q element" *)
| UnexpectedInOpeningTag (c : ascii)                (* "Unexpected %q in opening tag" *)
| UnexpectedInOpeningNamed (c : ascii) (name : bytes) (* "Unexpected %q in opening %q tag" *)
| UnexpectedSlash (name : bytes)                    (* "Unexpected '/' in opening %q tag" *)
| UnexpectedInClosingTag (c : ascii)                (* "Unexpected %q in closing tag" *)
| UnexpectedInClosingNamed (c : ascii) (name : bytes). (* "Unexpected %q in closing %q tag" *)

(** What a call does: it returns a value, returns an [error], panics
    (index or slice bounds out of range), or the model ran out of fuel. *)
Inductive result (A : Type) : Type :=
| Ok (a : A)
| Err (e : error)
| Panic
| OutOfFuel.
Arguments Ok {A} a.
Arguments Err {A} e.
Arguments Panic {A}.
Arguments OutOfFuel {A}.

Definition bind {A C : Type} (m : result A) (k : A -> result C) : result C :=
  match m with
  | Ok a => k a
  | Err e => Err e
  | Panic => Panic
  | OutOfFuel => OutOfFuel
  end.

Notation "x <- m ;; k" := (bind m (fun x => k))
  (at level 61, m at next level, right associativity).
Notation "' p <- m ;; k" := (bind m (fun x => let p := x in k))
  (at level 61, p pattern, m at next level, right associativity).

Definition is_ok {A : Type} (r : result A) : bool :=
  match r with Ok _ => true | _ => false end.

Definition is_err {A : Type} (r : result A) : bool :=
  match r with Err _ => true | _ => false end.

(** ** Slices and the [bytes] package *)

(** [s[:i]] *)
Definition slice_to (s : bytes) (i : Z) : result bytes :=
  if (0 <=? i) && (i <=? len s) then Ok (firstn (Z.to_nat i) s) else Panic.

(** [s[i:]] *)
Definition slice_from (s : bytes) (i : Z) : result bytes :=
  if (0 <=? i) && (i <=? len s) then Ok (skipn (Z.to_nat i) s) else Panic.

(** [s[i]] *)
Definition at_index (s : bytes) (i : Z) : result ascii :=
  if (0 <=? i) && (i <? len s)
  then match nth_error s (Z.to_nat i) with Some c => Ok c | None => Panic end
  else Panic.

(** The index of the first byte satisfying [f]. *)
Fixpoint find_index (f : ascii -> bool) (s : bytes) : option nat :=
  match s with
  | [] => None
  | c :: s' => if f c then Some O else option_map S (find_index f s')
  end.

Definition index_result (o : option nat) : Z :=
  match o with Some i => Z.of_nat i | None => -1 end.

(** [bytes.IndexFunc(s, f)].  Go decodes [s] as UTF-8 and applies [f] to each
    rune; the predicates used here accept ASCII runes only, and an ASCII byte
    is always decoded as a rune of its own, so the result is the index of the
    first byte satisfying [f]. *)
Definition IndexFunc (s : bytes) (f : ascii -> bool) : Z :=
  index_result (find_index f s).

(** [bytes.IndexByte(s, c)] *)
Definition IndexByte (s : bytes) (c : ascii) : Z :=
  IndexFunc s (Ascii.eqb c).

(** [bytes.HasPrefix(s, prefix)] *)
Fixpoint HasPrefix (s prefix : bytes) {struct prefix} : bool :=
  match prefix, s with
  | [], _ => true
  | _ :: _, [] => false
  | p :: prefix', c :: s' => Ascii.eqb c p && HasPrefix s' prefix'
  end.

(** The index of the first position where [sep] is a prefix. *)
Fixpoint find_sub (sep s : bytes) : option nat :=
  if HasPrefix s sep then Some O
  else match s with
       | [] => None
       | _ :: s' => option_map S (find_sub sep s')
       end.

(** [bytes.Index(s, sep)] *)
Definition Index (s sep : bytes) : Z := index_result (find_sub sep s).

(** ** Lexical scanner *)

Definition whitespaceF (r : ascii) : bool :=
  Ascii.eqb r " "%char || Ascii.eqb r "009"%char || Ascii.eqb r "010"%char
  || Ascii.eqb r "012"%char || Ascii.eqb r "013"%char.

Definition identInvalidF (r : ascii) : bool :=
  whitespaceF r || Ascii.eqb r "000"%char || Ascii.eqb r "034"%char || Ascii.eqb r "'"%char
  || Ascii.eqb r "="%char || Ascii.eqb r "/"%char || Ascii.eqb r ">"%char.

Definition unquotInvalidF (r : ascii) : bool :=
  whitespaceF r || Ascii.eqb r "000"%char || Ascii.eqb r "034"%char || Ascii.eqb r "'"%char
  || Ascii.eqb r "="%char || Ascii.eqb r "<"%char || Ascii.eqb r ">"%char.

(** [bytes.TrimLeftFunc(text, whitespaceF)] *)
Fixpoint skipSpace (text : bytes) : bytes :=
  match text with
  | c :: text' => if whitespaceF c then skipSpace text' else text
  | [] => []
  end.

Definition lower_byte (ch : ascii) : ascii :=
  let n := N_of_ascii ch in
  if (65 <=? n)%N && (n <=? 90)%N then ascii_of_N (N.lor n 32) else ch.

(** [asciiLower] writes the folded bytes into the scratch buffer
    [p.lowerBuf] and returns it; its only caller, [nextIdent], copies the
    bytes out (or drops them) before the next call, so the buffer is not
    observable and the function is modelled by its value. *)
Definition asciiLower (text : bytes) : bytes := map lower_byte text.

Definition nonempty (s : bytes) : bool :=
  match s with [] => false | _ :: _ => true end.

(** ** Data model: [golang.org/x/net/html] nodes *)

(** [atom.Atom] is a [uint32]; [0] is the atom of no known name. *)
Definition Atom := N.

Inductive NodeType : Type :=
| ErrorNode | TextNode | DocumentNode | ElementNode
| CommentNode | DoctypeNode | RawNode.

(** [html.Attribute]; the parser never sets [Namespace]. *)
Record Attribute : Type := mkAttribute { Key : bytes; Val : bytes }.

#[local] Set Warnings "-register-all".

(** [html.Node].  The sibling and parent pointers of the Go struct are
    represented by the ordered list of children. *)
Inductive Node : Type := mkNode {
  Type_ : NodeType;
  Data : bytes;
  DataAtom : Atom;
  Attr : list Attribute;
  Children : list Node
}.

(** The zero value of [html.Node]: what a fresh arena slot holds. *)
Definition zeroNode : Node := mkNode ErrorNode [] 0%N [] [].

Definition set_Type (n : Node) (t : NodeType) : Node :=
  mkNode t (Data n) (DataAtom n) (Attr n) (Children n).
Definition set_Data (n : Node) (d : bytes) : Node :=
  mkNode (Type_ n) d (DataAtom n) (Attr n) (Children n).
Definition set_DataAtom (n : Node) (a : Atom) : Node :=
  mkNode (Type_ n) (Data n) a (Attr n) (Children n).
Definition append_Attr (n : Node) (a : Attribute) : Node :=
  mkNode (Type_ n) (Data n) (DataAtom n) (Attr n ++ [a]) (Children n).

(** [parent.AppendChild(c)] for a node [c] that is attached nowhere. *)
Definition AppendChild (parent c : Node) : Node :=
  mkNode (Type_ parent) (Data parent) (DataAtom parent) (Attr parent)
         (Children parent ++ [c]).

(** ** Collaborators

    The tag table ([atom.Lookup], [Atom.String], the named atoms that
    [categorize] mentions) and the reference decoder
    ([html.UnescapeString]) belong to [golang.org/x/net/html]; the parser
    is parameterised by them. *)
Class Env : Type := {
  Lookup : bytes -> Atom;
  AtomString : Atom -> bytes;
  UnescapeString : bytes -> bytes;
  Area : Atom; Base : Atom; Br : Atom; Col : Atom; Embed : Atom; Hr : Atom;
  Img : Atom; Input : Atom; Link : Atom; Meta : Atom; Param : Atom;
  Source : Atom; Track : Atom; Wbr : Atom;
  Template : Atom;
  Script : Atom; Style : Atom;
  Textarea : Atom; Title : Atom
}.

(** ** Tag classifier *)

Inductive category : Type :=
| catVoid | catTemplate | catRaw | catEscapableRaw | catForeign | catNormal.

(** One [case] list of a Go [switch]: the cases are tried in order. *)
Definition case_of (a : Atom) (cases : list Atom) : bool :=
  existsb (N.eqb a) cases.

Section Parser.
Context {E : Env}.

Definition void_atoms : list Atom :=
  [Area; Base; Br; Col; Embed; Hr; Img; Input; Link; Meta; Param; Source;
   Track; Wbr].

Definition categorize (a : Atom) : category :=
  if case_of a void_atoms then catVoid
  else if case_of a [Template] then catTemplate
  else if case_of a [Script; Style] then catRaw
  else if case_of a [Textarea; Title] then catEscapableRaw
  else catNormal.

(** ** Scanner operations that consult the tag table *)

Definition nextIdent (text : bytes) : result (bytes * Atom * bytes) :=
  let idx := IndexFunc text identInvalidF in
  identB <- slice_to text idx ;;
  text <- slice_from text idx ;;
  if len identB =? 0 then Ok ([], 0%N, text)
  else
    let identB := asciiLower identB in
    let identA := Lookup identB in
    let identS := if (identA =? 0)%N then identB else AtomString identA in
    Ok (identS, identA, text).

Definition is_quote (c : ascii) : bool :=
  Ascii.eqb c "'"%char || Ascii.eqb c "034"%char.

Definition nextValue (text : bytes) : result (bytes * bytes) :=
  c <- at_index text 0 ;;
  if is_quote c then
    let delim := c in
    text <- slice_from text 1 ;;
    let idx := IndexByte text delim in
    v <- slice_to text idx ;;
    rest <- slice_from text (idx + 1) ;;
    Ok (v, rest)
  else
    let idx := IndexFunc text unquotInvalidF in
    v <- slice_to text idx ;;
    rest <- slice_from text idx ;;
    Ok (v, rest).

(** ** Tree builder *)

(** [p.newNode()]: the arena hands out a slot holding the zero node
    (see [Arena.newNode] below); the parser then fills in its fields. *)
Definition newNode : Node := zeroNode.

Definition textNode (parent : Node) (text : bytes) : Node :=
  if 0 <? len text then
    let node := newNode in
    let node := set_Type node TextNode in
    let node := set_Data node (UnescapeString text) in
    AppendChild parent node
  else parent.

(** The attribute loop of [parseStartTag]:
    [for p.text[0] != '/' && p.text[0] != '>' { ... }]. *)
Fixpoint parseAttrs (fuel : nat) (node : Node) (text : bytes)
  : result (Node * bytes) :=
  match fuel with
  | O => OutOfFuel
  | S fuel =>
    c <- at_index text 0 ;;
    if negb (Ascii.eqb c "/"%char) && negb (Ascii.eqb c ">"%char) then
      '(name, _, text) <- nextIdent text ;;
      if bytes_eqb name [] then
        c <- at_index text 0 ;;
        Err (UnexpectedInOpeningNamed c (Data node))
      else
        let text := skipSpace text in
        c <- at_index text 0 ;;
        '(val, text) <-
          (if Ascii.eqb c "="%char then
             t <- slice_from text 1 ;;
             nextValue (skipSpace t)
           else Ok ([], text)) ;;
        let text := skipSpace text in
        let node := append_Attr node (mkAttribute name val) in
        let text := skipSpace text in
        parseAttrs fuel node text
    else Ok (node, text)
  end.

Definition parseStartTag (text : bytes) : result (Node * bool * bytes) :=
  t <- slice_from text 1 ;;
  let text := skipSpace t in
  '(elemS, elemA, rest) <- nextIdent text ;;
  let text := rest in
  if bytes_eqb elemS [] then
    c <- at_index text 0 ;;
    Err (UnexpectedInOpeningTag c)
  else
    let node := newNode in
    let node := set_Type node ElementNode in
    let node := set_Data node elemS in
    let node := set_DataAtom node elemA in
    let text := skipSpace text in
    '(node, text) <- parseAttrs (S (List.length text)) node text ;;
    c <- at_index text 0 ;;
    '(selfClosing, text) <-
      (if Ascii.eqb c "/"%char then
         t <- slice_from text 1 ;;
         let text := skipSpace t in
         c <- at_index text 0 ;;
         if negb (Ascii.eqb c ">"%char) then Err (UnexpectedSlash (Data node))
         else Ok (true, text)
       else Ok (false, text)) ;;
    text <- slice_from text 1 ;;
    Ok (node, selfClosing, text).

(** The test [start == nil || elemA != start.DataAtom ||
    (elemA == 0 && elemS != start.Data)] of [parseEndTag]. *)
Definition end_mismatch (start : option Node) (elemS : bytes) (elemA : Atom)
  : bool :=
  match start with
  | None => true
  | Some start =>
      negb (elemA =? DataAtom start)%N
      || ((elemA =? 0)%N && negb (bytes_eqb elemS (Data start)))
  end.

Definition parseEndTag (start : option Node) (text : bytes)
  : result (bool * bytes) :=
  text <- slice_from text 2 ;;
  '(elemS, elemA, rest) <- nextIdent text ;;
  let text := rest in
  if bytes_eqb elemS [] then
    c <- at_index text 0 ;;
    Err (UnexpectedInClosingTag c)
  else if end_mismatch start elemS elemA then Ok (false, text)
  else
    let text := skipSpace text in
    c <- at_index text 0 ;;
    if negb (Ascii.eqb c ">"%char) then Err (UnexpectedInClosingNamed c elemS)
    else
      text <- slice_from text 1 ;;
      Ok (true, text).

(** The text child a raw-text element gets when its closing tag is found. *)
Definition rawText (parent : Node) (escapable : bool) (buf : bytes) : Node :=
  if escapable then textNode parent buf
  else if 0 <? len buf then
    let node := newNode in
    let node := set_Type node TextNode in
    let node := set_Data node buf in
    AppendChild parent node
  else parent.

(** [parseRaw]; [buf] is the [bytes.Buffer] the loop writes to, empty on
    entry.  One unfolding is one iteration of the [for] loop. *)
Fixpoint parseRaw_loop (fuel : nat) (parent : Node) (escapable : bool)
  (text buf : bytes) : Node * result bytes :=
  match fuel with
  | O => (parent, OutOfFuel)
  | S fuel =>
    let idx := IndexByte text "<"%char in
    if idx <? 0 then (parent, Err (Unclosed (Data parent)))
    else
      match slice_to text idx, slice_from text idx with
      | Ok pre, Ok text =>
        let buf := buf ++ pre in
        if len text <? 2 then (parent, Err EOFInOpeningTag)
        else
          match at_index text 1 with
          | Ok c =>
            let continue (text : bytes) :=
              match slice_to text 2, slice_from text 2 with
              | Ok two, Ok text => parseRaw_loop fuel parent escapable text (buf ++ two)
              | _, _ => (parent, Panic)
              end in
            if Ascii.eqb c "/"%char then
              let oldText := text in
              match parseEndTag (Some parent) text with
              | Ok (true, text) => (rawText parent escapable buf, Ok text)
              | Ok (false, _) => continue oldText
              | Err e => (parent, Err e)
              | Panic => (parent, Panic)
              | OutOfFuel => (parent, OutOfFuel)
              end
            else continue text
          | _ => (parent, Panic)
          end
      | _, _ => (parent, Panic)
      end
  end.

Definition parseRaw (fuel : nat) (parent : Node) (escapable : bool)
  (text : bytes) : Node * result bytes :=
  parseRaw_loop fuel parent escapable text [].

(** The markup declaration branch of [parse] ([case '!']), from
    [p.text = p.text[2:]] to the node that is appended. *)
Definition parseDecl (text : bytes) : result (Node * bytes) :=
  text <- slice_from text 2 ;;
  if len text =? 0 then Err EOFInCommentTag
  else
    let node := newNode in
    let node := set_Type node CommentNode in
    if HasPrefix text (B "--") then
      text <- slice_from text 2 ;;
      let idx := Index text (B "-->") in
      data <- slice_to text idx ;;
      text <- slice_from text (idx + 3) ;;
      Ok (set_Data node data, text)
    else
      '(doctype, _, rest) <- nextIdent text ;;
      if bytes_eqb doctype (B "doctype") then
        let text := skipSpace rest in
        let idx := IndexByte text ">"%char in
        let node := set_Type node DoctypeNode in
        data <- slice_to text idx ;;
        text <- slice_from text (idx + 1) ;;
        Ok (set_Data node data, text)
      else
        let idx := IndexByte text ">"%char in
        data <- slice_to text idx ;;
        text <- slice_from text (idx + 1) ;;
        Ok (set_Data node data, text).

(** [parse].  One unfolding is one iteration of the [for] loop; the
    iteration that follows is the call on the updated parent. *)
Fixpoint parse (fuel : nat) (parent : Node) (root : bool) (text : bytes)
  : Node * result bytes :=
  match fuel with
  | O => (parent, OutOfFuel)
  | S fuel =>
    let idx := IndexByte text "<"%char in
    if idx <? 0 then
      (* break *)
      if negb root then (parent, Err (Unclosed (Data parent)))
      else (textNode parent text, Ok text)
    else
      match slice_to text idx, slice_from text idx with
      | Ok pre, Ok text =>
        let parent := textNode parent pre in
        if len text <? 2 then (parent, Err EOFInOpeningTag)
        else
          match at_index text 1 with
          | Ok c =>
            if Ascii.eqb c "/"%char then
              (* Closing tag *)
              let start := if root then None else Some parent in
              match parseEndTag start text with
              | Ok (true, text) => (parent, Ok text)
              | Ok (false, _) => (parent, Err (Unclosed (Data parent)))
              | Err e => (parent, Err e)
              | Panic => (parent, Panic)
              | OutOfFuel => (parent, OutOfFuel)
              end
            else if Ascii.eqb c "!"%char then
              match parseDecl text with
              | Ok (node, text) => parse fuel (AppendChild parent node) root text
              | Err e => (parent, Err e)
              | Panic => (parent, Panic)
              | OutOfFuel => (parent, OutOfFuel)
              end
            else
              (* Opening tag *)
              match parseStartTag text with
              | Ok (node, selfClosing, text) =>
                if selfClosing then parse fuel (AppendChild parent node) root text
                else
                  let '(node, r) :=
                    match categorize (DataAtom node) with
                    | catVoid => (node, Ok text)
                    | catRaw => parseRaw fuel node false text
                    | catEscapableRaw => parseRaw fuel node true text
                    | catNormal | catTemplate | catForeign =>
                        parse fuel node false text
                    end in
                  match r with
                  | Ok text => parse fuel (AppendChild parent node) root text
                  | _ => (AppendChild parent node, r)
                  end
              | Err e => (parent, Err e)
              | Panic => (parent, Panic)
              | OutOfFuel => (parent, OutOfFuel)
              end
          | _ => (parent, Panic)
          end
      | _, _ => (parent, Panic)
      end
  end.

(** [Parse]: the cursor starts at the whole input and the caller's node is
    the document root. *)
Definition Parse (parent : Node) (text : bytes) : Node * result bytes :=
  parse (S (List.length text)) parent true text.

(** ** Vocabulary of the statements *)

(** The byte [c] does not occur in [s]. *)
Definition lacks (c : ascii) (s : bytes) : bool :=
  forallb (fun x => negb (Ascii.eqb c x)) s.

(** Every byte of [run] may be part of an identifier. *)
Definition ident_run (run : bytes) : bool :=
  forallb (fun x => negb (identInvalidF x)) run.

(** The name [nextIdent] returns for a scanned run of bytes: the tag
    table's spelling when the folded run is a known name, the folded run
    itself otherwise. *)
Definition ident_name (run : bytes) : bytes :=
  if (Lookup (asciiLower run) =? 0)%N then asciiLower run
  else AtomString (Lookup (asciiLower run)).

(** A closing tag's name agrees with an open element: the identities are
    equal, and when both are the identity of no known tag the spellings
    are equal too. *)
Definition tag_matches (parent : Node) (elemS : bytes) (elemA : Atom) : bool :=
  if (elemA =? 0)%N && (DataAtom parent =? 0)%N
  then bytes_eqb elemS (Data parent)
  else (elemA =? DataAtom parent)%N.

(** The atoms [categorize] names. *)
Definition named_atoms : list Atom :=
  void_atoms ++ [Template; Script; Style; Textarea; Title].

(** The tag table spells the names it knows as they were looked up. *)
Definition spells_names : Prop :=
  forall b : bytes, Lookup b <> 0%N -> AtomString (Lookup b) = b.

(** The element a start tag without attributes opens. *)
Definition element (run : bytes) : Node :=
  mkNode ElementNode (ident_name run) (Lookup (asciiLower run)) [] [].

(** A source attribute that [attrs_source] can spell: its name is a
    non-empty run of name bytes and its value has no double quote. *)
Definition attr_ok (a : Attribute) : Prop :=
  ident_run (Key a) = true /\ nonempty (Key a) = true /\
  ident_name (Key a) <> [] /\ lacks "034"%char (Val a) = true.

(** The attribute a start tag stores for a source attribute: the name as
    [nextIdent] returns it, the value as it is. *)
Definition attr_parsed (a : Attribute) : Attribute :=
  mkAttribute (ident_name (Key a)) (Val a).

(** How [parse] goes on once the body of [node] was parsed with result
    [body]: the next iteration on success, the same failure otherwise. *)
Definition after_body (fuel : nat) (parent : Node) (root : bool)
  (body : Node * result bytes) : Node * result bytes :=
  match snd body with
  | Ok text => parse fuel (AppendChild parent (fst body)) root text
  | r => (AppendChild parent (fst body), r)
  end.

End Parser.

(** [parent] with the nodes [l] appended to its children. *)
Definition add_children (parent : Node) (l : list Node) : Node :=
  mkNode (Type_ parent) (Data parent) (DataAtom parent) (Attr parent)
         (Children parent ++ l).

(** A leaf node of the given type and payload. *)
Definition leaf (t : NodeType) (data : bytes) : Node := mkNode t data 0%N [] [].

(** No text node of the tree has an empty payload. *)
Fixpoint no_empty_text (n : Node) : bool :=
  match n with
  | mkNode t data _ _ children =>
      match t, data with
      | TextNode, [] => false
      | _, _ => forallb no_empty_text children
      end
  end.

(** The source text of one attribute, written with a leading blank and a
    double-quoted value, and of a list of attributes. *)
Definition attr_source (a : Attribute) : bytes :=
  B " " ++ Key a ++ B "=" ++ ["034"%char] ++ Val a ++ ["034"%char].

Definition attrs_source (l : list Attribute) : bytes :=
  flat_map attr_source l.


(** ** A concrete instance of the collaborators

    Enough of the tag table and of the decoder to run the parser on the
    inputs of the test suite.  The numeric values of the atoms are
    placeholders (the parser only compares atoms with each other and with
    [0]); the decoder knows the five predefined named references. *)
Module Sample.

Definition table : list (string * Atom) :=
  [("area", 1); ("base", 2); ("br", 3); ("col", 4); ("embed", 5); ("hr", 6);
   ("img", 7); ("input", 8); ("link", 9); ("meta", 10); ("param", 11);
   ("source", 12); ("track", 13); ("wbr", 14); ("template", 15);
   ("script", 16); ("style", 17); ("textarea", 18); ("title", 19);
   ("a", 20); ("b", 21); ("body", 22); ("div", 23); ("h1", 24); ("head", 25);
   ("html", 26); ("p", 27)]%string%N.

Fixpoint lookup (tbl : list (string * Atom)) (name : bytes) : Atom :=
  match tbl with
  | [] => 0%N
  | (s, a) :: tbl' => if bytes_eqb name (B s) then a else lookup tbl' name
  end.

Fixpoint spelling (tbl : list (string * Atom)) (a : Atom) : bytes :=
  match tbl with
  | [] => []
  | (s, a') :: tbl' => if (a =? a')%N then B s else spelling tbl' a
  end.

Definition references : list (string * ascii) :=
  [("&amp;"%string, "&"%char); ("&lt;"%string, "<"%char);
   ("&gt;"%string, ">"%char); ("&quot;"%string, "034"%char);
   ("&apos;"%string, "'"%char)].

Fixpoint reference (refs : list (string * ascii)) (s : bytes)
  : option (ascii * nat) :=
  match refs with
  | [] => None
  | (r, c) :: refs' =>
      if HasPrefix s (B r) then Some (c, List.length (B r))
      else reference refs' s
  end.

Fixpoint unescape (fuel : nat) (s : bytes) : bytes :=
  match fuel, s with
  | O, _ => s
  | _, [] => []
  | S fuel, c :: s' =>
      match reference references s with
      | Some (d, n) => d :: unescape fuel (skipn n s)
      | None => c :: unescape fuel s'
      end
  end.

#[export] Instance env : Env := {|
  Lookup := lookup table;
  AtomString := spelling table;
  UnescapeString := fun s => unescape (List.length s) s;
  Area := 1; Base := 2; Br := 3; Col := 4; Embed := 5; Hr := 6; Img := 7;
  Input := 8; Link := 9; Meta := 10; Param := 11; Source := 12; Track := 13;
  Wbr := 14; Template := 15; Script := 16; Style := 17; Textarea := 18;
  Title := 19
|}%N.


(** The document node the tests pass to [Parse]. *)
Definition doc : Node := mkNode DocumentNode [] 0%N [] [].

End Sample.

(** ** The node arena ([alloc.go])

    [type arena []html.Node] is a slice: a backing array, an offset into it
    and a length.  The heap is the sequence of backing arrays that [make]
    has created so far; the address of a slot is a backing array together
    with an index into it.  The model is generic in the slot type and its
    zero value. *)
Module Arena.
Local Open Scope nat_scope.
Section Arena.
Context {T : Type} (zero : T).

(** How many nodes to allocate at a time *)
Definition arenaSize : nat := 64.

Definition heap := list (list T).

Record ptr : Type := mkPtr { block : nat; slot : nat }.

Record arena : Type := mkArena { backing : nat; offset : nat; alen : nat }.

(** The zero value of the slice type: the arena of a fresh [parser{}]. *)
Definition empty : arena := mkArena 0 0 0.

(** [make(arena, n)]: a new backing array of [n] zeroed slots. *)
Definition make (h : heap) (n : nat) : heap * arena :=
  (h ++ [repeat zero n], mkArena (List.length h) 0 n).

(** [newNode].  After the [if] the slice is never empty, so taking the
    address of its first slot cannot be out of range. *)
Definition newNode (h : heap) (a : arena) : heap * arena * ptr :=
  let '(h, a) := if Nat.eqb (alen a) 0 then make h arenaSize else (h, a) in
  let n := mkPtr (backing a) (offset a) in
  let a := mkArena (backing a) (S (offset a)) (alen a - 1) in
  (h, a, n).

Definition ptr_eqb (p q : ptr) : bool :=
  Nat.eqb (block p) (block q) && Nat.eqb (slot p) (slot q).

(** Reading and writing a slot through its address. *)
Definition load (h : heap) (p : ptr) : option T :=
  match nth_error h (block p) with
  | Some b => nth_error b (slot p)
  | None => None
  end.

Fixpoint update {A : Type} (l : list A) (i : nat) (f : A -> A) : list A :=
  match l, i with
  | [], _ => []
  | x :: l', O => f x :: l'
  | x :: l', S i' => x :: update l' i' f
  end.

Definition store (h : heap) (p : ptr) (v : T) : heap :=
  update h (block p) (fun b => update b (slot p) (fun _ => v)).

(** Two parsers, each with an arena of its own, over one heap.  A client
    holds the addresses [newNode] gave it and can write only through
    those.  The addresses handed out are recorded, the most recent
    first. *)
Record world : Type := mkWorld {
  w_heap : heap;
  w_left : arena;
  w_right : arena;
  issued_left : list ptr;
  issued_right : list ptr
}.

Definition init : world := mkWorld [] empty empty [] [].

Definition issued (w : world) : list ptr := issued_left w ++ issued_right w.

Inductive op : Type :=
| AllocLeft
| AllocRight
| Write (p : ptr) (v : T).

Definition alloc_left (w : world) : world * ptr :=
  let '(h, a, p) := newNode (w_heap w) (w_left w) in
  (mkWorld h a (w_right w) (p :: issued_left w) (issued_right w), p).

Definition alloc_right (w : world) : world * ptr :=
  let '(h, a, p) := newNode (w_heap w) (w_right w) in
  (mkWorld h (w_left w) a (issued_left w) (p :: issued_right w), p).

Definition step (w : world) (o : op) : world :=
  match o with
  | AllocLeft => fst (alloc_left w)
  | AllocRight => fst (alloc_right w)
  | Write p v =>
      if existsb (ptr_eqb p) (issued w)
      then mkWorld (store (w_heap w) p v) (w_left w) (w_right w)
                   (issued_left w) (issued_right w)
      else w
  end.

Definition run (ops : list op) : world := fold_left step ops init.

(** The slots an arena has not handed out yet: they lie in an existing
    backing array, hold the zero value and are known to no client. *)
Definition unissued (h : heap) (known : list ptr) (a : arena) : Prop :=
  (0 < alen a -> backing a < List.length h) /\
  forall j, offset a <= j < offset a + alen a ->
    load h (mkPtr (backing a) j) = Some zero /\ ~ In (mkPtr (backing a) j) known.

(** What every reachable world satisfies. *)
Definition invariant (w : world) : Prop :=
  unissued (w_heap w) (issued w) (w_left w) /\
  unissued (w_heap w) (issued w) (w_right w) /\
  (0 < alen (w_left w) -> 0 < alen (w_right w) ->
   backing (w_left w) <> backing (w_right w)) /\
  (forall p, In p (issued w) -> block p < List.length (w_heap w)) /\
  NoDup (issued w).

End Arena.
End Arena.

(** ** The scratch buffer of [asciiLower]

    [p.lowerBuf] is a byte slice that always starts at the beginning of its
    backing array: it is represented by that array, whose length is the
    capacity, and by the length of the slice.  Reslicing beyond the capacity
    and writing at an index beyond the length are run-time panics. *)
Module LowerBuf.

Record buffer : Type := mkBuffer { arr : bytes; blen : Z }.

(** The zero value: the [lowerBuf] of a fresh [parser{}]. *)
Definition nil_buffer : buffer := mkBuffer [] 0.

(** [cap(b)] *)
Definition cap (b : buffer) : Z := len (arr b).

(** [make([]byte, n)] *)
Definition make (n : Z) : buffer :=
  mkBuffer (repeat "000"%char (Z.to_nat n)) n.

(** [b[:n]] *)
Definition reslice (b : buffer) (n : Z) : result buffer :=
  if (0 <=? n) && (n <=? cap b) then Ok (mkBuffer (arr b) n) else Panic.

(** [b[i] = c] *)
Definition put (b : buffer) (i : Z) (c : ascii) : result buffer :=
  if (0 <=? i) && (i <? blen b)
  then Ok (mkBuffer (firstn (Z.to_nat i) (arr b) ++ c :: skipn (S (Z.to_nat i)) (arr b))
                    (blen b))
  else Panic.

(** The bytes a holder of the slice reads. *)
Definition view (b : buffer) : bytes := firstn (Z.to_nat (blen b)) (arr b).

(** [for i, ch := range text { ... }] *)
Fixpoint fold_loop (b : buffer) (i : Z) (text : bytes) : result buffer :=
  match text with
  | [] => Ok b
  | ch :: text' =>
      let n := N_of_ascii ch in
      b <- (if (65 <=? n)%N && (n <=? 90)%N
            then put b i (ascii_of_N (N.lor n 32))
            else put b i ch) ;;
      fold_loop b (i + 1) text'
  end.

(** [asciiLower]: the buffer after the call; the slice returned is the
    buffer itself. *)
Definition asciiLower (b : buffer) (text : bytes) : result buffer :=
  let b :=
    if cap b <? len text then
      let n := 2 * cap b in
      let n := if n <? len text then len text else n in
      make n
    else b in
  b <- reslice b (len text) ;;
  fold_loop b 0 text.

End LowerBuf.

(** * Properties *)

(** ** Bytes and slices *)

Lemma bytes_eqb_spec (a b : bytes) : reflect (a = b) (bytes_eqb a b).
Proof.
  unfold bytes_eqb. destruct (list_eq_dec ascii_dec a b); constructor; assumption.
Qed.

Lemma bytes_eqb_refl (a : bytes) : bytes_eqb a a = true.
Proof. destruct (bytes_eqb_spec a a); congruence. Qed.

Lemma bytes_eqb_neq (a b : bytes) : a <> b -> bytes_eqb a b = false.
Proof. destruct (bytes_eqb_spec a b); congruence. Qed.

Lemma bytes_eqb_nil (a : bytes) : bytes_eqb a [] = negb (nonempty a).
Proof. destruct a; reflexivity. Qed.

Lemma len_app (a b : bytes) : len (a ++ b) = len a + len b.
Proof. unfold len. rewrite length_app. lia. Qed.

Lemma len_nonneg (a : bytes) : 0 <= len a.
Proof. unfold len. lia. Qed.

Lemma slice_to_app (pre r : bytes) : slice_to (pre ++ r) (len pre) = Ok pre.
Proof.
  unfold slice_to. rewrite len_app.
  pose proof (len_nonneg pre). pose proof (len_nonneg r).
  replace ((0 <=? len pre) && (len pre <=? len pre + len r)) with true
    by (symmetry; apply andb_true_iff; split; apply Z.leb_le; lia).
  unfold len. rewrite Nat2Z.id, firstn_app, firstn_all, Nat.sub_diag.
  simpl. now rewrite app_nil_r.
Qed.

Lemma slice_from_app (pre r : bytes) : slice_from (pre ++ r) (len pre) = Ok r.
Proof.
  unfold slice_from. rewrite len_app.
  pose proof (len_nonneg pre). pose proof (len_nonneg r).
  replace ((0 <=? len pre) && (len pre <=? len pre + len r)) with true
    by (symmetry; apply andb_true_iff; split; apply Z.leb_le; lia).
  unfold len. rewrite Nat2Z.id, skipn_app, skipn_all, Nat.sub_diag.
  reflexivity.
Qed.

Lemma slice_from_length (s t : bytes) (i : Z) :
  slice_from s i = Ok t -> 0 <= i /\ len t = len s - i.
Proof.
  unfold slice_from.
  destruct ((0 <=? i) && (i <=? len s)) eqn:Hb; [|discriminate].
  apply andb_true_iff in Hb. destruct Hb as [H0 H1].
  apply Z.leb_le in H0. apply Z.leb_le in H1.
  intros [= <-]. split; [assumption|].
  unfold len in *. rewrite length_skipn. lia.
Qed.

Lemma slice_to_length (s t : bytes) (i : Z) :
  slice_to s i = Ok t -> 0 <= i /\ len t = i.
Proof.
  unfold slice_to.
  destruct ((0 <=? i) && (i <=? len s)) eqn:Hb; [|discriminate].
  apply andb_true_iff in Hb. destruct Hb as [H0 H1].
  apply Z.leb_le in H0. apply Z.leb_le in H1.
  intros [= <-]. split; [assumption|].
  unfold len in *. rewrite length_firstn. lia.
Qed.

Lemma slice_split (s : bytes) (i : Z) :
  0 <= i <= len s ->
  slice_to s i = Ok (firstn (Z.to_nat i) s) /\
  slice_from s i = Ok (skipn (Z.to_nat i) s).
Proof.
  intros H. unfold slice_to, slice_from.
  replace ((0 <=? i) && (i <=? len s)) with true; [split; reflexivity|].
  symmetry. apply andb_true_iff. split; apply Z.leb_le; lia.
Qed.

Lemma at_index_cons (c : ascii) (s : bytes) : at_index (c :: s) 0 = Ok c.
Proof. unfold at_index, len. simpl List.length. rewrite Nat2Z.inj_succ. 
  replace (0 <? Z.succ (Z.of_nat (List.length s))) with true by (symmetry; apply Z.ltb_lt; lia).
  reflexivity. Qed.

Lemma at_index_ok (s : bytes) (c : ascii) :
  at_index s 0 = Ok c -> exists s', s = c :: s'.
Proof.
  destruct s as [|x s]; [discriminate|]. rewrite at_index_cons.
  intros [= ->]. now exists s.
Qed.

(** ** Index functions *)

Lemma find_index_bound (f : ascii -> bool) (s : bytes) (i : nat) :
  find_index f s = Some i -> (i < List.length s)%nat.
Proof.
  revert i. induction s as [|c s IH]; simpl; [discriminate|].
  intros i. destruct (f c).
  - intros [= <-]. lia.
  - destruct (find_index f s) as [j|]; simpl; [|discriminate].
    intros [= <-]. specialize (IH j eq_refl). lia.
Qed.

Lemma find_index_first (f : ascii -> bool) (pre : bytes) (c : ascii) (r : bytes) :
  forallb (fun x => negb (f x)) pre = true -> f c = true ->
  find_index f (pre ++ c :: r) = Some (List.length pre).
Proof.
  intros Hpre Hc. induction pre as [|x pre IH]; simpl.
  - now rewrite Hc.
  - simpl in Hpre. apply andb_true_iff in Hpre. destruct Hpre as [Hx Hpre].
    apply negb_true_iff in Hx. rewrite Hx, (IH Hpre). reflexivity.
Qed.

Lemma find_index_none (f : ascii -> bool) (s : bytes) :
  find_index f s = None <-> forallb (fun x => negb (f x)) s = true.
Proof.
  induction s as [|c s IH]; simpl; [tauto|].
  destruct (f c); simpl.
  - split; discriminate.
  - rewrite <- IH. destruct (find_index f s); simpl; split; congruence.
Qed.

Lemma find_index_split (f : ascii -> bool) (s : bytes) (i : nat) :
  find_index f s = Some i ->
  exists c r, s = firstn i s ++ c :: r /\ f c = true /\
    forallb (fun x => negb (f x)) (firstn i s) = true /\
    List.length (firstn i s) = i.
Proof.
  revert i. induction s as [|x s IH]; simpl; [discriminate|].
  intros i. destruct (f x) eqn:Hx.
  - intros [= <-]. exists x, s. simpl. auto.
  - destruct (find_index f s) as [j|] eqn:Hj; simpl; [|discriminate].
    intros [= <-]. destruct (IH j eq_refl) as (c & r & Hs & Hc & Hall & Hlen).
    exists c, r. simpl. rewrite Hx, Hall, Hlen. simpl.
    repeat split; auto. f_equal. exact Hs.
Qed.

Lemma IndexFunc_first (f : ascii -> bool) (pre : bytes) (c : ascii) (r : bytes) :
  forallb (fun x => negb (f x)) pre = true -> f c = true ->
  IndexFunc (pre ++ c :: r) f = len pre.
Proof.
  intros. unfold IndexFunc. now rewrite find_index_first.
Qed.

Lemma IndexFunc_range (f : ascii -> bool) (s : bytes) :
  -1 <= IndexFunc s f < len s \/ (IndexFunc s f = -1).
Proof.
  unfold IndexFunc, len. destruct (find_index f s) as [i|] eqn:H; simpl.
  - apply find_index_bound in H. lia.
  - lia.
Qed.

Lemma IndexFunc_neg (f : ascii -> bool) (s : bytes) :
  (IndexFunc s f <? 0) = true <-> forallb (fun x => negb (f x)) s = true.
Proof.
  rewrite <- find_index_none. unfold IndexFunc.
  destruct (find_index f s) as [i|]; simpl.
  - split; [|discriminate]. intros H. apply Z.ltb_lt in H. lia.
  - split; reflexivity.
Qed.

Lemma IndexFunc_nonneg (f : ascii -> bool) (s : bytes) :
  (IndexFunc s f <? 0) = false ->
  exists pre c r, s = pre ++ c :: r /\ f c = true /\
    forallb (fun x => negb (f x)) pre = true /\ IndexFunc s f = len pre.
Proof.
  unfold IndexFunc. destruct (find_index f s) as [i|] eqn:H; simpl.
  - intros _. destruct (find_index_split _ _ _ H) as (c & r & Hs & Hc & Hall & Hlen).
    exists (firstn i s), c, r. unfold len. rewrite Hlen. auto.
  - discriminate.
Qed.

(** ** Monadic plumbing *)

Lemma bind_ok {A C : Type} (m : result A) (k : A -> result C) (c : C) :
  bind m k = Ok c -> exists a, m = Ok a /\ k a = Ok c.
Proof. destruct m; simpl; try discriminate. intros H. now exists a. Qed.

Lemma bind_fuel {A C : Type} (m : result A) (k : A -> result C) :
  bind m k = OutOfFuel ->
  m = OutOfFuel \/ exists a, m = Ok a /\ k a = OutOfFuel.
Proof. destruct m; simpl; try discriminate; intros H; [right; now exists a | now left]. Qed.

Lemma slice_to_fuel (s : bytes) (i : Z) : slice_to s i <> OutOfFuel.
Proof. unfold slice_to. destruct (_ && _); discriminate. Qed.

Lemma slice_from_fuel (s : bytes) (i : Z) : slice_from s i <> OutOfFuel.
Proof. unfold slice_from. destruct (_ && _); discriminate. Qed.

Lemma at_index_fuel (s : bytes) (i : Z) : at_index s i <> OutOfFuel.
Proof.
  unfold at_index. destruct (_ && _); [|discriminate].
  destruct (nth_error _ _); discriminate.
Qed.

(** ** Scanner *)

Lemma skipSpace_length (t : bytes) : len (skipSpace t) <= len t.
Proof.
  unfold len. induction t as [|c t IH]; simpl; [lia|].
  destruct (whitespaceF c); simpl; lia.
Qed.

Lemma skipSpace_app (ws r : bytes) :
  forallb whitespaceF ws = true -> skipSpace (ws ++ r) = skipSpace r.
Proof.
  induction ws as [|c ws IH]; simpl; [reflexivity|].
  intros H. apply andb_true_iff in H. destruct H as [Hc H].
  now rewrite Hc, IH.
Qed.

Lemma skipSpace_stop (c : ascii) (r : bytes) :
  whitespaceF c = false -> skipSpace (c :: r) = c :: r.
Proof. intros H. simpl. now rewrite H. Qed.

Lemma whitespace_identInvalid (c : ascii) :
  whitespaceF c = true -> identInvalidF c = true.
Proof. intros H. unfold identInvalidF. now rewrite H. Qed.

Section ScannerFacts.
Context {E : Env}.

Lemma nextIdent_scan (run : bytes) (c : ascii) (r : bytes) :
  forallb (fun x => negb (identInvalidF x)) run = true ->
  identInvalidF c = true ->
  nextIdent (run ++ c :: r) =
    if nonempty run
    then Ok (ident_name run, Lookup (asciiLower run), c :: r)
    else Ok ([], 0%N, c :: r).
Proof.
  intros Hrun Hc. unfold nextIdent.
  rewrite (IndexFunc_first _ _ _ _ Hrun Hc), slice_to_app, slice_from_app.
  simpl. destruct run as [|x run]; [reflexivity|].
  unfold len. simpl List.length. rewrite Nat2Z.inj_succ.
  replace (Z.succ (Z.of_nat (List.length run)) =? 0) with false
    by (symmetry; apply Z.eqb_neq; lia).
  reflexivity.
Qed.

Lemma nextIdent_panic (text : bytes) :
  forallb (fun x => negb (identInvalidF x)) text = true ->
  nextIdent text = Panic.
Proof.
  intros H. unfold nextIdent.
  apply find_index_none in H. unfold IndexFunc. rewrite H. reflexivity.
Qed.

Lemma nextIdent_ok (text : bytes) (s : bytes) (a : Atom) (rest : bytes) :
  nextIdent text = Ok (s, a, rest) ->
  exists run c r,
    text = run ++ c :: r /\ rest = c :: r /\ identInvalidF c = true /\
    forallb (fun x => negb (identInvalidF x)) run = true /\
    (s, a) = if nonempty run then (ident_name run, Lookup (asciiLower run))
             else ([], 0%N).
Proof.
  intros H.
  destruct (IndexFunc text identInvalidF <? 0) eqn:Hneg.
  - apply IndexFunc_neg in Hneg. rewrite (nextIdent_panic _ Hneg) in H.
    discriminate.
  - destruct (IndexFunc_nonneg _ _ Hneg) as (run & c & r & -> & Hc & Hrun & _).
    rewrite (nextIdent_scan _ _ _ Hrun Hc) in H.
    exists run, c, r. destruct (nonempty run); injection H as <- <- <-; auto.
Qed.

Lemma nextIdent_length (text s : bytes) (a : Atom) (rest : bytes) :
  nextIdent text = Ok (s, a, rest) ->
  len rest <= len text /\ (s <> [] -> len rest < len text) /\ 0 < len rest.
Proof.
  intros H. destruct (nextIdent_ok _ _ _ _ H) as (run & c & r & -> & -> & _ & _ & Hs).
  rewrite len_app. pose proof (len_nonneg run). pose proof (len_nonneg r).
  assert (Hcr : len (c :: r) = 1 + len r) by (unfold len; simpl List.length; lia).
  repeat split; try lia.
  intros Hne. destruct run as [|x run]; simpl in Hs.
  - injection Hs as -> _. congruence.
  - unfold len. simpl List.length. lia.
Qed.

Lemma nextIdent_fuel (text : bytes) : nextIdent text <> OutOfFuel.
Proof.
  unfold nextIdent. intros H.
  apply bind_fuel in H. destruct H as [H|(x & _ & H)]; [now apply slice_to_fuel in H|].
  apply bind_fuel in H. destruct H as [H|(y & _ & H)]; [now apply slice_from_fuel in H|].
  destruct (len x =? 0); discriminate.
Qed.

Lemma nextValue_length (text v rest : bytes) :
  nextValue text = Ok (v, rest) -> len rest <= len text.
Proof.
  unfold nextValue. intros H.
  apply bind_ok in H. destruct H as (c & Hc & H).
  destruct (is_quote c).
  - apply bind_ok in H. destruct H as (t1 & Ht1 & H).
    apply bind_ok in H. destruct H as (v' & Hv & H).
    apply bind_ok in H. destruct H as (r' & Hr & H).
    injection H as <- <-.
    apply slice_from_length in Ht1. apply slice_from_length in Hr. lia.
  - apply bind_ok in H. destruct H as (v' & Hv & H).
    apply bind_ok in H. destruct H as (r' & Hr & H).
    injection H as <- <-.
    apply slice_from_length in Hr. lia.
Qed.

Lemma nextValue_fuel (text : bytes) : nextValue text <> OutOfFuel.
Proof.
  unfold nextValue. intros H.
  apply bind_fuel in H. destruct H as [H|(c & _ & H)]; [now apply at_index_fuel in H|].
  destruct (is_quote c).
  - apply bind_fuel in H. destruct H as [H|(? & _ & H)]; [now apply slice_from_fuel in H|].
    apply bind_fuel in H. destruct H as [H|(? & _ & H)]; [now apply slice_to_fuel in H|].
    apply bind_fuel in H. destruct H as [H|(? & _ & H)]; [now apply slice_from_fuel in H|].
    discriminate.
  - apply bind_fuel in H. destruct H as [H|(? & _ & H)]; [now apply slice_to_fuel in H|].
    apply bind_fuel in H. destruct H as [H|(? & _ & H)]; [now apply slice_from_fuel in H|].
    discriminate.
Qed.

End ScannerFacts.

(** ** Tags: consumption and fuel *)

Tactic Notation "ok_step" hyp(H) "as" ident(x) ident(Hx) :=
  apply bind_ok in H; destruct H as (x & Hx & H).

Tactic Notation "fuel_step" hyp(H) "by" constr(lem) "as" ident(x) ident(Hx) :=
  apply bind_fuel in H; destruct H as [H|(x & Hx & H)]; [now apply lem in H|].

Section TagFacts.
Context {E : Env}.

(** What the optional [= value] part of an attribute leaves of the text. *)
Lemma attr_value_length (c : ascii) (text val t2 : bytes) :
  (if Ascii.eqb c "="
   then t <- slice_from text 1 ;; nextValue (skipSpace t)
   else Ok ([], text)) = Ok (val, t2) ->
  len t2 <= len text.
Proof.
  destruct (Ascii.eqb c "=").
  - intros H. ok_step H as t Ht. apply nextValue_length in H.
    apply slice_from_length in Ht. pose proof (skipSpace_length t). lia.
  - intros [= _ <-]. lia.
Qed.

Lemma parseAttrs_length (fuel : nat) (node : Node) (text : bytes)
  (node' : Node) (text' : bytes) :
  parseAttrs fuel node text = Ok (node', text') ->
  len text' <= len text /\ 0 < len text'.
Proof.
  revert node text. induction fuel as [|fuel IH]; intros node text H; [discriminate|].
  simpl in H. ok_step H as c Hc.
  destruct (negb (Ascii.eqb c "/") && negb (Ascii.eqb c ">")).
  - ok_step H as id Hid. destruct id as [[name a] t1].
    destruct (bytes_eqb name []).
    + ok_step H as c1 Hc1. discriminate.
    + ok_step H as c1 Hc1. ok_step H as vt Hvt. destruct vt as [val t2].
      apply IH in H. apply nextIdent_length in Hid.
      apply attr_value_length in Hvt.
      pose proof (skipSpace_length t1). pose proof (skipSpace_length t2).
      pose proof (skipSpace_length (skipSpace t2)). lia.
  - injection H as _ <-. apply at_index_ok in Hc. destruct Hc as (s' & ->).
    unfold len. simpl List.length. lia.
Qed.

Lemma parseAttrs_fuel (fuel : nat) (node : Node) (text : bytes) :
  len text < Z.of_nat fuel -> parseAttrs fuel node text <> OutOfFuel.
Proof.
  revert node text. induction fuel as [|fuel IH]; intros node text Hlen H.
  - pose proof (len_nonneg text). lia.
  - simpl in H. fuel_step H by at_index_fuel as c Hc.
    destruct (negb (Ascii.eqb c "/") && negb (Ascii.eqb c ">")); [|discriminate].
    fuel_step H by nextIdent_fuel as id Hid. destruct id as [[name a] t1].
    destruct (bytes_eqb_spec name []) as [|Hname].
    + fuel_step H by at_index_fuel as c1 Hc1. discriminate.
    + fuel_step H by at_index_fuel as c1 Hc1.
      apply bind_fuel in H. destruct H as [H|(vt & Hvt & H)].
      * destruct (Ascii.eqb c1 "="); [|discriminate].
        fuel_step H by slice_from_fuel as t Ht. now apply nextValue_fuel in H.
      * destruct vt as [val t2]. revert H. apply IH.
        apply nextIdent_length in Hid. destruct Hid as (_ & Hlt & _).
        apply attr_value_length in Hvt.
        pose proof (skipSpace_length t1). pose proof (skipSpace_length t2).
        pose proof (skipSpace_length (skipSpace t2)).
        specialize (Hlt Hname). lia.
Qed.

Lemma parseAttrs_fields (fuel : nat) (node : Node) (text : bytes)
  (node' : Node) (text' : bytes) :
  parseAttrs fuel node text = Ok (node', text') ->
  Children node' = Children node /\ Type_ node' = Type_ node /\
  Data node' = Data node /\ DataAtom node' = DataAtom node.
Proof.
  revert node text. induction fuel as [|fuel IH]; intros node text H; [discriminate|].
  simpl in H. ok_step H as c Hc.
  destruct (negb (Ascii.eqb c "/") && negb (Ascii.eqb c ">")).
  - ok_step H as id Hid. destruct id as [[name a] t1].
    destruct (bytes_eqb name []).
    + ok_step H as c1 Hc1. discriminate.
    + ok_step H as c1 Hc1. ok_step H as vt Hvt. destruct vt as [val t2].
      apply IH in H. simpl in H. exact H.
  - injection H as <- _. auto.
Qed.

(** What the optional [/] of a start tag leaves of the text. *)
Lemma self_closing_length (c : ascii) (node : Node) (text : bytes)
  (sc : bool) (t2 : bytes) :
  (if Ascii.eqb c "/"
   then t <- slice_from text 1 ;;
        c' <- at_index (skipSpace t) 0 ;;
        if negb (Ascii.eqb c' ">") then Err (UnexpectedSlash (Data node))
        else Ok (true, skipSpace t)
   else Ok (false, text)) = Ok (sc, t2) ->
  len t2 <= len text /\ sc = Ascii.eqb c "/".
Proof.
  destruct (Ascii.eqb c "/").
  - intros H. ok_step H as t Ht. ok_step H as c' Hc'.
    destruct (negb (Ascii.eqb c' ">")); [discriminate|].
    injection H as <- <-. apply slice_from_length in Ht.
    pose proof (skipSpace_length t). split; [lia|reflexivity].
  - intros [= <- <-]. split; [lia|reflexivity].
Qed.

Lemma parseStartTag_length (text : bytes) (node : Node) (sc : bool) (text' : bytes) :
  parseStartTag text = Ok (node, sc, text') -> len text' < len text.
Proof.
  unfold parseStartTag. intros H.
  ok_step H as t Ht. ok_step H as id Hid. destruct id as [[elemS elemA] rest].
  destruct (bytes_eqb elemS []).
  - ok_step H as c Hc. discriminate.
  - ok_step H as nt Hnt. destruct nt as [node1 t1]. ok_step H as c Hc.
    ok_step H as st Hst. destruct st as [sc1 t2]. ok_step H as t3 Ht3.
    injection H as _ _ <-.
    apply slice_from_length in Ht, Ht3. apply nextIdent_length in Hid.
    apply parseAttrs_length in Hnt. apply self_closing_length in Hst.
    pose proof (skipSpace_length t). pose proof (skipSpace_length rest). lia.
Qed.

Lemma parseStartTag_fuel (text : bytes) : parseStartTag text <> OutOfFuel.
Proof.
  unfold parseStartTag. intros H.
  fuel_step H by slice_from_fuel as t Ht. fuel_step H by nextIdent_fuel as id Hid.
  destruct id as [[elemS elemA] rest].
  destruct (bytes_eqb elemS []).
  - fuel_step H by at_index_fuel as c Hc. discriminate.
  - apply bind_fuel in H. destruct H as [H|(nt & Hnt & H)].
    + revert H. apply parseAttrs_fuel. unfold len. lia.
    + destruct nt as [node1 t1]. fuel_step H by at_index_fuel as c Hc.
      apply bind_fuel in H. destruct H as [H|(st & Hst & H)].
      * destruct (Ascii.eqb c "/"); [|discriminate].
        fuel_step H by slice_from_fuel as t2 Ht2.
        fuel_step H by at_index_fuel as c2 Hc2.
        destruct (negb (Ascii.eqb c2 ">")); discriminate.
      * destruct st as [sc t2]. fuel_step H by slice_from_fuel as t3 Ht3.
        discriminate.
Qed.

(** A start tag yields an element with a name and no children. *)
Lemma parseStartTag_node (text : bytes) (node : Node) (sc : bool) (text' : bytes) :
  parseStartTag text = Ok (node, sc, text') ->
  Type_ node = ElementNode /\ Children node = [] /\ Data node <> [].
Proof.
  unfold parseStartTag. intros H.
  ok_step H as t Ht. ok_step H as id Hid. destruct id as [[elemS elemA] rest].
  destruct (bytes_eqb_spec elemS []).
  - ok_step H as c Hc. discriminate.
  - ok_step H as nt Hnt. destruct nt as [node1 t1]. ok_step H as c Hc.
    ok_step H as st Hst. destruct st as [sc1 t2]. ok_step H as t3 Ht3.
    injection H as <- _ _.
    apply parseAttrs_fields in Hnt. simpl in Hnt.
    destruct Hnt as (-> & -> & -> & _). auto.
Qed.

Lemma parseEndTag_length (start : option Node) (text : bytes) (ok : bool) (text' : bytes) :
  parseEndTag start text = Ok (ok, text') -> len text' < len text.
Proof.
  unfold parseEndTag. intros H.
  ok_step H as t Ht. ok_step H as id Hid. destruct id as [[elemS elemA] rest].
  apply slice_from_length in Ht. apply nextIdent_length in Hid.
  destruct (bytes_eqb elemS []).
  - ok_step H as c Hc. discriminate.
  - destruct (end_mismatch start elemS elemA).
    + injection H as _ <-. lia.
    + ok_step H as c Hc. destruct (negb (Ascii.eqb c ">")); [discriminate|].
      ok_step H as t2 Ht2. injection H as _ <-. apply slice_from_length in Ht2.
      pose proof (skipSpace_length rest). lia.
Qed.

Lemma parseEndTag_fuel (start : option Node) (text : bytes) :
  parseEndTag start text <> OutOfFuel.
Proof.
  unfold parseEndTag. intros H.
  fuel_step H by slice_from_fuel as t Ht. fuel_step H by nextIdent_fuel as id Hid.
  destruct id as [[elemS elemA] rest].
  destruct (bytes_eqb elemS []).
  - fuel_step H by at_index_fuel as c Hc. discriminate.
  - destruct (end_mismatch start elemS elemA); [discriminate|].
    fuel_step H by at_index_fuel as c Hc.
    destruct (negb (Ascii.eqb c ">")); [discriminate|].
    fuel_step H by slice_from_fuel as t2 Ht2. discriminate.
Qed.

Lemma parseDecl_length (text : bytes) (node : Node) (text' : bytes) :
  parseDecl text = Ok (node, text') -> len text' < len text.
Proof.
  unfold parseDecl. intros H. ok_step H as t Ht.
  apply slice_from_length in Ht.
  destruct (len t =? 0); [discriminate|].
  destruct (HasPrefix t (B "--")).
  - ok_step H as t1 Ht1. ok_step H as d Hd. ok_step H as t2 Ht2.
    injection H as _ <-.
    apply slice_from_length in Ht1, Ht2. apply slice_to_length in Hd. lia.
  - ok_step H as id Hid. destruct id as [[d a] rest].
    apply nextIdent_length in Hid.
    destruct (bytes_eqb d (B "doctype")).
    + ok_step H as dd Hdd. ok_step H as t2 Ht2. injection H as _ <-.
      apply slice_from_length in Ht2. apply slice_to_length in Hdd.
      pose proof (skipSpace_length rest). lia.
    + ok_step H as dd Hdd. ok_step H as t2 Ht2. injection H as _ <-.
      apply slice_from_length in Ht2. apply slice_to_length in Hdd. lia.
Qed.

Lemma parseDecl_fuel (text : bytes) : parseDecl text <> OutOfFuel.
Proof.
  unfold parseDecl. intros H. fuel_step H by slice_from_fuel as t Ht.
  destruct (len t =? 0); [discriminate|].
  destruct (HasPrefix t (B "--")).
  - fuel_step H by slice_from_fuel as t1 Ht1. fuel_step H by slice_to_fuel as d Hd.
    fuel_step H by slice_from_fuel as t2 Ht2. discriminate.
  - fuel_step H by nextIdent_fuel as id Hid. destruct id as [[d a] rest].
    destruct (bytes_eqb d (B "doctype")).
    + fuel_step H by slice_to_fuel as dd Hdd.
      fuel_step H by slice_from_fuel as t2 Ht2. discriminate.
    + fuel_step H by slice_to_fuel as dd Hdd.
      fuel_step H by slice_from_fuel as t2 Ht2. discriminate.
Qed.

End TagFacts.

(** ** The loops consume input and the fuel of [Parse] suffices *)

Section LoopFacts.
Context {E : Env}.

Lemma parseRaw_loop_length (fuel : nat) (parent : Node) (escapable : bool)
  (text buf : bytes) (parent' : Node) (text' : bytes) :
  parseRaw_loop fuel parent escapable text buf = (parent', Ok text') ->
  len text' < len text.
Proof.
  revert text buf. induction fuel as [|fuel IH]; intros text buf H; [discriminate|].
  simpl in H.
  destruct (IndexByte text "<" <? 0); [discriminate|].
  destruct (slice_to text (IndexByte text "<")) as [pre| | |] eqn:Hpre; try discriminate.
  destruct (slice_from text (IndexByte text "<")) as [t1| | |] eqn:Ht1; try discriminate.
  apply slice_from_length in Ht1.
  destruct (len t1 <? 2); [discriminate|].
  destruct (at_index t1 1) as [c| | |]; try discriminate.
  assert (Hcont :
    match slice_to t1 2 with
    | Ok two => match slice_from t1 2 with
                | Ok t2 => parseRaw_loop fuel parent escapable t2 ((buf ++ pre) ++ two)
                | _ => (parent, Panic)
                end
    | _ => (parent, Panic)
    end = (parent', Ok text') -> len text' < len text).
  { intros Hr. destruct (slice_to t1 2); try discriminate.
    destruct (slice_from t1 2) as [t2| | |] eqn:Ht2; try discriminate.
    apply slice_from_length in Ht2. apply IH in Hr. lia. }
  destruct (Ascii.eqb c "/").
  - destruct (parseEndTag (Some parent) t1) as [[[|] t2]| | |] eqn:Hend; try discriminate.
    + injection H as _ <-. apply parseEndTag_length in Hend. lia.
    + now apply Hcont.
  - now apply Hcont.
Qed.

Lemma parseRaw_loop_fuel (fuel : nat) (parent : Node) (escapable : bool)
  (text buf : bytes) :
  len text < Z.of_nat fuel ->
  snd (parseRaw_loop fuel parent escapable text buf) <> OutOfFuel.
Proof.
  revert text buf. induction fuel as [|fuel IH]; intros text buf Hlen.
  - pose proof (len_nonneg text). lia.
  - simpl.
    destruct (IndexByte text "<" <? 0); [discriminate|].
    destruct (slice_to text (IndexByte text "<")) as [pre| | |] eqn:Hpre;
      try discriminate; try (now apply slice_to_fuel in Hpre).
    destruct (slice_from text (IndexByte text "<")) as [t1| | |] eqn:Ht1;
      try discriminate; try (now apply slice_from_fuel in Ht1).
    apply slice_from_length in Ht1.
    destruct (len t1 <? 2) eqn:H2; [discriminate|]. apply Z.ltb_ge in H2.
    destruct (at_index t1 1) as [c| | |]; try discriminate.
    assert (Hcont :
      snd match slice_to t1 2 with
          | Ok two => match slice_from t1 2 with
                      | Ok t2 => parseRaw_loop fuel parent escapable t2 ((buf ++ pre) ++ two)
                      | _ => (parent, Panic)
                      end
          | _ => (parent, Panic)
          end <> OutOfFuel).
    { destruct (slice_to t1 2); try discriminate.
      destruct (slice_from t1 2) as [t2| | |] eqn:Ht2; try discriminate.
      apply slice_from_length in Ht2. apply IH. lia. }
    destruct (Ascii.eqb c "/"); [|exact Hcont].
    destruct (parseEndTag (Some parent) t1) as [[[|] t2]| | |] eqn:Hend;
      try discriminate; try exact Hcont.
    now apply parseEndTag_fuel in Hend.
Qed.

Lemma parse_length (fuel : nat) (parent : Node) (root : bool) (text : bytes)
  (parent' : Node) (text' : bytes) :
  parse fuel parent root text = (parent', Ok text') -> len text' <= len text.
Proof.
  revert parent root text parent' text'.
  induction fuel as [|fuel IH]; intros parent root text parent' text' H; [discriminate|].
  simpl in H.
  destruct (IndexByte text "<" <? 0).
  { destruct (negb root); [discriminate|]. injection H as _ <-. lia. }
  destruct (slice_to text (IndexByte text "<")) as [pre| | |] eqn:Hpre; try discriminate.
  destruct (slice_from text (IndexByte text "<")) as [t1| | |] eqn:Ht1; try discriminate.
  apply slice_from_length in Ht1.
  destruct (len t1 <? 2); [discriminate|].
  destruct (at_index t1 1) as [c| | |]; try discriminate.
  destruct (Ascii.eqb c "/").
  { destruct (parseEndTag _ t1) as [[[|] t2]| | |] eqn:Hend; try discriminate.
    injection H as _ <-. apply parseEndTag_length in Hend. lia. }
  destruct (Ascii.eqb c "!").
  { destruct (parseDecl t1) as [[node t2]| | |] eqn:Hdecl; try discriminate.
    apply parseDecl_length in Hdecl. apply IH in H. lia. }
  destruct (parseStartTag t1) as [[[node sc] t2]| | |] eqn:Hstart; try discriminate.
  apply parseStartTag_length in Hstart.
  destruct sc.
  { apply IH in H. lia. }
  destruct (categorize (DataAtom node)).
  - apply IH in H. lia.
  - destruct (parse fuel node false t2) as [node' [t3| | |]] eqn:Hbody; try discriminate.
    apply IH in Hbody. apply IH in H. lia.
  - unfold parseRaw in H.
    destruct (parseRaw_loop fuel node false t2 []) as [node' [t3| | |]] eqn:Hbody;
      try discriminate.
    apply parseRaw_loop_length in Hbody. apply IH in H. lia.
  - unfold parseRaw in H.
    destruct (parseRaw_loop fuel node true t2 []) as [node' [t3| | |]] eqn:Hbody;
      try discriminate.
    apply parseRaw_loop_length in Hbody. apply IH in H. lia.
  - destruct (parse fuel node false t2) as [node' [t3| | |]] eqn:Hbody; try discriminate.
    apply IH in Hbody. apply IH in H. lia.
  - destruct (parse fuel node false t2) as [node' [t3| | |]] eqn:Hbody; try discriminate.
    apply IH in Hbody. apply IH in H. lia.
Qed.

Lemma parse_fuel (fuel : nat) (parent : Node) (root : bool) (text : bytes) :
  len text < Z.of_nat fuel -> snd (parse fuel parent root text) <> OutOfFuel.
Proof.
  revert parent root text.
  induction fuel as [|fuel IH]; intros parent root text Hlen.
  { pose proof (len_nonneg text). lia. }
  simpl.
  destruct (IndexByte text "<" <? 0).
  { destruct (negb root); discriminate. }
  destruct (slice_to text (IndexByte text "<")) as [pre| | |] eqn:Hpre;
    try discriminate; try (now apply slice_to_fuel in Hpre).
  destruct (slice_from text (IndexByte text "<")) as [t1| | |] eqn:Ht1;
    try discriminate; try (now apply slice_from_fuel in Ht1).
  apply slice_from_length in Ht1.
  destruct (len t1 <? 2); [discriminate|].
  destruct (at_index t1 1) as [c| | |]; try discriminate.
  destruct (Ascii.eqb c "/").
  { destruct (parseEndTag _ t1) as [[[|] t2]| | |] eqn:Hend; try discriminate.
    now apply parseEndTag_fuel in Hend. }
  destruct (Ascii.eqb c "!").
  { destruct (parseDecl t1) as [[node t2]| | |] eqn:Hdecl; try discriminate.
    - apply parseDecl_length in Hdecl. apply IH. lia.
    - now apply parseDecl_fuel in Hdecl. }
  destruct (parseStartTag t1) as [[[node sc] t2]| | |] eqn:Hstart; try discriminate.
  2: now apply parseStartTag_fuel in Hstart.
  apply parseStartTag_length in Hstart.
  destruct sc.
  { apply IH. lia. }
  assert (Hnormal :
    snd (let '(node0, r) := parse fuel node false t2 in
         match r with
         | Ok t3 => parse fuel (AppendChild (textNode parent pre) node0) root t3
         | _ => (AppendChild (textNode parent pre) node0, r)
         end) <> OutOfFuel).
  { destruct (parse fuel node false t2) as [node' r] eqn:Hbody.
    assert (Hr : r <> OutOfFuel).
    { change r with (snd (node', r)). rewrite <- Hbody. apply IH. lia. }
    destruct r; try discriminate; try congruence.
    apply parse_length in Hbody. apply IH. lia. }
  assert (Hraw : forall esc,
    snd (let '(node0, r) := parseRaw fuel node esc t2 in
         match r with
         | Ok t3 => parse fuel (AppendChild (textNode parent pre) node0) root t3
         | _ => (AppendChild (textNode parent pre) node0, r)
         end) <> OutOfFuel).
  { intros esc. unfold parseRaw.
    destruct (parseRaw_loop fuel node esc t2 []) as [node' r] eqn:Hbody.
    assert (Hr : r <> OutOfFuel).
    { change r with (snd (node', r)). rewrite <- Hbody.
      apply parseRaw_loop_fuel. lia. }
    destruct r; try discriminate; try congruence.
    apply parseRaw_loop_length in Hbody. apply IH. lia. }
  destruct (categorize (DataAtom node)); try exact Hnormal; try apply Hraw.
  apply IH. lia.
Qed.

(** [Parse] always comes to an end: it returns, with or without an error,
    or it panics. *)
Lemma parse_total (parent : Node) (text : bytes) :
  snd (Parse parent text) <> OutOfFuel.
Proof.
  unfold Parse. apply parse_fuel. unfold len. lia.
Qed.

End LoopFacts.

(** ** One iteration of the loops *)

Lemma len_cons2 (a b : ascii) (t : bytes) : (len (a :: b :: t) <? 2) = false.
Proof. apply Z.ltb_ge. unfold len. simpl List.length. lia. Qed.

Lemma at_index_1 (a b : ascii) (t : bytes) : at_index (a :: b :: t) 1 = Ok b.
Proof.
  unfold at_index.
  replace ((0 <=? 1) && (1 <? len (a :: b :: t))) with true; [reflexivity|].
  symmetry. apply andb_true_iff. split; [reflexivity|].
  apply Z.ltb_lt. unfold len. simpl List.length. lia.
Qed.

Lemma slice_2 (a b : ascii) (t : bytes) :
  slice_to (a :: b :: t) 2 = Ok [a; b] /\ slice_from (a :: b :: t) 2 = Ok t.
Proof.
  unfold slice_to, slice_from.
  replace ((0 <=? 2) && (2 <=? len (a :: b :: t))) with true; [split; reflexivity|].
  symmetry. apply andb_true_iff. split; [reflexivity|].
  apply Z.leb_le. unfold len. simpl List.length. lia.
Qed.

Lemma slice_1 (a : ascii) (t : bytes) : slice_from (a :: t) 1 = Ok t.
Proof.
  unfold slice_from.
  replace ((0 <=? 1) && (1 <=? len (a :: t))) with true; [reflexivity|].
  symmetry. apply andb_true_iff. split; [reflexivity|].
  apply Z.leb_le. unfold len. simpl List.length. lia.
Qed.

Section StepFacts.
Context {E : Env}.

Lemma IndexByte_first (c : ascii) (pre r : bytes) :
  lacks c pre = true -> IndexByte (pre ++ c :: r) c = len pre.
Proof.
  intros H. unfold IndexByte. apply IndexFunc_first; [exact H|].
  apply Ascii.eqb_refl.
Qed.

Lemma IndexByte_lacks (c : ascii) (s : bytes) :
  lacks c s = true -> (IndexByte s c <? 0) = true.
Proof. intros H. unfold IndexByte. now apply IndexFunc_neg. Qed.

(** The head of every iteration: the text before the next [<] becomes a
    text child and the cursor moves to the [<]. *)
Lemma find_lt (pre : bytes) (r : bytes) :
  lacks "<" pre = true ->
  (IndexByte (pre ++ "<"%char :: r) "<" <? 0) = false /\
  slice_to (pre ++ "<"%char :: r) (IndexByte (pre ++ "<"%char :: r) "<") = Ok pre /\
  slice_from (pre ++ "<"%char :: r) (IndexByte (pre ++ "<"%char :: r) "<")
    = Ok ("<"%char :: r).
Proof.
  intros H. rewrite (IndexByte_first _ _ _ H), slice_to_app, slice_from_app.
  repeat split. apply Z.ltb_ge. apply len_nonneg.
Qed.

Lemma parse_step_end (fuel : nat) (parent : Node) (root : bool) (text : bytes) :
  lacks "<" text = true ->
  parse (S fuel) parent root text =
    if root then (textNode parent text, Ok text)
    else (parent, Err (Unclosed (Data parent))).
Proof.
  intros H. simpl. rewrite (IndexByte_lacks _ _ H). now destruct root.
Qed.

Lemma parse_step_close (fuel : nat) (parent : Node) (root : bool) (pre t : bytes) :
  lacks "<" pre = true ->
  parse (S fuel) parent root (pre ++ "<"%char :: "/"%char :: t) =
    let parent := textNode parent pre in
    match parseEndTag (if root then None else Some parent)
                      ("<"%char :: "/"%char :: t) with
    | Ok (true, text) => (parent, Ok text)
    | Ok (false, _) => (parent, Err (Unclosed (Data parent)))
    | Err e => (parent, Err e)
    | Panic => (parent, Panic)
    | OutOfFuel => (parent, OutOfFuel)
    end.
Proof.
  intros H. destruct (find_lt pre ("/"%char :: t) H) as (H1 & H2 & H3).
  cbn [parse]. rewrite H1, H2, H3, len_cons2, at_index_1. reflexivity.
Qed.

Lemma parse_step_decl (fuel : nat) (parent : Node) (root : bool) (pre t : bytes) :
  lacks "<" pre = true ->
  parse (S fuel) parent root (pre ++ "<"%char :: "!"%char :: t) =
    let parent := textNode parent pre in
    match parseDecl ("<"%char :: "!"%char :: t) with
    | Ok (node, text) => parse fuel (AppendChild parent node) root text
    | Err e => (parent, Err e)
    | Panic => (parent, Panic)
    | OutOfFuel => (parent, OutOfFuel)
    end.
Proof.
  intros H. destruct (find_lt pre ("!"%char :: t) H) as (H1 & H2 & H3).
  cbn [parse]. rewrite H1, H2, H3, len_cons2, at_index_1. reflexivity.
Qed.

Lemma parse_step_open (fuel : nat) (parent : Node) (root : bool)
  (pre : bytes) (c : ascii) (t : bytes) :
  lacks "<" pre = true -> c <> "/"%char -> c <> "!"%char ->
  parse (S fuel) parent root (pre ++ "<"%char :: c :: t) =
    let parent := textNode parent pre in
    match parseStartTag ("<"%char :: c :: t) with
    | Ok (node, selfClosing, text) =>
        if selfClosing then parse fuel (AppendChild parent node) root text
        else
          after_body fuel parent root
            match categorize (DataAtom node) with
            | catVoid => (node, Ok text)
            | catRaw => parseRaw fuel node false text
            | catEscapableRaw => parseRaw fuel node true text
            | catNormal | catTemplate | catForeign => parse fuel node false text
            end
    | Err e => (parent, Err e)
    | Panic => (parent, Panic)
    | OutOfFuel => (parent, OutOfFuel)
    end.
Proof.
  intros H Hs Hb. destruct (find_lt pre (c :: t) H) as (H1 & H2 & H3).
  cbn [parse]. rewrite H1, H2, H3, len_cons2, at_index_1.
  apply Ascii.eqb_neq in Hs, Hb. rewrite Hs, Hb.
  cbv zeta.
  destruct (parseStartTag ("<"%char :: c :: t)) as [[[node sc] t2]| | |]; try reflexivity.
  destruct sc; [reflexivity|].
  unfold after_body.
  destruct (categorize (DataAtom node)); cbn [fst snd];
    try reflexivity;
    match goal with
    | |- context [let '(_, _) := ?b in _] => destruct b as [n' r']
    end; cbn [fst snd]; destruct r'; reflexivity.
Qed.

Lemma parseRaw_step_end (fuel : nat) (parent : Node) (escapable : bool)
  (text buf : bytes) :
  lacks "<" text = true ->
  parseRaw_loop (S fuel) parent escapable text buf
    = (parent, Err (Unclosed (Data parent))).
Proof. intros H. simpl. now rewrite (IndexByte_lacks _ _ H). Qed.

Lemma parseRaw_step_close (fuel : nat) (parent : Node) (escapable : bool)
  (pre t buf : bytes) :
  lacks "<" pre = true ->
  parseRaw_loop (S fuel) parent escapable (pre ++ "<"%char :: "/"%char :: t) buf =
    match parseEndTag (Some parent) ("<"%char :: "/"%char :: t) with
    | Ok (true, text) => (rawText parent escapable (buf ++ pre), Ok text)
    | Ok (false, _) =>
        parseRaw_loop fuel parent escapable t ((buf ++ pre) ++ ["<"%char; "/"%char])
    | Err e => (parent, Err e)
    | Panic => (parent, Panic)
    | OutOfFuel => (parent, OutOfFuel)
    end.
Proof.
  intros H. destruct (find_lt pre ("/"%char :: t) H) as (H1 & H2 & H3).
  cbn [parseRaw_loop]. rewrite H1, H2, H3, len_cons2, at_index_1.
  destruct (slice_2 "<" "/" t) as [-> ->]. reflexivity.
Qed.

Lemma parseRaw_step_other (fuel : nat) (parent : Node) (escapable : bool)
  (pre : bytes) (c : ascii) (t buf : bytes) :
  lacks "<" pre = true -> c <> "/"%char ->
  parseRaw_loop (S fuel) parent escapable (pre ++ "<"%char :: c :: t) buf =
    parseRaw_loop fuel parent escapable t ((buf ++ pre) ++ ["<"%char; c]).
Proof.
  intros H Hc. destruct (find_lt pre (c :: t) H) as (H1 & H2 & H3).
  cbn [parseRaw_loop]. rewrite H1, H2, H3, len_cons2, at_index_1.
  destruct (slice_2 "<" c t) as [-> ->].
  apply Ascii.eqb_neq in Hc. now rewrite Hc.
Qed.

(** ** What the tag scanners return *)

Lemma end_mismatch_matches (parent : Node) (elemS : bytes) (elemA : Atom) :
  end_mismatch (Some parent) elemS elemA = negb (tag_matches parent elemS elemA).
Proof.
  unfold end_mismatch, tag_matches.
  destruct (N.eqb_spec elemA 0) as [->|Hz]; simpl.
  - destruct (N.eqb_spec (DataAtom parent) 0) as [->|Hp]; simpl.
    + reflexivity.
    + destruct (DataAtom parent); [congruence | reflexivity].
  - now rewrite orb_false_r.
Qed.

Lemma parseEndTag_scan (start : option Node) (text : bytes)
  (elemS : bytes) (elemA : Atom) (rest : bytes) :
  nextIdent text = Ok (elemS, elemA, rest) -> elemS <> [] ->
  parseEndTag start ("<"%char :: "/"%char :: text) =
    if end_mismatch start elemS elemA then Ok (false, rest)
    else
      c <- at_index (skipSpace rest) 0 ;;
      if negb (Ascii.eqb c ">") then Err (UnexpectedInClosingNamed c elemS)
      else t <- slice_from (skipSpace rest) 1 ;; Ok (true, t).
Proof.
  intros Hid Hne. unfold parseEndTag.
  destruct (slice_2 "<" "/" text) as [_ ->]. cbn [bind].
  rewrite Hid. cbn [bind]. now rewrite (bytes_eqb_neq _ _ Hne).
Qed.

End StepFacts.

(** ** Scanning a tag name up to its end *)

Section NameFacts.
Context {E : Env}.

Lemma ident_run_head (c : ascii) (run : bytes) :
  ident_run (c :: run) = true ->
  whitespaceF c = false /\ c <> "/"%char /\ ident_run run = true.
Proof.
  unfold ident_run. simpl. intros H. apply andb_true_iff in H.
  destruct H as [Hc Hrun]. apply negb_true_iff in Hc.
  repeat split; [| |exact Hrun].
  - destruct (whitespaceF c) eqn:Hw; [|reflexivity].
    now rewrite (whitespace_identInvalid _ Hw) in Hc.
  - intros ->. discriminate.
Qed.

Lemma skipSpace_ident_run (run r : bytes) :
  ident_run run = true -> nonempty run = true ->
  skipSpace (run ++ r) = run ++ r.
Proof.
  destruct run as [|c run]; [discriminate|]. intros H _.
  apply ident_run_head in H. destruct H as (Hw & _). simpl. now rewrite Hw.
Qed.

Lemma nextIdent_before_gt (run ws rest : bytes) :
  ident_run run = true -> forallb whitespaceF ws = true ->
  nextIdent (run ++ ws ++ ">"%char :: rest) =
    if nonempty run
    then Ok (ident_name run, Lookup (asciiLower run), ws ++ ">"%char :: rest)
    else Ok ([], 0%N, ws ++ ">"%char :: rest).
Proof.
  intros Hrun Hws. destruct ws as [|w ws]; simpl app.
  - now apply nextIdent_scan.
  - simpl in Hws. apply andb_true_iff in Hws. destruct Hws as [Hw _].
    apply nextIdent_scan; [exact Hrun|]. now apply whitespace_identInvalid.
Qed.

Lemma skipSpace_before_gt (ws rest : bytes) :
  forallb whitespaceF ws = true ->
  skipSpace (ws ++ ">"%char :: rest) = ">"%char :: rest.
Proof. intros H. now rewrite (skipSpace_app _ _ H). Qed.

Lemma parseEndTag_name (start : option Node) (run ws rest : bytes) :
  ident_run run = true -> nonempty run = true -> ident_name run <> [] ->
  forallb whitespaceF ws = true ->
  parseEndTag start ("<"%char :: "/"%char :: run ++ ws ++ ">"%char :: rest) =
    if end_mismatch start (ident_name run) (Lookup (asciiLower run))
    then Ok (false, ws ++ ">"%char :: rest)
    else Ok (true, rest).
Proof.
  intros Hrun Hne Hname Hws.
  rewrite (parseEndTag_scan start _ (ident_name run) (Lookup (asciiLower run))
             (ws ++ ">"%char :: rest)); [|now rewrite nextIdent_before_gt, Hne|exact Hname].
  rewrite (skipSpace_before_gt _ _ Hws), at_index_cons. cbn [bind].
  now rewrite slice_1.
Qed.

Lemma parseStartTag_name (run : bytes) (slash : bool) (rest : bytes) :
  ident_run run = true -> nonempty run = true -> ident_name run <> [] ->
  parseStartTag ("<"%char :: run ++ (if slash then ["/"%char] else []) ++ ">"%char :: rest)
    = Ok (element run, slash, rest).
Proof.
  intros Hrun Hne Hname. unfold parseStartTag.
  rewrite slice_1. cbn [bind].
  rewrite (skipSpace_ident_run _ _ Hrun Hne).
  assert (Hid : nextIdent (run ++ (if slash then ["/"%char] else []) ++ ">"%char :: rest)
                = Ok (ident_name run, Lookup (asciiLower run),
                      (if slash then ["/"%char] else []) ++ ">"%char :: rest)).
  { destruct slash; simpl app.
    - rewrite (nextIdent_scan run "/" (">"%char :: rest) Hrun eq_refl). now rewrite Hne.
    - rewrite (nextIdent_scan run ">" rest Hrun eq_refl). now rewrite Hne. }
  rewrite Hid. cbn [bind]. rewrite (bytes_eqb_neq _ _ Hname).
  destruct slash; simpl app.
  - rewrite (skipSpace_stop "/" _ eq_refl). cbn [parseAttrs].
    rewrite at_index_cons. cbn [bind Ascii.eqb Bool.eqb negb andb].
    rewrite at_index_cons. cbn [bind Ascii.eqb Bool.eqb negb andb].
    rewrite slice_1. cbn [bind]. rewrite (skipSpace_stop ">" _ eq_refl).
    rewrite at_index_cons. cbn [bind Ascii.eqb Bool.eqb negb andb].
    now rewrite slice_1.
  - rewrite (skipSpace_stop ">" _ eq_refl). cbn [parseAttrs].
    rewrite at_index_cons. cbn [bind Ascii.eqb Bool.eqb negb andb].
    rewrite at_index_cons. cbn [bind Ascii.eqb Bool.eqb negb andb].
    now rewrite slice_1.
Qed.

End NameFacts.

(** ** The tree only grows *)

Section GrowFacts.
Context {E : Env}.

Lemma add_children_nil (parent : Node) : add_children parent [] = parent.
Proof. destruct parent. unfold add_children. simpl. now rewrite app_nil_r. Qed.

Lemma add_children_app (parent : Node) (l1 l2 : list Node) :
  add_children (add_children parent l1) l2 = add_children parent (l1 ++ l2).
Proof. unfold add_children. simpl. now rewrite app_assoc. Qed.

Lemma AppendChild_add (parent c : Node) : AppendChild parent c = add_children parent [c].
Proof. reflexivity. Qed.

Lemma textNode_add (parent : Node) (text : bytes) :
  exists l, textNode parent text = add_children parent l.
Proof.
  unfold textNode. destruct (0 <? len text).
  - eexists. apply AppendChild_add.
  - exists []. now rewrite add_children_nil.
Qed.

Lemma rawText_add (parent : Node) (escapable : bool) (buf : bytes) :
  exists l, rawText parent escapable buf = add_children parent l.
Proof.
  unfold rawText. destruct escapable; [apply textNode_add|].
  destruct (0 <? len buf).
  - eexists. apply AppendChild_add.
  - exists []. now rewrite add_children_nil.
Qed.

(** [parse] appends to the children of its parent and changes nothing
    else: a child, once appended, stays as it is. *)
Lemma parse_appends (fuel : nat) (parent : Node) (root : bool) (text : bytes) :
  exists l, fst (parse fuel parent root text) = add_children parent l.
Proof.
  revert parent root text. induction fuel as [|fuel IH]; intros parent root text.
  { exists []. simpl. now rewrite add_children_nil. }
  simpl.
  destruct (IndexByte text "<" <? 0).
  { destruct (negb root); simpl; [exists []; now rewrite add_children_nil|].
    apply textNode_add. }
  destruct (slice_to text (IndexByte text "<")) as [pre| | |];
    try (exists []; now rewrite add_children_nil).
  destruct (slice_from text (IndexByte text "<")) as [t1| | |];
    try (exists []; now rewrite add_children_nil).
  destruct (textNode_add parent pre) as [l0 Hl0]. rewrite Hl0.
  assert (Hhere : forall r : result bytes,
    exists l, fst (add_children parent l0, r) = add_children parent l)
    by (intros r; now exists l0).
  assert (Hnext : forall node t,
    exists l, fst (parse fuel (AppendChild (add_children parent l0) node) root t)
              = add_children parent l).
  { intros node t. destruct (IH (AppendChild (add_children parent l0) node) root t) as [l Hl].
    rewrite Hl, AppendChild_add, !add_children_app. now eexists. }
  assert (Hstop : forall node (r : result bytes),
    exists l, fst (AppendChild (add_children parent l0) node, r) = add_children parent l).
  { intros node r. simpl. rewrite AppendChild_add, add_children_app. now eexists. }
  destruct (len t1 <? 2); [apply Hhere|].
  destruct (at_index t1 1) as [c| | |]; try apply Hhere.
  destruct (Ascii.eqb c "/").
  { destruct (parseEndTag _ t1) as [[[|] t2]| | |]; apply Hhere. }
  destruct (Ascii.eqb c "!").
  { destruct (parseDecl t1) as [[node t2]| | |]; try apply Hhere. apply Hnext. }
  destruct (parseStartTag t1) as [[[node sc] t2]| | |]; try apply Hhere.
  destruct sc; [apply Hnext|].
  destruct (categorize (DataAtom node)).
  - apply Hnext.
  - destruct (parse fuel node false t2) as [n' [t3| | |]]; try apply Hstop; apply Hnext.
  - destruct (parseRaw fuel node false t2) as [n' [t3| | |]]; try apply Hstop; apply Hnext.
  - destruct (parseRaw fuel node true t2) as [n' [t3| | |]]; try apply Hstop; apply Hnext.
  - destruct (parse fuel node false t2) as [n' [t3| | |]]; try apply Hstop; apply Hnext.
  - destruct (parse fuel node false t2) as [n' [t3| | |]]; try apply Hstop; apply Hnext.
Qed.

End GrowFacts.

(** ** Truncated input (C1) *)

(** C1 (the code departs from the claim).  The claim: when the buffer ends
    where a tag, a comment or an attribute value was expected to continue,
    [Parse] returns an error through its error result, in particular on the
    input [<a].  The code: only the two shortest truncations ([<] and [<!]
    as the last bytes) are reported as errors; when the input ends inside a
    tag name, inside a comment or inside a quoted attribute value, an index
    function returns [-1], the slice expression that follows is out of
    range and [Parse] panics instead of returning. *)
Theorem C1_truncated_input_panics (E : Env) (parent : Node) :
  Parse parent (B "<a") = (parent, Panic) /\
  Parse parent (B "<!--") = (parent, Panic) /\
  Parse parent (B "<!-- no end") = (parent, Panic) /\
  snd (@Parse Sample.env Sample.doc (B "<a href='x")) = Panic /\
  Parse parent (B "<") = (parent, Err EOFInOpeningTag) /\
  Parse parent (B "<!") = (parent, Err EOFInCommentTag).
Proof. repeat split; vm_compute; destruct parent; reflexivity. Qed.

(** ** Unclosed elements (C3) *)

Section UnclosedFacts.
Context {E : Env}.

(** The body parser the category of [a] selects, for an element that is
    not void. *)
Lemma body_unclosed (fuel : nat) (node : Node) (body : bytes) :
  lacks "<" body = true ->
  categorize (DataAtom node) <> catVoid ->
  match categorize (DataAtom node) with
  | catVoid => (node, Ok body)
  | catRaw => parseRaw (S fuel) node false body
  | catEscapableRaw => parseRaw (S fuel) node true body
  | catNormal | catTemplate | catForeign => parse (S fuel) node false body
  end = (node, Err (Unclosed (Data node))).
Proof.
  intros Hbody Hcat. unfold parseRaw.
  destruct (categorize (DataAtom node)); try congruence;
    try (now rewrite parseRaw_step_end); now rewrite parse_step_end.
Qed.

Lemma Parse_open_element (parent : Node) (run body : bytes) :
  ident_run run = true -> nonempty run = true -> hd "a"%char run <> "!"%char ->
  ident_name run <> [] ->
  categorize (Lookup (asciiLower run)) <> catVoid ->
  lacks "<" body = true ->
  Parse parent (B "<" ++ run ++ B ">" ++ body)
    = (AppendChild parent (element run), Err (Unclosed (ident_name run))).
Proof.
  intros Hrun Hne Hbang Hname Hcat Hbody. unfold Parse.
  destruct run as [|c run]; [discriminate|].
  apply ident_run_head in Hrun as Hhead. destruct Hhead as (_ & Hslash & _).
  change (B "<" ++ (c :: run) ++ B ">" ++ body)
    with ([] ++ "<"%char :: c :: (run ++ ">"%char :: body)).
  rewrite (parse_step_open _ parent true [] c _ eq_refl Hslash Hbang).
  change ("<"%char :: c :: run ++ ">"%char :: body)
    with ("<"%char :: (c :: run) ++ (if false then ["/"%char] else []) ++ ">"%char :: body).
  rewrite (parseStartTag_name _ false _ Hrun Hne Hname).
  cbv zeta. cbn [textNode len List.length Z.of_nat Z.ltb Z.compare].
  simpl List.length.
  rewrite (body_unclosed _ (element (c :: run)) body Hbody Hcat).
  reflexivity.
Qed.

End UnclosedFacts.

(** C3.  When the input runs out while an element is open, the error is
    "unclosed element" with the name of that element: in tag mode below
    the root when no further [<] is left, in raw-text mode when no further
    [<] is left, and so for the whole [Parse] of an input that opens an
    element which is not void and ends in its body; a failure of a body is
    the failure of the enclosing call.  Only at the root does the end of
    the input end the parse quietly, the remaining bytes becoming text. *)
Theorem C3_unclosed_element (E : Env) (fuel : nat) (parent : Node) (text : bytes) :
  lacks "<" text = true ->
  parse (S fuel) parent false text = (parent, Err (Unclosed (Data parent))) /\
  (forall escapable buf,
     parseRaw_loop (S fuel) parent escapable text buf
       = (parent, Err (Unclosed (Data parent)))) /\
  parse (S fuel) parent true text = (textNode parent text, Ok text) /\
  (forall run,
     ident_run run = true -> nonempty run = true -> hd "a"%char run <> "!"%char ->
     ident_name run <> [] -> categorize (Lookup (asciiLower run)) <> catVoid ->
     Parse parent (B "<" ++ run ++ B ">" ++ text)
       = (AppendChild parent (element run), Err (Unclosed (ident_name run)))) /\
  (forall (root : bool) (node : Node) (e : error),
     after_body fuel parent root (node, Err e) = (AppendChild parent node, Err e)).
Proof.
  intros H. repeat split.
  - now rewrite parse_step_end.
  - intros. now apply parseRaw_step_end.
  - now rewrite parse_step_end.
  - intros. now apply Parse_open_element.
Qed.

Lemma C3_unclosed_element_witness :
  lacks "<" (B "foo") = true /\
  @parse Sample.env 1 (@element Sample.env (B "a")) false (B "foo")
    = (@element Sample.env (B "a"), Err (Unclosed (B "a"))) /\
  @Parse Sample.env Sample.doc (B "<" ++ B "script" ++ B ">" ++ B "foo")
    = (AppendChild Sample.doc (@element Sample.env (B "script")),
       Err (Unclosed (B "script"))).
Proof.
  assert (H : lacks "<" (B "foo") = true) by reflexivity.
  pose proof (C3_unclosed_element Sample.env 0 (@element Sample.env (B "a")) _ H)
    as (Htag & _).
  pose proof (C3_unclosed_element Sample.env 0 Sample.doc _ H)
    as (_ & _ & _ & Hparse & _).
  refine (conj H (conj Htag _)).
  apply (Hparse (B "script")); try reflexivity; discriminate.
Defined.

(** ** Closing tags in tag mode (C4) *)

Section CloseFacts.
Context {E : Env}.

Lemma textNode_fields (parent : Node) (text : bytes) :
  Data (textNode parent text) = Data parent /\
  DataAtom (textNode parent text) = DataAtom parent.
Proof. unfold textNode. destruct (0 <? len text); split; reflexivity. Qed.

Lemma tag_matches_textNode (parent : Node) (text elemS : bytes) (elemA : Atom) :
  tag_matches (textNode parent text) elemS elemA = tag_matches parent elemS elemA.
Proof.
  unfold tag_matches. destruct (textNode_fields parent text) as [-> ->]. reflexivity.
Qed.

(** Without an element to close, [parseEndTag] never reports a match. *)
Lemma parseEndTag_nil (text rest : bytes) :
  parseEndTag None text <> Ok (true, rest).
Proof.
  unfold parseEndTag. intros H.
  ok_step H as t Ht. ok_step H as id Hid. destruct id as [[elemS elemA] r].
  destruct (bytes_eqb elemS []).
  - ok_step H as c Hc. discriminate.
  - simpl in H. discriminate.
Qed.

Lemma parse_root_close (fuel : nat) (parent : Node) (pre t : bytes) :
  lacks "<" pre = true ->
  is_ok (snd (parse (S fuel) parent true (pre ++ B "</" ++ t))) = false.
Proof.
  intros Hpre. change (B "</" ++ t) with ("<"%char :: "/"%char :: t).
  rewrite (parse_step_close _ _ _ _ _ Hpre). cbv zeta.
  destruct (parseEndTag None _) as [[[|] t2]| | |] eqn:H; try reflexivity.
  now apply parseEndTag_nil in H.
Qed.

End CloseFacts.

(** C4.  In tag mode a closing tag [</name>] ends the invocation exactly
    when its name matches the open element: the identity of the folded
    name equals the element's identity and, when both are the identity of
    no known tag, the folded spelling equals the element's name.  Any other
    closing tag is the fatal error that names the open element.  At the
    document root no closing tag is accepted: the well-formed ones are that
    same error and no input that continues with [</] lets the root
    invocation succeed. *)
Theorem C4_close_tag_matching (E : Env) (fuel : nat) (parent : Node)
  (pre run ws rest : bytes) :
  lacks "<" pre = true ->
  ident_run run = true -> nonempty run = true -> ident_name run <> [] ->
  forallb whitespaceF ws = true ->
  let text := pre ++ B "</" ++ run ++ ws ++ B ">" ++ rest in
  parse (S fuel) parent false text
    = (textNode parent pre,
       if tag_matches parent (ident_name run) (Lookup (asciiLower run))
       then Ok rest else Err (Unclosed (Data parent))) /\
  (is_ok (snd (parse (S fuel) parent false text)) = true <->
   tag_matches parent (ident_name run) (Lookup (asciiLower run)) = true) /\
  parse (S fuel) parent true text
    = (textNode parent pre, Err (Unclosed (Data parent))) /\
  (forall t, is_ok (snd (parse (S fuel) parent true (pre ++ B "</" ++ t))) = false).
Proof.
  intros Hpre Hrun Hne Hname Hws text.
  assert (Hfalse : parse (S fuel) parent false text
    = (textNode parent pre,
       if tag_matches parent (ident_name run) (Lookup (asciiLower run))
       then Ok rest else Err (Unclosed (Data parent)))).
  { subst text.
    change (B "</" ++ run ++ ws ++ B ">" ++ rest)
      with ("<"%char :: "/"%char :: run ++ ws ++ ">"%char :: rest).
    rewrite (parse_step_close _ _ _ _ _ Hpre). cbv zeta.
    rewrite (parseEndTag_name _ _ _ _ Hrun Hne Hname Hws).
    rewrite end_mismatch_matches, tag_matches_textNode.
    destruct (textNode_fields parent pre) as [-> _].
    now destruct (tag_matches parent _ _). }
  split; [exact Hfalse|]. split; [|split].
  - rewrite Hfalse. cbn [snd].
    destruct (tag_matches parent _ _); simpl; split; congruence.
  - subst text.
    change (B "</" ++ run ++ ws ++ B ">" ++ rest)
      with ("<"%char :: "/"%char :: run ++ ws ++ ">"%char :: rest).
    rewrite (parse_step_close _ _ _ _ _ Hpre). cbv zeta.
    rewrite (parseEndTag_name _ _ _ _ Hrun Hne Hname Hws).
    cbn [end_mismatch]. destruct (textNode_fields parent pre) as [-> _]. reflexivity.
  - intros t. now apply parse_root_close.
Qed.

Lemma C4_close_tag_matching_witness :
  let parent := @element Sample.env (B "div") in
  lacks "<" (B "x") = true /\ ident_run (B "DiV") = true /\
  nonempty (B "DiV") = true /\ @ident_name Sample.env (B "DiV") <> [] /\
  forallb whitespaceF (B " ") = true /\
  @parse Sample.env 1 parent false (B "x" ++ B "</" ++ B "DiV" ++ B " " ++ B ">" ++ B "y")
    = (@textNode Sample.env parent (B "x"), Ok (B "y")) /\
  @parse Sample.env 1 parent true (B "x" ++ B "</" ++ B "DiV" ++ B " " ++ B ">" ++ B "y")
    = (@textNode Sample.env parent (B "x"), Err (Unclosed (B "div"))).
Proof.
  assert (H1 : lacks "<" (B "x") = true) by reflexivity.
  assert (H2 : ident_run (B "DiV") = true) by reflexivity.
  assert (H3 : nonempty (B "DiV") = true) by reflexivity.
  assert (H4 : @ident_name Sample.env (B "DiV") <> []) by discriminate.
  assert (H5 : forallb whitespaceF (B " ") = true) by reflexivity.
  pose proof (C4_close_tag_matching Sample.env 0 (@element Sample.env (B "div"))
                (B "x") (B "DiV") (B " ") (B "y") H1 H2 H3 H4 H5) as (Ha & _ & Hb & _).
  exact (conj H1 (conj H2 (conj H3 (conj H4 (conj H5 (conj Ha Hb)))))).
Defined.

(** ** Self-closing and void elements have no body (C5) *)

(** C5.  After a start tag that is self-closing (whatever its tag: every
    name followed by [/>] yields a self-closing element) or whose category
    is void, the builder parses no body: the iteration that follows is the
    parent's own loop on the bytes after the tag, the element was appended
    without children, and it is still a childless child of the parent when
    the parent's loop has ended. *)
Theorem C5_no_body (E : Env) (fuel : nat) (parent : Node) (root : bool)
  (pre : bytes) (c : ascii) (t : bytes)
  (node : Node) (selfClosing : bool) (rest : bytes) :
  lacks "<" pre = true -> c <> "/"%char -> c <> "!"%char ->
  parseStartTag ("<"%char :: c :: t) = Ok (node, selfClosing, rest) ->
  selfClosing = true \/ categorize (DataAtom node) = catVoid ->
  Children node = [] /\
  parse (S fuel) parent root (pre ++ "<"%char :: c :: t)
    = parse fuel (AppendChild (textNode parent pre) node) root rest /\
  (exists later,
     fst (parse (S fuel) parent root (pre ++ "<"%char :: c :: t))
       = add_children (textNode parent pre) (node :: later)) /\
  (forall run after,
     ident_run run = true -> nonempty run = true -> ident_name run <> [] ->
     parseStartTag (B "<" ++ run ++ B "/>" ++ after) = Ok (element run, true, after)).
Proof.
  intros Hpre Hslash Hbang Hstart Hcase.
  assert (Hstep : parse (S fuel) parent root (pre ++ "<"%char :: c :: t)
                  = parse fuel (AppendChild (textNode parent pre) node) root rest).
  { rewrite (parse_step_open _ _ _ _ _ _ Hpre Hslash Hbang). cbv zeta.
    rewrite Hstart. destruct selfClosing; [reflexivity|].
    destruct Hcase as [|Hvoid]; [discriminate|]. now rewrite Hvoid. }
  split; [now apply parseStartTag_node in Hstart|]. split; [exact Hstep|]. split.
  - rewrite Hstep.
    destruct (parse_appends fuel (AppendChild (textNode parent pre) node) root rest)
      as [later ->].
    exists later. now rewrite AppendChild_add, add_children_app.
  - intros run after Hrun Hne Hname.
    exact (parseStartTag_name run true after Hrun Hne Hname).
Qed.

Lemma C5_no_body_witness :
  let node := @element Sample.env (B "div") in
  lacks "<" (B "x") = true /\ "d"%char <> "/"%char /\ "d"%char <> "!"%char /\
  @parseStartTag Sample.env (B "<div/>y") = Ok (node, true, B "y") /\
  @parse Sample.env 2 Sample.doc true (B "x" ++ B "<div/>y")
    = @parse Sample.env 1 (AppendChild (@textNode Sample.env Sample.doc (B "x")) node)
        true (B "y").
Proof.
  assert (H1 : lacks "<" (B "x") = true) by reflexivity.
  assert (H2 : "d"%char <> "/"%char) by discriminate.
  assert (H3 : "d"%char <> "!"%char) by discriminate.
  assert (H4 : @parseStartTag Sample.env (B "<div/>y")
               = Ok (@element Sample.env (B "div"), true, B "y")) by reflexivity.
  pose proof (C5_no_body Sample.env 1 Sample.doc true (B "x") "d" (B "iv/>y")
                _ _ _ H1 H2 H3 H4 (or_introl eq_refl)) as (_ & Hb & _).
  exact (conj H1 (conj H2 (conj H3 (conj H4 Hb)))).
Defined.

(** ** The classifier (C8) *)

Lemma case_of_In (a : Atom) (l : list Atom) : case_of a l = true <-> In a l.
Proof.
  unfold case_of. rewrite existsb_exists. split.
  - intros (x & Hx & Heq). apply N.eqb_eq in Heq. now subst.
  - intros H. exists a. split; [exact H|apply N.eqb_refl].
Qed.

Lemma case_of_not_In (a : Atom) (l : list Atom) : ~ In a l -> case_of a l = false.
Proof.
  intros H. destruct (case_of a l) eqn:Hc; [|reflexivity].
  now apply case_of_In in Hc.
Qed.

Lemma NoDup_app_disjoint {A : Type} (l1 l2 : list A) (a : A) :
  NoDup (l1 ++ l2) -> In a l2 -> ~ In a l1.
Proof.
  induction l1 as [|x l1 IH]; simpl; [tauto|].
  intros Hnd Ha [->|Hin].
  - apply NoDup_cons_iff in Hnd. destruct Hnd as [Hx _].
    apply Hx, in_or_app. now right.
  - apply NoDup_cons_iff in Hnd. destruct Hnd as [_ Hnd]. now apply (IH Hnd Ha).
Qed.

Section ClassifierFacts.
Context {E : Env}.

Lemma categorize_void (a : Atom) : In a void_atoms -> categorize a = catVoid.
Proof. intros H. unfold categorize. apply case_of_In in H. now rewrite H. Qed.

Lemma categorize_later (a : Atom) (before after : list Atom) :
  NoDup named_atoms -> named_atoms = (void_atoms ++ before) ++ after ->
  In a after ->
  case_of a void_atoms = false /\ ~ In a before.
Proof.
  intros Hnd Heq Ha. rewrite Heq in Hnd.
  pose proof (NoDup_app_disjoint _ _ a Hnd Ha) as Hnot.
  split.
  - apply case_of_not_In. intros Hin. apply Hnot, in_or_app. now left.
  - intros Hin. apply Hnot, in_or_app. now right.
Qed.

Lemma categorize_template : NoDup named_atoms -> categorize Template = catTemplate.
Proof.
  intros Hnd.
  destruct (categorize_later Template [] [Template; Script; Style; Textarea; Title] Hnd)
    as [Hv _]; [unfold named_atoms; now rewrite app_nil_r|simpl; tauto|].
  unfold categorize. rewrite Hv. unfold case_of. simpl. now rewrite N.eqb_refl.
Qed.

Lemma categorize_raw (a : Atom) :
  NoDup named_atoms -> In a [Script; Style] -> categorize a = catRaw.
Proof.
  intros Hnd Ha.
  destruct (categorize_later a [Template] [Script; Style; Textarea; Title] Hnd)
    as [Hv Ht]; [unfold named_atoms; now rewrite <- app_assoc|simpl in *; tauto|].
  unfold categorize. rewrite Hv, (case_of_not_In _ _ Ht).
  apply case_of_In in Ha. now rewrite Ha.
Qed.

Lemma categorize_escapable (a : Atom) :
  NoDup named_atoms -> In a [Textarea; Title] -> categorize a = catEscapableRaw.
Proof.
  intros Hnd Ha.
  destruct (categorize_later a [Template; Script; Style] [Textarea; Title] Hnd)
    as [Hv Ht]; [unfold named_atoms; now rewrite <- app_assoc|exact Ha|].
  unfold categorize. rewrite Hv.
  rewrite (case_of_not_In a [Template]) by (simpl in *; tauto).
  rewrite (case_of_not_In a [Script; Style]) by (simpl in *; tauto).
  apply case_of_In in Ha. now rewrite Ha.
Qed.

Lemma categorize_normal (a : Atom) : ~ In a named_atoms -> categorize a = catNormal.
Proof.
  intros H. unfold categorize, named_atoms in *.
  rewrite !case_of_not_In; [reflexivity| | | |];
    intros Hin; apply H; apply in_or_app; simpl in *; tauto.
Qed.

Lemma categorize_not_foreign (a : Atom) : categorize a <> catForeign.
Proof.
  unfold categorize.
  repeat match goal with |- context [if ?b then _ else _] => destruct b end;
    discriminate.
Qed.

Lemma parse_step_nested (fuel : nat) (parent : Node) (root : bool)
  (pre : bytes) (c : ascii) (t : bytes) (node : Node) (rest : bytes) :
  lacks "<" pre = true -> c <> "/"%char -> c <> "!"%char ->
  parseStartTag ("<"%char :: c :: t) = Ok (node, false, rest) ->
  In (categorize (DataAtom node)) [catNormal; catTemplate; catForeign] ->
  parse (S fuel) parent root (pre ++ "<"%char :: c :: t)
    = after_body fuel (textNode parent pre) root (parse fuel node false rest).
Proof.
  intros Hpre Hslash Hbang Hstart Hcat.
  rewrite (parse_step_open _ _ _ _ _ _ Hpre Hslash Hbang). cbv zeta.
  rewrite Hstart.
  destruct (categorize (DataAtom node)); simpl in Hcat;
    solve [reflexivity | intuition discriminate].
Qed.

End ClassifierFacts.

(** C8.  [categorize] is a function of the tag identity alone, defined on
    every identity, and it is the fixed table: the fourteen void tags are
    [catVoid], [template] is [catTemplate], [script] and [style] are
    [catRaw], [textarea] and [title] are [catEscapableRaw], every other
    identity, the identity of no known tag included, is [catNormal].  The
    builder parses the body of an element of category normal, template or
    foreign with the same recursive call of [parse].  The atoms of the table
    are distinct constants of the tag table. *)
Theorem C8_categorize_table (E : Env) :
  NoDup named_atoms ->
  Forall (fun a => categorize a = catVoid)
    [Area; Base; Br; Col; Embed; Hr; Img; Input; Link; Meta; Param; Source;
     Track; Wbr] /\
  categorize Template = catTemplate /\
  categorize Script = catRaw /\ categorize Style = catRaw /\
  categorize Textarea = catEscapableRaw /\ categorize Title = catEscapableRaw /\
  (forall a, ~ In a named_atoms -> categorize a = catNormal) /\
  (forall a, exists c, categorize a = c /\
     In c [catVoid; catTemplate; catRaw; catEscapableRaw; catNormal]) /\
  (forall fuel parent root pre c t node rest,
     lacks "<" pre = true -> c <> "/"%char -> c <> "!"%char ->
     parseStartTag ("<"%char :: c :: t) = Ok (node, false, rest) ->
     In (categorize (DataAtom node)) [catNormal; catTemplate; catForeign] ->
     parse (S fuel) parent root (pre ++ "<"%char :: c :: t)
       = after_body fuel (textNode parent pre) root (parse fuel node false rest)).
Proof.
  intros Hnd. repeat split.
  - apply Forall_forall. intros a Ha. now apply categorize_void.
  - now apply categorize_template.
  - apply categorize_raw; simpl; auto.
  - apply categorize_raw; simpl; auto.
  - apply categorize_escapable; simpl; auto.
  - apply categorize_escapable; simpl; auto.
  - intros a. apply categorize_normal.
  - intros a. exists (categorize a). split; [reflexivity|].
    unfold categorize.
    repeat match goal with |- context [if ?b then _ else _] => destruct b end;
      simpl; tauto.
  - intros. now apply parse_step_nested.
Qed.

Lemma Sample_distinct : NoDup (@named_atoms Sample.env).
Proof.
  unfold named_atoms, void_atoms. simpl.
  repeat (apply NoDup_cons; [simpl; intuition discriminate|]). apply NoDup_nil.
Qed.

Lemma C8_categorize_table_witness :
  NoDup (@named_atoms Sample.env) /\
  @categorize Sample.env 16%N = catRaw /\
  @categorize Sample.env 0%N = catNormal.
Proof.
  pose proof (C8_categorize_table Sample.env Sample_distinct)
    as (_ & _ & Hscript & _ & _ & _ & Hnormal & _).
  refine (conj Sample_distinct (conj Hscript (Hnormal 0%N _))).
  simpl. intuition discriminate.
Defined.

(** ** Markup declarations (C7) *)

Lemma HasPrefix_app (sep rest : bytes) : HasPrefix (sep ++ rest) sep = true.
Proof.
  induction sep as [|c sep IH]; simpl; [reflexivity|].
  now rewrite Ascii.eqb_refl, IH.
Qed.

Lemma find_sub_unfold (sep s : bytes) :
  find_sub sep s =
    if HasPrefix s sep then Some O
    else match s with
         | [] => None
         | _ :: s' => option_map S (find_sub sep s')
         end.
Proof. destruct s; reflexivity. Qed.

(** [bytes.Index] finds the first occurrence. *)
Lemma find_sub_first (sep body rest : bytes) :
  (forall i, (i < List.length body)%nat ->
             HasPrefix (skipn i (body ++ sep ++ rest)) sep = false) ->
  find_sub sep (body ++ sep ++ rest) = Some (List.length body).
Proof.
  induction body as [|c body IH]; intros H.
  - simpl app. rewrite find_sub_unfold, HasPrefix_app. reflexivity.
  - pose proof (H O ltac:(simpl; lia)) as H0. simpl in H0.
    change ((c :: body) ++ sep ++ rest) with (c :: body ++ sep ++ rest).
    rewrite find_sub_unfold, H0, IH; [reflexivity|].
    intros i Hi. apply (H (S i)). simpl. lia.
Qed.

Lemma lower_byte_invalid (c : ascii) :
  identInvalidF (lower_byte c) = false -> identInvalidF c = false.
Proof.
  destruct c as [[] [] [] [] [] [] [] []]; vm_compute; congruence.
Qed.

Lemma asciiLower_ident_run (run : bytes) :
  ident_run (asciiLower run) = true -> ident_run run = true.
Proof.
  unfold ident_run, asciiLower. induction run as [|c run IH]; simpl; [reflexivity|].
  intros H. apply andb_true_iff in H. destruct H as [Hc H].
  apply negb_true_iff in Hc. apply lower_byte_invalid in Hc.
  now rewrite Hc, IH.
Qed.

Section DeclFacts.
Context {E : Env}.

Lemma ident_name_spelled (run : bytes) :
  spells_names -> ident_name run = asciiLower run.
Proof.
  intros Hlaw. unfold ident_name.
  destruct (N.eqb_spec (Lookup (asciiLower run)) 0) as [|Hnz]; [reflexivity|].
  now apply Hlaw.
Qed.

Lemma parseDecl_comment (body rest : bytes) :
  (forall i, (i < List.length body)%nat ->
             HasPrefix (skipn i (body ++ B "-->" ++ rest)) (B "-->") = false) ->
  parseDecl (B "<!--" ++ body ++ B "-->" ++ rest) = Ok (leaf CommentNode body, rest).
Proof.
  intros Hfirst. unfold parseDecl.
  change (B "<!--" ++ body ++ B "-->" ++ rest)
    with ("<"%char :: "!"%char :: "-"%char :: "-"%char :: body ++ B "-->" ++ rest).
  destruct (slice_2 "<" "!" ("-"%char :: "-"%char :: body ++ B "-->" ++ rest)) as [_ ->].
  cbn [bind]. rewrite (proj2 (Z.eqb_neq _ 0)) by (unfold len; simpl List.length; lia).
  assert (Hp : HasPrefix ("-"%char :: "-"%char :: body ++ B "-->" ++ rest) (B "--") = true)
    by reflexivity.
  rewrite Hp.
  destruct (slice_2 "-" "-" (body ++ B "-->" ++ rest)) as [_ ->]. cbn [bind].
  unfold Index. rewrite (find_sub_first _ _ _ Hfirst). cbn [index_result].
  change (Z.of_nat (List.length body)) with (len body).
  rewrite slice_to_app. cbn [bind].
  replace (len body + 3) with (len (body ++ B "-->")) by (rewrite len_app; reflexivity).
  rewrite (app_assoc body (B "-->") rest), slice_from_app. reflexivity.
Qed.

Lemma until_gt (body rest : bytes) :
  lacks ">" body = true ->
  slice_to (body ++ ">"%char :: rest) (IndexByte (body ++ ">"%char :: rest) ">")
    = Ok body /\
  slice_from (body ++ ">"%char :: rest) (IndexByte (body ++ ">"%char :: rest) ">" + 1)
    = Ok rest.
Proof.
  intros H. rewrite (IndexByte_first _ _ _ H), slice_to_app. split; [reflexivity|].
  replace (len body + 1) with (len (body ++ [">"%char])) by (rewrite len_app; reflexivity).
  change (body ++ ">"%char :: rest) with (body ++ [">"%char] ++ rest).
  now rewrite app_assoc, slice_from_app.
Qed.

Lemma nextIdent_reaches (body : bytes) (c : ascii) (rest : bytes) :
  identInvalidF c = true ->
  exists id a r, nextIdent (body ++ c :: rest) = Ok (id, a, r).
Proof.
  intros Hc.
  destruct (IndexFunc (body ++ c :: rest) identInvalidF <? 0) eqn:Hlt.
  - apply IndexFunc_neg in Hlt. rewrite forallb_app in Hlt.
    apply andb_true_iff in Hlt. destruct Hlt as [_ Hlt].
    simpl in Hlt. rewrite Hc in Hlt. discriminate.
  - destruct (IndexFunc_nonneg _ _ Hlt) as (run & x & r & Heq & Hx & Hrun & _).
    rewrite Heq, (nextIdent_scan run x r Hrun Hx).
    destruct (nonempty run); eauto.
Qed.

Lemma parseDecl_other (t body rest : bytes) :
  HasPrefix t (B "--") = false ->
  (forall id a r, nextIdent t = Ok (id, a, r) -> id <> B "doctype") ->
  t = body ++ ">"%char :: rest -> lacks ">" body = true ->
  parseDecl (B "<!" ++ t) = Ok (leaf CommentNode body, rest).
Proof.
  intros Hdash Hid Ht Hbody. unfold parseDecl.
  change (B "<!" ++ t) with ("<"%char :: "!"%char :: t).
  destruct (slice_2 "<" "!" t) as [_ ->]. cbn [bind].
  rewrite (proj2 (Z.eqb_neq (len t) 0))
    by (subst t; rewrite len_app; pose proof (len_nonneg body);
        unfold len at 2; simpl List.length; lia).
  rewrite Hdash.
  destruct (nextIdent_reaches body ">" rest eq_refl) as (id & a & r & Hnext).
  rewrite <- Ht in Hnext. rewrite Hnext. cbn [bind].
  rewrite (bytes_eqb_neq _ _ (Hid _ _ _ Hnext)).
  subst t. destruct (until_gt body rest Hbody) as [-> ->]. reflexivity.
Qed.

Lemma parseDecl_doctype (kw : bytes) (c : ascii) (r body rest : bytes) :
  spells_names ->
  asciiLower kw = B "doctype" -> identInvalidF c = true ->
  skipSpace (c :: r) = body ++ ">"%char :: rest -> lacks ">" body = true ->
  parseDecl (B "<!" ++ kw ++ c :: r) = Ok (leaf DoctypeNode body, rest).
Proof.
  intros Hlaw Hkw Hc Hskip Hbody. unfold parseDecl.
  change (B "<!" ++ kw ++ c :: r) with ("<"%char :: "!"%char :: kw ++ c :: r).
  destruct (slice_2 "<" "!" (kw ++ c :: r)) as [_ ->]. cbn [bind].
  assert (Hrun : ident_run kw = true)
    by (apply asciiLower_ident_run; rewrite Hkw; reflexivity).
  destruct kw as [|k kw]; [discriminate|].
  rewrite (proj2 (Z.eqb_neq _ 0)) by (unfold len; simpl List.length; lia).
  assert (Hdash : HasPrefix ((k :: kw) ++ c :: r) (B "--") = false).
  { simpl. destruct (Ascii.eqb_spec k "-") as [->|]; [discriminate|reflexivity]. }
  rewrite Hdash, (nextIdent_scan _ _ _ Hrun Hc). cbn [nonempty bind].
  rewrite (ident_name_spelled _ Hlaw), Hkw, bytes_eqb_refl, Hskip.
  destruct (until_gt body rest Hbody) as [-> ->]. reflexivity.
Qed.

End DeclFacts.

(** C7.  After [<!]: when the next two bytes are [--], the bytes between
    them and the first [-->] become a comment node, verbatim; otherwise,
    when the next identifier reads [doctype] whatever its case, the bytes
    after the keyword and after the white space that follows it, up to the
    next [>], become a doctype node; otherwise the bytes up to the next [>]
    become a comment node, as for [<![CDATA[hello world]]>]. *)
Theorem C7_markup_declarations (E : Env) (fuel : nat) (parent : Node) (root : bool)
  (pre body rest : bytes) :
  lacks "<" pre = true ->
  ((forall i, (i < List.length body)%nat ->
              HasPrefix (skipn i (body ++ B "-->" ++ rest)) (B "-->") = false) ->
   parse (S fuel) parent root (pre ++ B "<!--" ++ body ++ B "-->" ++ rest)
     = parse fuel (AppendChild (textNode parent pre) (leaf CommentNode body)) root rest) /\
  (forall kw c r,
     spells_names -> asciiLower kw = B "doctype" -> identInvalidF c = true ->
     skipSpace (c :: r) = body ++ B ">" ++ rest -> lacks ">" body = true ->
     parse (S fuel) parent root (pre ++ B "<!" ++ kw ++ c :: r)
       = parse fuel (AppendChild (textNode parent pre) (leaf DoctypeNode body)) root rest) /\
  (forall t,
     HasPrefix t (B "--") = false ->
     (forall id a r, nextIdent t = Ok (id, a, r) -> id <> B "doctype") ->
     t = body ++ B ">" ++ rest -> lacks ">" body = true ->
     parse (S fuel) parent root (pre ++ B "<!" ++ t)
       = parse fuel (AppendChild (textNode parent pre) (leaf CommentNode body)) root rest) /\
  (spells_names ->
   Parse parent (B "<![CDATA[hello world]]>")
     = (AppendChild parent (leaf CommentNode (B "[CDATA[hello world]]")), Ok [])).
Proof.
  intros Hpre. repeat split.
  - intros Hfirst.
    change (B "<!--" ++ body ++ B "-->" ++ rest)
      with ("<"%char :: "!"%char :: B "--" ++ body ++ B "-->" ++ rest).
    rewrite (parse_step_decl _ _ _ _ _ Hpre). cbv zeta.
    change ("<"%char :: "!"%char :: B "--" ++ body ++ B "-->" ++ rest)
      with (B "<!--" ++ body ++ B "-->" ++ rest).
    now rewrite (parseDecl_comment _ _ Hfirst).
  - intros kw c r Hlaw Hkw Hc Hskip Hbody.
    change (B "<!" ++ kw ++ c :: r) with ("<"%char :: "!"%char :: kw ++ c :: r).
    rewrite (parse_step_decl _ _ _ _ _ Hpre). cbv zeta.
    change ("<"%char :: "!"%char :: kw ++ c :: r) with (B "<!" ++ kw ++ c :: r).
    now rewrite (parseDecl_doctype _ _ _ _ _ Hlaw Hkw Hc Hskip Hbody).
  - intros t Hdash Hid Ht Hbody.
    change (B "<!" ++ t) with ("<"%char :: "!"%char :: t).
    rewrite (parse_step_decl _ _ _ _ _ Hpre). cbv zeta.
    change ("<"%char :: "!"%char :: t) with (B "<!" ++ t).
    now rewrite (parseDecl_other _ _ _ Hdash Hid Ht Hbody).
  - intros Hlaw. unfold Parse.
    change (B "<![CDATA[hello world]]>")
      with ([] ++ "<"%char :: "!"%char :: B "[CDATA[hello world]]>").
    rewrite (parse_step_decl _ _ _ [] _ eq_refl). cbv zeta.
    change ("<"%char :: "!"%char :: B "[CDATA[hello world]]>")
      with (B "<!" ++ B "[CDATA[hello world]]>").
    rewrite (parseDecl_other (B "[CDATA[hello world]]>") (B "[CDATA[hello world]]") []);
      try reflexivity.
    intros id a r.
    rewrite (nextIdent_scan (B "[CDATA[hello") " " (B "world]]>") eq_refl eq_refl).
    cbn [nonempty B list_ascii_of_string]. intros [= <- _ _].
    rewrite (ident_name_spelled _ Hlaw). discriminate.
Qed.

Lemma Sample_spells : @spells_names Sample.env.
Proof.
  intros b. cbn [Lookup AtomString Sample.env]. unfold Sample.table.
  cbn [Sample.lookup].
  repeat match goal with
         | |- context [bytes_eqb b ?s] =>
             destruct (bytes_eqb_spec b s) as [->|_]; [intros _; reflexivity|]
         end.
  congruence.
Qed.

Lemma C7_markup_declarations_witness :
  lacks "<" (B "x") = true /\
  @parse Sample.env 2 Sample.doc true (B "x" ++ B "<!--" ++ B "foobar->" ++ B "-->" ++ [])
    = @parse Sample.env 1
        (AppendChild (@textNode Sample.env Sample.doc (B "x"))
                     (leaf CommentNode (B "foobar->"))) true [] /\
  @Parse Sample.env Sample.doc (B "<![CDATA[hello world]]>")
    = (AppendChild Sample.doc (leaf CommentNode (B "[CDATA[hello world]]")), Ok []).
Proof.
  assert (H : lacks "<" (B "x") = true) by reflexivity.
  pose proof (C7_markup_declarations Sample.env 1 Sample.doc true (B "x")
                (B "foobar->") [] H) as (Hcomment & _).
  pose proof (C7_markup_declarations Sample.env 0 Sample.doc true (B "x") [] [] H)
    as (_ & _ & _ & Hcdata).
  refine (conj H (conj (Hcomment _) (Hcdata Sample_spells))).
  intros i Hi.
  do 8 (destruct i as [|i]; [reflexivity|]). simpl in Hi. lia.
Defined.

(** ** Where the reference decoder is applied (C6) *)

Section DecoderFacts.
Context {E : Env}.





End DecoderFacts.

(** ** No empty text node (C10) *)

Lemma no_empty_text_node (n : Node) :
  Type_ n <> TextNode \/ Data n <> [] ->
  forallb no_empty_text (Children n) = true ->
  no_empty_text n = true.
Proof.
  destruct n as [t d a at_ ch]. simpl. intros [Ht|Hd] Hch.
  - destruct t; try exact Hch. congruence.
  - destruct t; try exact Hch. destruct d; [congruence|exact Hch].
Qed.

Lemma clean_AppendChild (parent c : Node) :
  forallb no_empty_text (Children parent) = true -> no_empty_text c = true ->
  forallb no_empty_text (Children (AppendChild parent c)) = true.
Proof.
  intros Hp Hc. simpl. rewrite forallb_app, Hp. simpl. now rewrite Hc.
Qed.

Section CleanFacts.
Context {E : Env}.
Hypothesis decode_nonempty : forall s : bytes, s <> [] -> UnescapeString s <> [].

Lemma textNode_clean (parent : Node) (text : bytes) :
  forallb no_empty_text (Children parent) = true ->
  forallb no_empty_text (Children (textNode parent text)) = true.
Proof.
  intros Hp. unfold textNode. destruct text as [|c text]; [exact Hp|].
  replace (0 <? len (c :: text)) with true
    by (symmetry; apply Z.ltb_lt; unfold len; simpl List.length; lia).
  apply clean_AppendChild; [exact Hp|].
  apply no_empty_text_node; [right|reflexivity].
  simpl. apply decode_nonempty. discriminate.
Qed.

Lemma rawText_clean (parent : Node) (escapable : bool) (buf : bytes) :
  forallb no_empty_text (Children parent) = true ->
  forallb no_empty_text (Children (rawText parent escapable buf)) = true.
Proof.
  intros Hp. unfold rawText. destruct escapable; [now apply textNode_clean|].
  destruct buf as [|c buf]; [exact Hp|].
  replace (0 <? len (c :: buf)) with true
    by (symmetry; apply Z.ltb_lt; unfold len; simpl List.length; lia).
  apply clean_AppendChild; [exact Hp|]. reflexivity.
Qed.

Lemma parseRaw_loop_clean (fuel : nat) (parent : Node) (escapable : bool)
  (text buf : bytes) :
  forallb no_empty_text (Children parent) = true ->
  forallb no_empty_text (Children (fst (parseRaw_loop fuel parent escapable text buf)))
    = true.
Proof.
  intros Hp. revert text buf. induction fuel as [|fuel IH]; intros text buf; [exact Hp|].
  cbn [parseRaw_loop].
  destruct (IndexByte text "<" <? 0); [exact Hp|].
  destruct (slice_to text (IndexByte text "<")) as [pre| | |]; try exact Hp.
  destruct (slice_from text (IndexByte text "<")) as [t1| | |]; try exact Hp.
  destruct (len t1 <? 2); [exact Hp|].
  destruct (at_index t1 1) as [c| | |]; try exact Hp.
  assert (Hcont :
    forallb no_empty_text (Children (fst
      match slice_to t1 2 with
      | Ok two => match slice_from t1 2 with
                  | Ok t2 => parseRaw_loop fuel parent escapable t2 ((buf ++ pre) ++ two)
                  | _ => (parent, Panic)
                  end
      | _ => (parent, Panic)
      end)) = true).
  { destruct (slice_to t1 2); try exact Hp.
    destruct (slice_from t1 2); try exact Hp. apply IH. }
  destruct (Ascii.eqb c "/"); [|exact Hcont].
  destruct (parseEndTag (Some parent) t1) as [[[|] t2]| | |]; try exact Hp;
    try exact Hcont.
  now apply rawText_clean.
Qed.

Lemma parseRaw_loop_type (fuel : nat) (parent : Node) (escapable : bool)
  (text buf : bytes) :
  exists l, fst (parseRaw_loop fuel parent escapable text buf) = add_children parent l.
Proof.
  revert text buf. induction fuel as [|fuel IH]; intros text buf.
  { exists []. simpl. now rewrite add_children_nil. }
  assert (Hsame : forall r : result bytes,
            exists l, fst (parent, r) = add_children parent l)
    by (intros r; exists []; simpl; now rewrite add_children_nil).
  cbn [parseRaw_loop].
  destruct (IndexByte text "<" <? 0); [apply Hsame|].
  destruct (slice_to text (IndexByte text "<")) as [pre| | |]; try apply Hsame.
  destruct (slice_from text (IndexByte text "<")) as [t1| | |]; try apply Hsame.
  destruct (len t1 <? 2); [apply Hsame|].
  destruct (at_index t1 1) as [c| | |]; try apply Hsame.
  assert (Hcont : exists l, fst
      match slice_to t1 2 with
      | Ok two => match slice_from t1 2 with
                  | Ok t2 => parseRaw_loop fuel parent escapable t2 ((buf ++ pre) ++ two)
                  | _ => (parent, Panic)
                  end
      | _ => (parent, Panic)
      end = add_children parent l).
  { destruct (slice_to t1 2); try apply Hsame.
    destruct (slice_from t1 2); try apply Hsame. apply IH. }
  destruct (Ascii.eqb c "/"); [|exact Hcont].
  destruct (parseEndTag (Some parent) t1) as [[[|] t2]| | |]; try apply Hsame;
    try exact Hcont.
  apply rawText_add.
Qed.

Lemma parseDecl_node (text : bytes) (node : Node) (text' : bytes) :
  parseDecl text = Ok (node, text') ->
  Type_ node <> TextNode /\ Children node = [].
Proof.
  unfold parseDecl. intros H. ok_step H as t Ht.
  destruct (len t =? 0); [discriminate|].
  destruct (HasPrefix t (B "--")).
  - ok_step H as t1 Ht1. ok_step H as d Hd. ok_step H as t2 Ht2.
    injection H as <- _. split; [discriminate|reflexivity].
  - ok_step H as id Hid. destruct id as [[d a] rest].
    destruct (bytes_eqb d (B "doctype")).
    + ok_step H as dd Hdd. ok_step H as t2 Ht2. injection H as <- _.
      split; [discriminate|reflexivity].
    + ok_step H as dd Hdd. ok_step H as t2 Ht2. injection H as <- _.
      split; [discriminate|reflexivity].
Qed.

(** An element whose children are clean is clean, and stays an element
    while children are added. *)
Lemma element_clean (node node' : Node) (l : list Node) :
  Type_ node = ElementNode -> node' = add_children node l ->
  forallb no_empty_text (Children node') = true ->
  no_empty_text node' = true.
Proof.
  intros Ht -> Hc. apply no_empty_text_node; [|exact Hc].
  left. simpl. rewrite Ht. discriminate.
Qed.

Lemma parse_clean (fuel : nat) (parent : Node) (root : bool) (text : bytes) :
  forallb no_empty_text (Children parent) = true ->
  forallb no_empty_text (Children (fst (parse fuel parent root text))) = true.
Proof.
  revert parent root text. induction fuel as [|fuel IH]; intros parent root text Hp;
    [exact Hp|].
  cbn [parse].
  destruct (IndexByte text "<" <? 0).
  { destruct (negb root); [exact Hp|]. now apply textNode_clean. }
  destruct (slice_to text (IndexByte text "<")) as [pre| | |]; try exact Hp.
  destruct (slice_from text (IndexByte text "<")) as [t1| | |]; try exact Hp.
  pose proof (textNode_clean parent pre Hp) as Hq.
  destruct (len t1 <? 2); [exact Hq|].
  destruct (at_index t1 1) as [c| | |]; try exact Hq.
  destruct (Ascii.eqb c "/").
  { destruct (parseEndTag _ t1) as [[[|] t2]| | |]; exact Hq. }
  destruct (Ascii.eqb c "!").
  { destruct (parseDecl t1) as [[node t2]| | |] eqn:Hdecl; try exact Hq.
    apply IH. apply clean_AppendChild; [exact Hq|].
    apply parseDecl_node in Hdecl. destruct Hdecl as [Ht Hc].
    apply no_empty_text_node; [now left|now rewrite Hc]. }
  destruct (parseStartTag t1) as [[[node sc] t2]| | |] eqn:Hstart; try exact Hq.
  apply parseStartTag_node in Hstart. destruct Hstart as (Ht & Hc & _).
  assert (Hnode : forallb no_empty_text (Children node) = true) by now rewrite Hc.
  assert (Hself : no_empty_text node = true)
    by (apply no_empty_text_node; [left; rewrite Ht; discriminate|exact Hnode]).
  assert (Hgo : forall (body : Node * result bytes),
    (exists l, fst body = add_children node l) ->
    forallb no_empty_text (Children (fst body)) = true ->
    forallb no_empty_text (Children (fst
      (let '(node0, r) := body in
       match r with
       | Ok t3 => parse fuel (AppendChild (textNode parent pre) node0) root t3
       | _ => (AppendChild (textNode parent pre) node0, r)
       end))) = true).
  { intros [node' r] [l Hl] Hcl. cbn [fst] in Hl, Hcl.
    pose proof (element_clean node node' l Ht Hl Hcl) as Hn.
    pose proof (clean_AppendChild _ _ Hq Hn) as Ha.
    destruct r; try exact Ha. now apply IH. }
  destruct sc.
  { apply IH. now apply clean_AppendChild. }
  destruct (categorize (DataAtom node)).
  - apply IH. now apply clean_AppendChild.
  - apply Hgo; [apply parse_appends|now apply IH].
  - apply Hgo; [apply parseRaw_loop_type|now apply parseRaw_loop_clean].
  - apply Hgo; [apply parseRaw_loop_type|now apply parseRaw_loop_clean].
  - apply Hgo; [apply parse_appends|now apply IH].
  - apply Hgo; [apply parse_appends|now apply IH].
Qed.

End CleanFacts.

(** C10.  Whether [Parse] succeeds, fails or panics, it attaches no text
    node with an empty payload, at any depth: an empty chunk between tags
    yields no child, an empty raw-text buffer yields no child, and every
    text node that is created has a payload of at least one byte.  The
    reference decoder is assumed to map no chunk of at least one byte to
    the empty string. *)
Theorem C10_no_empty_text (E : Env) (parent : Node) (text : bytes) :
  (forall s : bytes, s <> [] -> UnescapeString s <> []) ->
  forallb no_empty_text (Children parent) = true ->
  forallb no_empty_text (Children (fst (Parse parent text))) = true /\
  textNode parent [] = parent /\
  (forall escapable, rawText parent escapable [] = parent).
Proof.
  intros Hdec Hp. split; [|split].
  - unfold Parse. now apply parse_clean.
  - reflexivity.
  - now intros [].
Qed.

Lemma Sample_decode_nonempty (s : bytes) : s <> [] -> @UnescapeString Sample.env s <> [].
Proof.
  intros H. cbn [UnescapeString Sample.env].
  destruct s as [|c s]; [congruence|]. cbn [List.length Sample.unescape].
  destruct (Sample.reference Sample.references (c :: s)) as [[d n]|]; discriminate.
Qed.

Lemma C10_no_empty_text_witness :
  (forall s : bytes, s <> [] -> @UnescapeString Sample.env s <> []) /\
  forallb no_empty_text (Children Sample.doc) = true /\
  forallb no_empty_text
    (Children (fst (@Parse Sample.env Sample.doc (B "<a></a><title></title><b>")))) = true.
Proof.
  assert (H : forallb no_empty_text (Children Sample.doc) = true) by reflexivity.
  pose proof (C10_no_empty_text Sample.env Sample.doc (B "<a></a><title></title><b>")
                Sample_decode_nonempty H) as (Hc & _).
  exact (conj Sample_decode_nonempty (conj H Hc)).
Defined.

(** ** The arena (C9) *)

Module ArenaFacts.
Import Arena.
Local Open Scope nat_scope.

Section Facts.
Context {T : Type} (zero : T).

Lemma ptr_eqb_eq (p q : ptr) : ptr_eqb p q = true <-> p = q.
Proof.
  destruct p as [b i], q as [b' i']. unfold ptr_eqb. simpl.
  rewrite andb_true_iff, !Nat.eqb_eq. split.
  - intros [-> ->]. reflexivity.
  - intros [= -> ->]. auto.
Qed.

Lemma update_length {A : Type} (l : list A) (i : nat) (f : A -> A) :
  List.length (update l i f) = List.length l.
Proof.
  revert i. induction l as [|x l IH]; intros [|i]; simpl; auto.
Qed.

Lemma nth_error_update_other {A : Type} (l : list A) (i j : nat) (f : A -> A) :
  i <> j -> nth_error (update l i f) j = nth_error l j.
Proof.
  revert i j. induction l as [|x l IH]; intros [|i] [|j] H; simpl; auto;
    congruence.
Qed.

Lemma nth_error_update_same {A : Type} (l : list A) (i : nat) (f : A -> A) :
  nth_error (update l i f) i = option_map f (nth_error l i).
Proof.
  revert i. induction l as [|x l IH]; intros [|i]; simpl; auto.
Qed.

Lemma store_length (h : heap (T:=T)) (p : ptr) (v : T) :
  List.length (store h p v) = List.length h.
Proof. apply update_length. Qed.

(** A write through one address leaves every other slot as it was. *)
Lemma load_store_other (h : heap (T:=T)) (p q : ptr) (v : T) :
  p <> q -> load (store h p v) q = load h q.
Proof.
  intros Hpq. unfold load, store.
  destruct (Nat.eq_dec (block p) (block q)) as [Hb|Hb].
  - rewrite <- Hb, nth_error_update_same.
    destruct (nth_error h (block p)) as [b|]; simpl; [|reflexivity].
    apply nth_error_update_other. intros Hs. apply Hpq.
    destruct p, q. simpl in *. congruence.
  - now rewrite nth_error_update_other.
Qed.

Lemma load_app_old (h : heap (T:=T)) (b : list T) (p : ptr) :
  block p < List.length h -> load (h ++ [b]) p = load h p.
Proof. intros H. unfold load. now rewrite nth_error_app1. Qed.

Lemma load_app_new (h : heap (T:=T)) (b : list T) (j : nat) :
  load (h ++ [b]) (mkPtr (List.length h) j) = nth_error b j.
Proof.
  unfold load. simpl. rewrite nth_error_app2, Nat.sub_diag by lia. reflexivity.
Qed.

Lemma nth_error_zeroes (n j : nat) : j < n -> nth_error (repeat zero n) j = Some zero.
Proof.
  revert j. induction n as [|n IH]; intros [|j] H; simpl; try lia; auto.
  apply IH. lia.
Qed.

(** The two cases of [newNode]. *)
Lemma newNode_exhausted (h : heap (T:=T)) (a : arena) :
  alen a = 0 ->
  newNode zero h a
    = (h ++ [repeat zero arenaSize],
       mkArena (List.length h) 1 (arenaSize - 1),
       mkPtr (List.length h) 0).
Proof. intros H. unfold newNode. rewrite H. reflexivity. Qed.

Lemma newNode_available (h : heap (T:=T)) (a : arena) :
  0 < alen a ->
  newNode zero h a
    = (h, mkArena (backing a) (S (offset a)) (alen a - 1),
       mkPtr (backing a) (offset a)).
Proof.
  intros H. unfold newNode. destruct (Nat.eqb_spec (alen a) 0); [lia|reflexivity].
Qed.

(** What one call of [newNode] guarantees, for an arena whose remaining
    slots are unissued, and what it preserves for another arena [o] on a
    different backing array. *)
Lemma newNode_spec (h : heap (T:=T)) (known : list ptr) (a o : arena) :
  unissued zero h known a -> unissued zero h known o ->
  (0 < alen a -> 0 < alen o -> backing a <> backing o) ->
  (forall p, In p known -> block p < List.length h) ->
  let '(h', a', p) := newNode zero h a in
  ~ In p known /\ load h' p = Some zero /\
  unissued zero h' (p :: known) a' /\ unissued zero h' (p :: known) o /\
  (0 < alen a' -> 0 < alen o -> backing a' <> backing o) /\
  (forall q, In q (p :: known) -> block q < List.length h').
Proof.
  intros [Hab Ha] [Hob Ho] Hdiff Hknown.
  destruct (Nat.eq_dec (alen a) 0) as [Hz|Hnz].
  - rewrite (newNode_exhausted h a Hz).
    assert (Hnew : ~ In (mkPtr (List.length h) 0) known).
    { intros Hin. apply Hknown in Hin. simpl in Hin. lia. }
    split; [exact Hnew|]. split.
    { rewrite load_app_new. apply nth_error_zeroes. unfold arenaSize. lia. }
    split; [|split; [|split]].
    + split; cbn [backing offset alen]; [rewrite length_app; simpl; lia|].
      intros j Hj. unfold arenaSize in Hj. split.
      * rewrite load_app_new. apply nth_error_zeroes. unfold arenaSize. lia.
      * intros [Heq|Hin]; [injection Heq; lia|].
        apply Hknown in Hin. simpl in Hin. lia.
    + split; [intros Hpos; rewrite length_app; simpl; specialize (Hob Hpos); lia|].
      intros j Hj. assert (Hpos : 0 < alen o) by lia. specialize (Hob Hpos).
      destruct (Ho j Hj) as [Hl Hn]. split.
      * rewrite load_app_old by (simpl; lia). exact Hl.
      * intros [Heq|Hin]; [injection Heq; lia|now apply Hn].
    + simpl. intros _ Hpos. specialize (Hob Hpos). lia.
    + intros q [<-|Hin]; rewrite length_app; simpl; [lia|].
      apply Hknown in Hin. lia.
  - assert (Hpos : 0 < alen a) by lia.
    rewrite (newNode_available h a Hpos).
    destruct (Ha (offset a)) as [Hl Hn]; [lia|].
    split; [exact Hn|]. split; [exact Hl|].
    split; [|split; [|split]].
    + split; simpl; [intros _; now apply Hab|].
      intros j Hj. destruct (Ha j) as [Hl' Hn']; [lia|]. split; [exact Hl'|].
      intros [Heq|Hin]; [injection Heq; lia|now apply Hn'].
    + split; [exact Hob|].
      intros j Hj. assert (Hpo : 0 < alen o) by lia.
      destruct (Ho j Hj) as [Hl' Hn']. split; [exact Hl'|].
      intros [Heq|Hin]; [|now apply Hn'].
      injection Heq as Hb _. now apply (Hdiff Hpos Hpo).
    + simpl. intros _ Hpo. now apply Hdiff.
    + intros q [<-|Hin]; [simpl; now apply Hab|now apply Hknown].
Qed.

Lemma unissued_perm (h : heap (T:=T)) (known known' : list ptr) (a : arena) :
  (forall p, In p known' -> In p known) ->
  unissued zero h known a -> unissued zero h known' a.
Proof.
  intros Hsub [Hb Hs]. split; [exact Hb|].
  intros j Hj. destruct (Hs j Hj) as [Hl Hn]. split; [exact Hl|]. auto.
Qed.

Lemma unissued_store (h : heap (T:=T)) (known : list ptr) (a : arena) (p : ptr) (v : T) :
  In p known -> unissued zero h known a -> unissued zero (store h p v) known a.
Proof.
  intros Hin [Hb Hs]. split; [now rewrite store_length|].
  intros j Hj. destruct (Hs j Hj) as [Hl Hn]. split; [|exact Hn].
  rewrite load_store_other; [exact Hl|]. intros ->. now apply Hn.
Qed.

Lemma invariant_init : invariant zero (init (T:=T)).
Proof.
  unfold invariant, init, issued, unissued. simpl.
  repeat split; try lia; try (intros; lia); try tauto.
  constructor.
Qed.

Lemma invariant_step (w : world (T:=T)) (o : op) :
  invariant zero w -> invariant zero (step zero w o).
Proof.
  intros (Hl & Hr & Hd & Hk & Hnd). destruct o as [| |p v]; simpl.
  - unfold alloc_left.
    pose proof (newNode_spec _ _ _ _ Hl Hr Hd Hk) as H.
    destruct (newNode zero (w_heap w) (w_left w)) as [[h' a'] p].
    destruct H as (Hn & _ & Hl' & Hr' & Hd' & Hk').
    unfold invariant, issued. simpl.
    repeat split; try apply Hl'; try apply Hr'; auto.
    constructor; assumption.
  - unfold alloc_right.
    assert (Hd0 : 0 < alen (w_right w) -> 0 < alen (w_left w) ->
                  backing (w_right w) <> backing (w_left w))
      by (intros ? ? ?; apply Hd; auto).
    pose proof (newNode_spec _ _ _ _ Hr Hl Hd0 Hk) as H.
    destruct (newNode zero (w_heap w) (w_right w)) as [[h' a'] p].
    destruct H as (Hn & _ & Hr' & Hl' & Hd' & Hk').
    assert (Hsub : forall q, In q (issued_left w ++ p :: issued_right w) ->
                             In q (p :: issued w)).
    { intros q Hq. unfold issued. apply in_app_or in Hq. simpl in *.
      rewrite in_app_iff. tauto. }
    unfold invariant, issued. simpl.
    split; [exact (unissued_perm _ _ _ _ Hsub Hl')|].
    split; [exact (unissued_perm _ _ _ _ Hsub Hr')|].
    split; [intros ? ? ?; apply Hd'; auto|].
    split; [intros q Hq; apply Hk', Hsub, Hq|].
    apply (Permutation_NoDup (Permutation_middle _ _ _)).
    constructor; assumption.
  - destruct (existsb (ptr_eqb p) (issued w)) eqn:Hex;
      [|unfold invariant; auto].
    apply existsb_exists in Hex. destruct Hex as (q & Hq & Heq).
    apply ptr_eqb_eq in Heq. subst q.
    unfold invariant, issued. simpl.
    split; [now apply unissued_store|]. split; [now apply unissued_store|].
    split; [exact Hd|]. split; [|exact Hnd].
    intros q Hin. rewrite store_length. now apply Hk.
Qed.

Lemma invariant_run (ops : list op) : invariant zero (run zero ops).
Proof.
  unfold run. generalize (invariant_init). generalize (init (T:=T)).
  induction ops as [|o ops IH]; intros w Hw; simpl; [exact Hw|].
  apply IH. now apply invariant_step.
Qed.

Lemma issued_sides_differ (w : world (T:=T)) (p q : ptr) :
  NoDup (issued w) -> In p (issued_left w) -> In q (issued_right w) -> p <> q.
Proof.
  unfold issued. intros Hnd Hp Hq ->.
  revert Hnd Hp. generalize (issued_left w) as l.
  induction l as [|x l IH]; simpl; [tauto|].
  intros Hnd [->|Hin]; apply NoDup_cons_iff in Hnd; destruct Hnd as [Hx Hnd].
  - apply Hx, in_or_app. now right.
  - now apply IH.
Qed.

(** C9.  After any sequence of allocations by two parsers and of writes
    through the addresses they were given, a call of [newNode] by either
    parser returns an address that no earlier call returned, and the slot
    there holds the zero value.  When the parser's arena is empty the heap
    grows by one backing array of exactly [arenaSize = 64] zeroed slots and
    the address returned is its first slot; otherwise no array is made.  The
    addresses issued so far are pairwise distinct, those one parser was given
    differ from those the other was given, and a write through an address of
    one parser changes no slot of the other. *)
Theorem C9_arena_slots_fresh_and_disjoint (ops : list (op (T:=T))) :
  let w := run zero ops in
  let l := alloc_left zero w in
  let r := alloc_right zero w in
  (~ In (snd l) (issued w) /\ load (w_heap (fst l)) (snd l) = Some zero) /\
  (~ In (snd r) (issued w) /\ load (w_heap (fst r)) (snd r) = Some zero) /\
  (alen (w_left w) = 0 ->
     w_heap (fst l) = w_heap w ++ [repeat zero arenaSize] /\
     List.length (repeat zero arenaSize) = 64 /\
     snd l = mkPtr (List.length (w_heap w)) 0) /\
  (alen (w_right w) = 0 ->
     w_heap (fst r) = w_heap w ++ [repeat zero arenaSize] /\
     List.length (repeat zero arenaSize) = 64 /\
     snd r = mkPtr (List.length (w_heap w)) 0) /\
  (0 < alen (w_left w) -> w_heap (fst l) = w_heap w) /\
  (0 < alen (w_right w) -> w_heap (fst r) = w_heap w) /\
  NoDup (issued w) /\
  (forall p q v, In p (issued_left w) -> In q (issued_right w) ->
     p <> q /\
     load (store (w_heap w) p v) q = load (w_heap w) q /\
     load (store (w_heap w) q v) p = load (w_heap w) p).
Proof.
  intros w l r.
  destruct (invariant_run ops) as (Hl & Hr & Hd & Hk & Hnd). fold w in Hl, Hr, Hd, Hk, Hnd.
  assert (Hd0 : 0 < alen (w_right w) -> 0 < alen (w_left w) ->
                backing (w_right w) <> backing (w_left w))
    by (intros ? ? ?; apply Hd; auto).
  split; [|split; [|split; [|split; [|split; [|split; [|split]]]]]].
  - pose proof (newNode_spec _ _ _ _ Hl Hr Hd Hk) as H.
    subst l. unfold alloc_left.
    destruct (newNode zero (w_heap w) (w_left w)) as [[h' a'] p]. simpl.
    tauto.
  - pose proof (newNode_spec _ _ _ _ Hr Hl Hd0 Hk) as H.
    subst r. unfold alloc_right.
    destruct (newNode zero (w_heap w) (w_right w)) as [[h' a'] p]. simpl.
    tauto.
  - intros Hz. subst l. unfold alloc_left.
    rewrite (newNode_exhausted _ _ Hz). cbn [fst snd w_heap].
    rewrite repeat_length. auto.
  - intros Hz. subst r. unfold alloc_right.
    rewrite (newNode_exhausted _ _ Hz). cbn [fst snd w_heap].
    rewrite repeat_length. auto.
  - intros Hpos. subst l. unfold alloc_left.
    rewrite (newNode_available _ _ Hpos). reflexivity.
  - intros Hpos. subst r. unfold alloc_right.
    rewrite (newNode_available _ _ Hpos). reflexivity.
  - exact Hnd.
  - intros p q v Hp Hq.
    pose proof (issued_sides_differ w p q Hnd Hp Hq) as Hne.
    split; [exact Hne|]. split; apply load_store_other; congruence.
Qed.

End Facts.

Lemma C9_arena_slots_fresh_and_disjoint_witness :
  let w := run 0 [AllocLeft; AllocRight; Write (mkPtr 0 0) 7] in
  load (store (w_heap w) (mkPtr 0 0) 9) (mkPtr 1 0) = load (w_heap w) (mkPtr 1 0) /\
  w_heap (fst (alloc_left 0 (run 0 []))) = [] ++ [repeat 0 arenaSize] /\
  w_heap (fst (alloc_left 0 w)) = w_heap w.
Proof.
  intros w.
  pose proof (C9_arena_slots_fresh_and_disjoint 0
                [AllocLeft; AllocRight; Write (mkPtr 0 0) 7]) as H.
  pose proof (C9_arena_slots_fresh_and_disjoint 0 []) as H0.
  cbv zeta in H, H0.
  destruct H as (_ & _ & _ & _ & Hkeep & _ & _ & Hframe).
  destruct H0 as (_ & _ & Hgrow & _).
  split; [|split].
  - apply (Hframe (mkPtr 0 0) (mkPtr 1 0) 9); simpl; auto.
  - apply Hgrow. reflexivity.
  - apply Hkeep. vm_compute. lia.
Defined.

End ArenaFacts.

(** * Further properties of the scanner *)

(** ** White space *)

Lemma skipSpace_split (text : bytes) :
  exists ws, text = ws ++ skipSpace text /\ forallb whitespaceF ws = true.
Proof.
  induction text as [|c text IH]; [exists []; auto|].
  simpl. destruct (whitespaceF c) eqn:Hc.
  - destruct IH as (ws & Heq & Hws). exists (c :: ws). simpl.
    rewrite Hc, Hws. split; [congruence|reflexivity].
  - exists []. auto.
Qed.

Lemma skipSpace_head (text : bytes) (c : ascii) (r : bytes) :
  skipSpace text = c :: r -> whitespaceF c = false.
Proof.
  induction text as [|x text IH]; simpl; [discriminate|].
  destruct (whitespaceF x) eqn:Hx; [exact IH|].
  intros [= -> _]. exact Hx.
Qed.

Lemma skipSpace_idem (text : bytes) : skipSpace (skipSpace text) = skipSpace text.
Proof.
  destruct (skipSpace text) as [|c r] eqn:H; [reflexivity|].
  apply skipSpace_stop. exact (skipSpace_head _ _ _ H).
Qed.

(** X1.  [skipSpace] removes the longest run of white space at the front
    and nothing else: the input is a run of white-space bytes followed by the
    result, the result does not begin with white space, and skipping twice
    is skipping once. *)
Theorem X1_skipSpace_trims (text : bytes) :
  (exists ws, text = ws ++ skipSpace text /\ forallb whitespaceF ws = true) /\
  (forall c r, skipSpace text = c :: r -> whitespaceF c = false) /\
  skipSpace (skipSpace text) = skipSpace text.
Proof.
  split; [apply skipSpace_split|]. split; [apply skipSpace_head|].
  apply skipSpace_idem.
Qed.

Lemma X1_skipSpace_trims_witness :
  whitespaceF "a"%char = false /\ skipSpace (skipSpace (B "  a b")) = B "a b".
Proof.
  destruct (X1_skipSpace_trims (B "  a b")) as (_ & Hhead & Hidem).
  split.
  - apply (Hhead "a"%char (B " b")). reflexivity.
  - rewrite Hidem. reflexivity.
Defined.

(** ** Case folding *)

Lemma lower_byte_spec (ch : ascii) :
  N_of_ascii (lower_byte ch)
    = (let n := N_of_ascii ch in
       if (65 <=? n) && (n <=? 90) then n + 32 else n)%N.
Proof.
  destruct ch as [[] [] [] [] [] [] [] []]; vm_compute; reflexivity.
Qed.

Lemma lower_byte_idem (ch : ascii) : lower_byte (lower_byte ch) = lower_byte ch.
Proof.
  destruct ch as [[] [] [] [] [] [] [] []]; vm_compute; reflexivity.
Qed.

Lemma lower_byte_valid (ch : ascii) :
  identInvalidF ch = false -> identInvalidF (lower_byte ch) = false.
Proof.
  destruct ch as [[] [] [] [] [] [] [] []]; vm_compute; auto.
Qed.

Lemma asciiLower_idem (text : bytes) : asciiLower (asciiLower text) = asciiLower text.
Proof.
  unfold asciiLower. rewrite map_map. apply map_ext. exact lower_byte_idem.
Qed.

Lemma asciiLower_length (text : bytes) :
  List.length (asciiLower text) = List.length text.
Proof. apply length_map. Qed.

(** X2.  [asciiLower] keeps the length, adds 32 to each byte from [A] to
    [Z] (that is what [ch | 0x20] does to them) and leaves every other byte
    as it is; folding a folded text changes nothing. *)
Theorem X2_asciiLower_folds (text : bytes) :
  List.length (asciiLower text) = List.length text /\
  Forall2 (fun ch c' =>
             N_of_ascii c'
               = (let n := N_of_ascii ch in
                  if (65 <=? n) && (n <=? 90) then n + 32 else n)%N)
          text (asciiLower text) /\
  asciiLower (asciiLower text) = asciiLower text.
Proof.
  split; [apply asciiLower_length|]. split; [|apply asciiLower_idem].
  induction text as [|ch text IH]; simpl; constructor; [apply lower_byte_spec|exact IH].
Qed.

(** ** The scratch buffer *)

Lemma firstn_length_app {A : Type} (l r : list A) : firstn (List.length l) (l ++ r) = l.
Proof. induction l as [|x l IH]; simpl; [destruct r; reflexivity|now rewrite IH]. Qed.

Lemma skipn_length_app {A : Type} (l r : list A) : skipn (List.length l) (l ++ r) = r.
Proof. induction l as [|x l IH]; simpl; auto. Qed.

Lemma len_to_nat (s : bytes) : Z.to_nat (len s) = List.length s.
Proof. unfold len. apply Nat2Z.id. Qed.

Lemma put_lower (b : LowerBuf.buffer) (i : Z) (ch : ascii) :
  (let n := N_of_ascii ch in
   if (65 <=? n)%N && (n <=? 90)%N
   then LowerBuf.put b i (ascii_of_N (N.lor n 32))
   else LowerBuf.put b i ch)
  = LowerBuf.put b i (lower_byte ch).
Proof.
  unfold lower_byte. cbv zeta.
  destruct ((65 <=? N_of_ascii ch)%N && (N_of_ascii ch <=? 90)%N); reflexivity.
Qed.

(** The loop writes the folded bytes over the slots from [i] on. *)
Lemma fold_loop_spec (text : bytes) :
  forall (pre old post : bytes) (n : Z),
    List.length old = List.length text ->
    len pre + len text <= n ->
    LowerBuf.fold_loop (LowerBuf.mkBuffer (pre ++ old ++ post) n) (len pre) text
      = Ok (LowerBuf.mkBuffer (pre ++ asciiLower text ++ post) n).
Proof.
  induction text as [|ch text IH]; intros pre old post n Hlen Hn.
  - destruct old; [reflexivity|discriminate].
  - destruct old as [|o old]; [discriminate|].
    cbn [LowerBuf.fold_loop]. rewrite put_lower.
    unfold LowerBuf.put. cbn [LowerBuf.blen LowerBuf.arr].
    assert (Hpos : 0 <= len pre) by apply len_nonneg.
    assert (Hlt : len pre < n).
    { unfold len in *. cbn [List.length] in Hn. lia. }
    replace ((0 <=? len pre) && (len pre <? n)) with true
      by (symmetry; apply andb_true_iff; split; [apply Z.leb_le|apply Z.ltb_lt]; lia).
    rewrite len_to_nat, firstn_length_app.
    change (S (List.length pre)) with (1 + List.length pre)%nat.
    rewrite <- skipn_skipn, skipn_length_app. cbn [skipn app bind].
    replace (len pre + 1) with (len (pre ++ [lower_byte ch]))
      by (rewrite len_app; reflexivity).
    replace (pre ++ lower_byte ch :: old ++ post)
      with ((pre ++ [lower_byte ch]) ++ old ++ post)
      by (rewrite <- app_assoc; reflexivity).
    rewrite IH.
    + rewrite <- app_assoc. reflexivity.
    + simpl in Hlen. lia.
    + rewrite len_app. unfold len in *. cbn [List.length] in *. lia.
Qed.

(** The buffer [asciiLower] works on: the old one when it is large enough,
    a new one of twice the capacity or of the length of the text otherwise. *)
Lemma asciiLower_buffer (b : LowerBuf.buffer) (text : bytes) :
  LowerBuf.asciiLower b text
    = Ok (LowerBuf.mkBuffer
            (asciiLower text
               ++ skipn (List.length text)
                    (if LowerBuf.cap b <? len text
                     then repeat "000"%char
                            (Z.to_nat (Z.max (2 * LowerBuf.cap b) (len text)))
                     else LowerBuf.arr b))
            (len text)).
Proof.
  unfold LowerBuf.asciiLower. cbv zeta.
  set (b0 := if LowerBuf.cap b <? len text then _ else b).
  assert (Hcap : len text <= LowerBuf.cap b0).
  { subst b0. destruct (LowerBuf.cap b <? len text) eqn:Hc.
    - unfold LowerBuf.make, LowerBuf.cap. cbn [LowerBuf.arr].
      unfold len at 2. rewrite repeat_length.
      pose proof (len_nonneg text).
      destruct (2 * len (LowerBuf.arr b) <? len text) eqn:H2; lia.
    - apply Z.ltb_ge in Hc. exact Hc. }
  assert (Harr : LowerBuf.arr b0
                 = if LowerBuf.cap b <? len text
                   then repeat "000"%char
                          (Z.to_nat (Z.max (2 * LowerBuf.cap b) (len text)))
                   else LowerBuf.arr b).
  { subst b0. destruct (LowerBuf.cap b <? len text); [|reflexivity].
    unfold LowerBuf.make. cbn [LowerBuf.arr]. f_equal. f_equal.
    destruct (2 * LowerBuf.cap b <? len text) eqn:H2;
      [apply Z.ltb_lt in H2|apply Z.ltb_ge in H2]; lia. }
  transitivity (Ok (LowerBuf.mkBuffer
                      (asciiLower text ++ skipn (List.length text) (LowerBuf.arr b0))
                      (len text)));
    [|rewrite Harr; reflexivity].
  clear Harr. clearbody b0.
  unfold LowerBuf.reslice.
  pose proof (len_nonneg text) as Hpos.
  replace ((0 <=? len text) && (len text <=? LowerBuf.cap b0)) with true
    by (symmetry; apply andb_true_iff; split; apply Z.leb_le; lia).
  cbn [bind].
  rewrite <- (firstn_skipn (List.length text) (LowerBuf.arr b0)) at 1.
  apply (fold_loop_spec text [] (firstn (List.length text) (LowerBuf.arr b0))).
  - rewrite length_firstn. unfold LowerBuf.cap, len in Hcap. lia.
  - cbn. lia.
Qed.

(** X3.  [asciiLower] on the parser's scratch buffer never panics, whatever
    state the buffer is in; the slice it returns reads as the text with its
    upper-case letters folded, which is the value [nextIdent] is modelled
    with.  The capacity never shrinks: it stays when the text fits, and
    becomes the larger of twice the old capacity and the length of the text
    when it does not. *)
Theorem X3_asciiLower_buffer_value (b : LowerBuf.buffer) (text : bytes) :
  exists b',
    LowerBuf.asciiLower b text = Ok b' /\
    LowerBuf.view b' = asciiLower text /\
    LowerBuf.blen b' = len text /\
    LowerBuf.cap b'
      = (if LowerBuf.cap b <? len text
         then Z.max (2 * LowerBuf.cap b) (len text) else LowerBuf.cap b) /\
    LowerBuf.cap b <= LowerBuf.cap b' /\ len text <= LowerBuf.cap b'.
Proof.
  eexists. split; [apply asciiLower_buffer|].
  unfold LowerBuf.view, LowerBuf.cap. cbn [LowerBuf.arr LowerBuf.blen].
  split.
  { rewrite len_to_nat, <- (asciiLower_length text). apply firstn_length_app. }
  split; [reflexivity|].
  assert (Hcap : len (asciiLower text
                        ++ skipn (List.length text)
                             (if len (LowerBuf.arr b) <? len text
                              then repeat "000"%char
                                     (Z.to_nat (Z.max (2 * len (LowerBuf.arr b)) (len text)))
                              else LowerBuf.arr b))
                 = if len (LowerBuf.arr b) <? len text
                   then Z.max (2 * len (LowerBuf.arr b)) (len text)
                   else len (LowerBuf.arr b)).
  { rewrite len_app. unfold len at 1 2. rewrite asciiLower_length, length_skipn.
    pose proof (len_nonneg text). pose proof (len_nonneg (LowerBuf.arr b)).
    destruct (len (LowerBuf.arr b) <? len text) eqn:Hc.
    - rewrite repeat_length. unfold len in *. lia.
    - apply Z.ltb_ge in Hc. unfold len in *. lia. }
  rewrite Hcap. split; [reflexivity|].
  pose proof (len_nonneg (LowerBuf.arr b)).
  destruct (len (LowerBuf.arr b) <? len text) eqn:Hc;
    [apply Z.ltb_lt in Hc|apply Z.ltb_ge in Hc]; lia.
Qed.

(** X4.  When the text fits the capacity, [asciiLower] allocates nothing
    and writes over the buffer in place from its first slot, the bytes
    beyond the text staying as they were.  So the slice an earlier call
    returned, which shares that storage, no longer reads as the earlier
    result: it is only valid until the next call, as the source says. *)
Theorem X4_asciiLower_buffer_overwritten (b : LowerBuf.buffer) (text : bytes) :
  len text <= LowerBuf.cap b ->
  LowerBuf.asciiLower b text
    = Ok (LowerBuf.mkBuffer
            (asciiLower text ++ skipn (List.length text) (LowerBuf.arr b))
            (len text)).
Proof.
  intros H. rewrite asciiLower_buffer.
  destruct (LowerBuf.cap b <? len text) eqn:Hc; [apply Z.ltb_lt in Hc; lia|].
  reflexivity.
Qed.

Lemma X4_asciiLower_buffer_overwritten_witness :
  LowerBuf.asciiLower (LowerBuf.mkBuffer (B "hello") 5) (B "AB")
    = Ok (LowerBuf.mkBuffer (B "abllo") 2).
Proof.
  apply (X4_asciiLower_buffer_overwritten (LowerBuf.mkBuffer (B "hello") 5) (B "AB")).
  vm_compute. discriminate.
Defined.

(** ** Identifiers and attribute values *)

Section ScanMore.
Context {E : Env}.

Lemma ident_run_lower (run : bytes) :
  ident_run run = true -> ident_run (asciiLower run) = true.
Proof.
  unfold ident_run, asciiLower. induction run as [|c run IH]; simpl; [auto|].
  rewrite !andb_true_iff, !negb_true_iff. intros [Hc Hr].
  split; [now apply lower_byte_valid|now apply IH].
Qed.

Lemma nonempty_lower (run : bytes) : nonempty (asciiLower run) = nonempty run.
Proof. destruct run; reflexivity. Qed.

Lemma ident_name_lower (run : bytes) : ident_name (asciiLower run) = ident_name run.
Proof. unfold ident_name. now rewrite asciiLower_idem. Qed.

Lemma nextIdent_stop (run : bytes) (c : ascii) (r : bytes) :
  ident_run run = true -> nonempty run = true -> identInvalidF c = true ->
  nextIdent (run ++ c :: r) = Ok (ident_name run, Lookup (asciiLower run), c :: r).
Proof.
  intros Hrun Hne Hc. rewrite (nextIdent_scan run c r Hrun Hc). now rewrite Hne.
Qed.

(** X5.  [nextIdent] reads the bytes up to the first one that cannot be
    part of a name and leaves the cursor on that byte, which it does not
    consume.  The name is folded before it is looked up, so the result does
    not depend on the case of the letters read.  When that first byte comes
    at once the name is empty and the atom is [0]. *)
Theorem X5_nextIdent_folds_and_stops (run : bytes) (c : ascii) (r : bytes) :
  ident_run run = true -> identInvalidF c = true ->
  nextIdent (run ++ c :: r) = nextIdent (asciiLower run ++ c :: r) /\
  (exists s a, nextIdent (run ++ c :: r) = Ok (s, a, c :: r) /\
               (run <> [] -> s = ident_name run /\ a = Lookup (asciiLower run))) /\
  nextIdent (c :: r) = Ok ([], 0%N, c :: r).
Proof.
  intros Hrun Hc. split; [|split].
  - rewrite (nextIdent_scan run c r Hrun Hc).
    rewrite (nextIdent_scan (asciiLower run) c r (ident_run_lower run Hrun) Hc).
    now rewrite nonempty_lower, ident_name_lower, asciiLower_idem.
  - rewrite (nextIdent_scan run c r Hrun Hc).
    destruct run as [|x run]; cbn [nonempty].
    + exists [], 0%N. split; [reflexivity|]. intros H. now elim H.
    + eexists _, _. split; [reflexivity|]. auto.
  - exact (nextIdent_scan [] c r eq_refl Hc).
Qed.

Lemma nextIdent_cases (text : bytes) :
  (ident_run text = true /\ nextIdent text = Panic) \/
  (ident_run text = false /\
   exists s a c r, nextIdent text = Ok (s, a, c :: r) /\ identInvalidF c = true).
Proof.
  destruct (ident_run text) eqn:Hrun.
  - left. split; [reflexivity|]. now apply nextIdent_panic.
  - right. split; [reflexivity|].
    destruct (IndexFunc text identInvalidF <? 0) eqn:Hidx.
    + apply IndexFunc_neg in Hidx. unfold ident_run in Hrun. congruence.
    + destruct (IndexFunc_nonneg _ _ Hidx) as (pre & c & r & -> & Hc & Hpre & _).
      rewrite (nextIdent_scan pre c r Hpre Hc).
      destruct (nonempty pre); eexists _, _, c, r; split; eauto.
Qed.

(** X20.  [nextIdent] has no error result, and it panics exactly when the
    text holds no byte that ends a name (the empty text included): the index
    it slices at is then [-1].  In every other case it returns with the
    cursor on such a byte. *)
Theorem X20_nextIdent_panics_exactly (text : bytes) :
  (nextIdent text = Panic <-> ident_run text = true) /\
  (forall e, nextIdent text <> Err e) /\
  nextIdent text <> OutOfFuel /\
  (ident_run text = false ->
   exists s a c r, nextIdent text = Ok (s, a, c :: r) /\ identInvalidF c = true).
Proof.
  destruct (nextIdent_cases text) as [[Hrun Hp]|[Hrun (s & a & c & r & Hok & Hc)]].
  - repeat split; congruence.
  - repeat split; try congruence. intros _. eauto 6.
Qed.

End ScanMore.

Lemma X5_nextIdent_folds_and_stops_witness :
  @nextIdent Sample.env (B "DiV>x") = @nextIdent Sample.env (B "div>x").
Proof.
  apply (@X5_nextIdent_folds_and_stops Sample.env (B "DiV") ">"%char (B "x"));
    reflexivity.
Defined.

Lemma nextValue_quoted (q : ascii) (v rest : bytes) :
  is_quote q = true -> lacks q v = true ->
  nextValue (q :: v ++ q :: rest) = Ok (v, rest).
Proof.
  intros Hq Hv. unfold nextValue.
  rewrite at_index_cons. cbn [bind]. rewrite Hq, slice_1. cbn [bind].
  rewrite (IndexByte_first q v rest Hv).
  rewrite slice_to_app. cbn [bind].
  replace (len v + 1) with (len (v ++ [q])) by (rewrite len_app; reflexivity).
  replace (v ++ q :: rest) with ((v ++ [q]) ++ rest)
    by (rewrite <- app_assoc; reflexivity).
  rewrite slice_from_app. reflexivity.
Qed.

Lemma nextValue_unquoted (v : bytes) (d : ascii) (rest : bytes) :
  forallb (fun x => negb (unquotInvalidF x)) v = true ->
  unquotInvalidF d = true -> is_quote (hd d v) = false ->
  nextValue (v ++ d :: rest) = Ok (v, d :: rest).
Proof.
  intros Hv Hd Hhd. unfold nextValue.
  assert (Hat : at_index (v ++ d :: rest) 0 = Ok (hd d v))
    by (destruct v; apply at_index_cons).
  rewrite Hat. cbn [bind]. rewrite Hhd.
  rewrite (IndexFunc_first unquotInvalidF v d rest Hv Hd).
  rewrite slice_to_app, slice_from_app. reflexivity.
Qed.

(** X6.  [nextValue].  A value that begins with a quote runs to the next
    occurrence of the same quote; both quotes are consumed and the bytes
    between them, whatever they are, are the value.  Any other value runs up
    to the first byte that is white space, NUL, a quote, [=], [<] or [>],
    which is not consumed; it may be empty and it may contain [/].  On an
    empty text the index expression [text[0]] is out of range. *)
Theorem X6_nextValue_forms (v rest : bytes) :
  (forall q, is_quote q = true -> lacks q v = true ->
             nextValue (q :: v ++ q :: rest) = Ok (v, rest)) /\
  (forall d, forallb (fun x => negb (unquotInvalidF x)) v = true ->
             unquotInvalidF d = true -> is_quote (hd d v) = false ->
             nextValue (v ++ d :: rest) = Ok (v, d :: rest)) /\
  nextValue [] = Panic.
Proof.
  split; [|split; [|reflexivity]].
  - intros q. apply nextValue_quoted.
  - intros d. apply nextValue_unquoted.
Qed.

Lemma X6_nextValue_forms_witness :
  nextValue (B "'a b>' c") = Ok (B "a b>", B " c") /\
  nextValue (B "c/>") = Ok (B "c/", B ">").
Proof.
  split.
  - apply (X6_nextValue_forms (B "a b>") (B " c")); reflexivity.
  - apply (X6_nextValue_forms (B "c/") []); reflexivity.
Defined.

Lemma X20_nextIdent_panics_exactly_witness :
  @nextIdent Sample.env (B "abc") = Panic.
Proof.
  apply (proj1 (@X20_nextIdent_panics_exactly Sample.env (B "abc"))). reflexivity.
Defined.

(** * Further properties of the tags *)

Lemma skipSpace_run_stop (ws : bytes) (c : ascii) (r : bytes) :
  forallb whitespaceF ws = true -> whitespaceF c = false ->
  skipSpace (ws ++ c :: r) = c :: r.
Proof.
  intros Hws Hc. rewrite (skipSpace_app _ _ Hws). now apply skipSpace_stop.
Qed.

Lemma ident_run_first (c : ascii) (run : bytes) :
  ident_run (c :: run) = true ->
  Ascii.eqb c "/" = false /\ Ascii.eqb c ">" = false /\ whitespaceF c = false.
Proof.
  unfold ident_run. simpl. rewrite andb_true_iff, negb_true_iff. intros [Hc _].
  unfold identInvalidF in Hc. rewrite !orb_false_iff in Hc. tauto.
Qed.

Section StartTagFacts.
Context {E : Env}.

(** The node [parseStartTag] builds before it reads the attributes. *)
Lemma element_fields (run : bytes) :
  set_DataAtom (set_Data (set_Type newNode ElementNode) (ident_name run))
               (Lookup (asciiLower run)) = element run.
Proof. reflexivity. Qed.

(** [parseStartTag] up to the end of the name. *)
Ltac open_name Hws Hrun Hne Hname Hc :=
  unfold parseStartTag; rewrite slice_1; cbn [bind];
  rewrite (skipSpace_app _ _ Hws), (skipSpace_ident_run _ _ Hrun Hne);
  rewrite (nextIdent_stop _ _ _ Hrun Hne Hc); cbn [bind];
  rewrite (bytes_eqb_neq _ _ Hname), element_fields.

Lemma attrs_source_cons (a : Attribute) (l : list Attribute) (tail : bytes) :
  attrs_source (a :: l) ++ tail
    = " "%char :: Key a ++ "="%char :: "034"%char :: Val a
        ++ "034"%char :: attrs_source l ++ tail.
Proof.
  unfold attrs_source. cbn [flat_map]. unfold attr_source.
  cbn [B list_ascii_of_string app].
  repeat (rewrite <- app_assoc; cbn [app]). reflexivity.
Qed.

Lemma attrs_source_length (l : list Attribute) :
  (List.length l <= List.length (attrs_source l))%nat.
Proof.
  induction l as [|a l IH]; [apply Nat.le_refl|].
  unfold attrs_source in *. cbn [flat_map]. rewrite length_app.
  assert (Ha : (1 <= List.length (attr_source a))%nat)
    by (unfold attr_source; cbn [B list_ascii_of_string app List.length]; lia).
  change (List.length (a :: l)) with (S (List.length l)). lia.
Qed.

(** The attribute loop on a list of well-formed attributes. *)
Lemma parseAttrs_source (l : list Attribute) :
  forall (fuel : nat) (node : Node) (c : ascii) (r : bytes),
    Forall attr_ok l -> c = "/"%char \/ c = ">"%char ->
    (List.length l < fuel)%nat ->
    parseAttrs fuel node (skipSpace (attrs_source l ++ c :: r))
      = Ok (mkNode (Type_ node) (Data node) (DataAtom node)
                   (Attr node ++ map attr_parsed l) (Children node), c :: r).
Proof.
  induction l as [|a l IH]; intros fuel node c r Hok Hc Hfuel.
  - cbn [attrs_source flat_map app map].
    assert (Hws : whitespaceF c = false) by (destruct Hc; subst c; reflexivity).
    rewrite (skipSpace_stop c r Hws).
    destruct fuel as [|fuel]; [inversion Hfuel|]. cbn [parseAttrs].
    rewrite at_index_cons. cbn [bind].
    rewrite app_nil_r.
    destruct Hc; subst c; cbn [Ascii.eqb Bool.eqb negb andb];
      destruct node; reflexivity.
  - inversion Hok as [|a' l' (Hrun & Hne & Hname & Hval) Hok']. subst a' l'.
    rewrite attrs_source_cons.
    change (skipSpace (" "%char :: ?t)) with (skipSpace t).
    rewrite (skipSpace_ident_run _ _ Hrun Hne).
    destruct fuel as [|fuel]; [inversion Hfuel|]. cbn [parseAttrs].
    destruct (Key a) as [|k ks] eqn:Hkey; [discriminate|].
    destruct (ident_run_first k ks Hrun) as (Hk1 & Hk2 & Hk3).
    cbn [app]. rewrite at_index_cons. cbn [bind]. rewrite Hk1, Hk2.
    cbn [negb andb].
    change (k :: ks ++ ?t) with ((k :: ks) ++ t).
    rewrite (nextIdent_stop (k :: ks) "="%char _ Hrun Hne eq_refl). cbn [bind].
    rewrite (bytes_eqb_neq _ _ Hname).
    rewrite (skipSpace_stop "="%char _ eq_refl).
    rewrite at_index_cons. cbn [bind Ascii.eqb Bool.eqb].
    rewrite slice_1. cbn [bind].
    rewrite (skipSpace_stop "034"%char _ eq_refl).
    rewrite (nextValue_quoted "034"%char (Val a) _ eq_refl Hval). cbn [bind].
    rewrite skipSpace_idem.
    rewrite (IH fuel _ c r Hok' Hc) by (cbn [List.length] in Hfuel; lia).
    unfold append_Attr, attr_parsed. cbn [Type_ Data DataAtom Attr Children map].
    rewrite Hkey, <- app_assoc. reflexivity.
Qed.

Lemma attrs_fuel (l : list Attribute) (c : ascii) (r : bytes) :
  Forall attr_ok l ->
  (List.length l <= List.length (skipSpace (attrs_source l ++ c :: r)))%nat.
Proof.
  intros Hok. destruct l as [|a l]; [apply Nat.le_0_l|].
  inversion Hok as [|a' l' (Hrun & Hne & _) _]. subst.
  rewrite attrs_source_cons.
  change (skipSpace (" "%char :: ?u)) with (skipSpace u).
  rewrite (skipSpace_ident_run _ _ Hrun Hne).
  pose proof (attrs_source_length l) as Hl.
  destruct (Key a) as [|k ks]; [discriminate|].
  cbn [app List.length]. rewrite length_app. cbn [List.length].
  rewrite length_app. cbn [List.length]. rewrite length_app. lia.
Qed.

(** A start tag with a list of well-formed attributes. *)
Lemma start_tag_attrs (run : bytes) (l : list Attribute)
  (slash : bool) (rest : bytes) :
  ident_run run = true -> nonempty run = true -> ident_name run <> [] ->
  Forall attr_ok l ->
  parseStartTag
    ("<"%char :: run ++ attrs_source l
       ++ (if slash then ["/"%char] else []) ++ ">"%char :: rest)
    = Ok (mkNode ElementNode (ident_name run) (Lookup (asciiLower run))
                 (map attr_parsed l) [],
          slash, rest).
Proof.
  intros Hrun Hne Hname Hok.
  set (c := if slash then "/"%char else ">"%char).
  set (r := if slash then ">"%char :: rest else rest).
  assert (Htail : (if slash then ["/"%char] else []) ++ ">"%char :: rest = c :: r)
    by (subst c r; destruct slash; reflexivity).
  rewrite Htail.
  assert (Hc : c = "/"%char \/ c = ">"%char) by (subst c; destruct slash; auto).
  assert (Hhd : exists x t, attrs_source l ++ c :: r = x :: t /\ identInvalidF x = true).
  { destruct l as [|a l'].
    - exists c, r. split; [reflexivity|]. destruct Hc as [-> | ->]; reflexivity.
    - rewrite attrs_source_cons. eexists _, _. split; reflexivity. }
  destruct Hhd as (x & t & Hxt & Hx).
  assert (Hws : forallb whitespaceF [] = true) by reflexivity.
  change ("<"%char :: run ++ attrs_source l ++ c :: r)
    with ("<"%char :: [] ++ run ++ attrs_source l ++ c :: r).
  rewrite Hxt.
  open_name Hws Hrun Hne Hname Hx.
  rewrite <- Hxt.
  rewrite (parseAttrs_source l _ (element run) c r Hok Hc).
  2:{ apply Nat.lt_succ_r. now apply attrs_fuel. }
  cbn [bind Type_ Data DataAtom Attr Children element app].
  rewrite at_index_cons. cbn [bind].
  subst c r. destruct slash; cbn [Ascii.eqb Bool.eqb negb].
  - rewrite slice_1. cbn [bind]. rewrite (skipSpace_stop ">"%char _ eq_refl).
    rewrite at_index_cons. cbn [bind Ascii.eqb Bool.eqb negb].
    now rewrite slice_1.
  - cbn [bind]. now rewrite slice_1.
Qed.

(** X7.  A start tag whose attributes are written [name="value"], each
    after one blank, is read back as it was written: the element has the
    attributes in their order, each with its name as [nextIdent] returns it
    (folded, in the tag table's spelling when it is a known name) and its
    value verbatim, whatever bytes other than the double quote the value
    holds.  With [/] before the [>] the tag is self-closing. *)
Theorem X7_attributes_read_back (run : bytes) (l : list Attribute)
  (slash : bool) (rest : bytes) :
  ident_run run = true -> nonempty run = true -> ident_name run <> [] ->
  Forall attr_ok l ->
  parseStartTag
    ("<"%char :: run ++ attrs_source l
       ++ (if slash then ["/"%char] else []) ++ ">"%char :: rest)
    = Ok (mkNode ElementNode (ident_name run) (Lookup (asciiLower run))
                 (map attr_parsed l) [],
          slash, rest).
Proof.
  intros Hrun Hne Hname Hok.
  exact (start_tag_attrs run l slash rest Hrun Hne Hname Hok).
Qed.

(** The attribute loop stops at once on [/] and on [>]. *)
Lemma parseAttrs_none (fuel : nat) (node : Node) (c : ascii) (r : bytes) :
  c = "/"%char \/ c = ">"%char ->
  parseAttrs (S fuel) node (c :: r) = Ok (node, c :: r).
Proof.
  intros Hc. cbn [parseAttrs]. rewrite at_index_cons. cbn [bind].
  destruct Hc; subst c; reflexivity.
Qed.

Lemma first_invalid (ws : bytes) (c : ascii) (r : bytes) :
  forallb whitespaceF ws = true -> identInvalidF c = true ->
  exists x t, ws ++ c :: r = x :: t /\ identInvalidF x = true.
Proof.
  intros Hws Hc. destruct ws as [|w ws]; [exists c, r; auto|].
  exists w, (ws ++ c :: r). split; [reflexivity|].
  simpl in Hws. apply andb_true_iff in Hws. now apply whitespace_identInvalid.
Qed.

(** X8.  White space is accepted after the [<] of a start tag, after the
    name and between the [/] of a self-closing tag and its [>]: the tag
    opens the same element as the tag written without it. *)
Theorem X8_start_tag_white_space (ws0 run ws1 ws2 : bytes) (slash : bool)
  (rest : bytes) :
  forallb whitespaceF ws0 = true -> forallb whitespaceF ws1 = true ->
  forallb whitespaceF ws2 = true ->
  ident_run run = true -> nonempty run = true -> ident_name run <> [] ->
  parseStartTag
    ("<"%char :: ws0 ++ run ++ ws1
       ++ (if slash then "/"%char :: ws2 else []) ++ ">"%char :: rest)
    = Ok (element run, slash, rest).
Proof.
  intros Hws0 Hws1 Hws2 Hrun Hne Hname.
  set (c := if slash then "/"%char else ">"%char).
  set (r := if slash then ws2 ++ ">"%char :: rest else rest).
  assert (Htail : (if slash then "/"%char :: ws2 else []) ++ ">"%char :: rest = c :: r)
    by (subst c r; destruct slash; reflexivity).
  rewrite Htail.
  assert (Hc : c = "/"%char \/ c = ">"%char) by (subst c; destruct slash; auto).
  assert (Hinv : identInvalidF c = true) by (destruct Hc as [-> | ->]; reflexivity).
  assert (Hnws : whitespaceF c = false) by (destruct Hc as [-> | ->]; reflexivity).
  destruct (first_invalid ws1 c r Hws1 Hinv) as (x & t & Hxt & Hx).
  rewrite Hxt. open_name Hws0 Hrun Hne Hname Hx. rewrite <- Hxt.
  rewrite (skipSpace_run_stop ws1 c r Hws1 Hnws).
  rewrite (parseAttrs_none _ _ c r Hc). cbn [bind].
  rewrite at_index_cons. cbn [bind].
  subst c r. destruct slash; cbn [Ascii.eqb Bool.eqb negb].
  - rewrite slice_1. cbn [bind]. rewrite (skipSpace_before_gt ws2 rest Hws2).
    rewrite at_index_cons. cbn [bind Ascii.eqb Bool.eqb negb].
    now rewrite slice_1.
  - cbn [bind]. now rewrite slice_1.
Qed.

Lemma start_tag_no_name (ws : bytes) (c : ascii) (r : bytes) :
  forallb whitespaceF ws = true -> whitespaceF c = false ->
  identInvalidF c = true ->
  parseStartTag ("<"%char :: ws ++ c :: r) = Err (UnexpectedInOpeningTag c).
Proof.
  intros Hws Hnws Hc. unfold parseStartTag. rewrite slice_1. cbn [bind].
  rewrite (skipSpace_run_stop ws c r Hws Hnws).
  rewrite (nextIdent_scan [] c r eq_refl Hc). cbn [nonempty bind].
  rewrite bytes_eqb_refl, at_index_cons. reflexivity.
Qed.

Lemma start_tag_no_attr_name (ws0 run ws1 : bytes) (c : ascii) (r : bytes) :
  forallb whitespaceF ws0 = true -> forallb whitespaceF ws1 = true ->
  whitespaceF c = false ->
  ident_run run = true -> nonempty run = true -> ident_name run <> [] ->
  identInvalidF c = true -> c <> "/"%char -> c <> ">"%char ->
  parseStartTag ("<"%char :: ws0 ++ run ++ ws1 ++ c :: r)
    = Err (UnexpectedInOpeningNamed c (ident_name run)).
Proof.
  intros Hws0 Hws1 Hnws Hrun Hne Hname Hc Hs Hg.
  destruct (first_invalid ws1 c r Hws1 Hc) as (x & t & Hxt & Hx).
  rewrite Hxt. open_name Hws0 Hrun Hne Hname Hx. rewrite <- Hxt.
  rewrite (skipSpace_run_stop ws1 c r Hws1 Hnws).
  cbn [parseAttrs]. rewrite at_index_cons. cbn [bind].
  apply Ascii.eqb_neq in Hs, Hg. rewrite Hs, Hg. cbn [negb andb].
  rewrite (nextIdent_scan [] c r eq_refl Hc). cbn [nonempty bind].
  rewrite bytes_eqb_refl, at_index_cons. reflexivity.
Qed.

Lemma start_tag_stray_slash (ws0 run ws1 ws2 : bytes) (c : ascii) (r : bytes) :
  forallb whitespaceF ws0 = true -> forallb whitespaceF ws1 = true ->
  forallb whitespaceF ws2 = true -> whitespaceF c = false ->
  ident_run run = true -> nonempty run = true -> ident_name run <> [] ->
  c <> ">"%char ->
  parseStartTag ("<"%char :: ws0 ++ run ++ ws1 ++ "/"%char :: ws2 ++ c :: r)
    = Err (UnexpectedSlash (ident_name run)).
Proof.
  intros Hws0 Hws1 Hws2 Hnws Hrun Hne Hname Hg.
  destruct (first_invalid ws1 "/"%char (ws2 ++ c :: r) Hws1 eq_refl)
    as (x & t & Hxt & Hx).
  rewrite Hxt. open_name Hws0 Hrun Hne Hname Hx. rewrite <- Hxt.
  rewrite (skipSpace_run_stop ws1 "/"%char _ Hws1 eq_refl).
  rewrite (parseAttrs_none _ _ "/"%char _ (or_introl eq_refl)). cbn [bind].
  rewrite at_index_cons. cbn [bind Ascii.eqb Bool.eqb negb].
  rewrite slice_1. cbn [bind]. rewrite (skipSpace_run_stop ws2 c r Hws2 Hnws).
  rewrite at_index_cons. cbn [bind].
  apply Ascii.eqb_neq in Hg. rewrite Hg. reflexivity.
Qed.

Lemma parse_start_tag_error (fuel : nat) (parent : Node) (root : bool)
  (pre : bytes) (c : ascii) (t : bytes) (e : error) :
  lacks "<" pre = true -> c <> "/"%char -> c <> "!"%char ->
  parseStartTag ("<"%char :: c :: t) = Err e ->
  parse (S fuel) parent root (pre ++ "<"%char :: c :: t)
    = (textNode parent pre, Err e).
Proof.
  intros Hpre Hs Hb He.
  rewrite (parse_step_open fuel parent root pre c t Hpre Hs Hb). cbv zeta.
  rewrite He. reflexivity.
Qed.

(** X9.  The syntax errors of a start tag name the byte that was not
    expected: a byte that cannot begin a name where the tag name should be,
    such a byte (other than [/] and [>]) where an attribute name should be,
    and a [/] that is not followed by [>], white space apart.  [parse]
    returns the error of the start tag unchanged, after it has emitted the
    text before the tag. *)
Theorem X9_start_tag_errors (ws0 run ws1 ws2 : bytes) (c : ascii) (r : bytes) :
  forallb whitespaceF ws0 = true -> forallb whitespaceF ws1 = true ->
  forallb whitespaceF ws2 = true -> whitespaceF c = false ->
  ident_run run = true -> nonempty run = true -> ident_name run <> [] ->
  (identInvalidF c = true ->
   parseStartTag ("<"%char :: ws0 ++ c :: r) = Err (UnexpectedInOpeningTag c)) /\
  (identInvalidF c = true -> c <> "/"%char -> c <> ">"%char ->
   parseStartTag ("<"%char :: ws0 ++ run ++ ws1 ++ c :: r)
     = Err (UnexpectedInOpeningNamed c (ident_name run))) /\
  (c <> ">"%char ->
   parseStartTag ("<"%char :: ws0 ++ run ++ ws1 ++ "/"%char :: ws2 ++ c :: r)
     = Err (UnexpectedSlash (ident_name run))) /\
  (forall fuel parent root pre c0 t e,
     lacks "<" pre = true -> c0 <> "/"%char -> c0 <> "!"%char ->
     parseStartTag ("<"%char :: c0 :: t) = Err e ->
     parse (S fuel) parent root (pre ++ "<"%char :: c0 :: t)
       = (textNode parent pre, Err e)).
Proof.
  intros Hws0 Hws1 Hws2 Hnws Hrun Hne Hname.
  split; [|split; [|split]].
  - now apply start_tag_no_name.
  - now apply start_tag_no_attr_name.
  - now apply start_tag_stray_slash.
  - intros. now apply parse_start_tag_error.
Qed.

(** ** One attribute, in each of its forms *)

(** One iteration of the attribute loop on an attribute without a value,
    followed by the end of the tag. *)
Lemma parseAttrs_bare (fuel : nat) (node : Node) (key ws : bytes) (c : ascii)
  (r : bytes) :
  ident_run key = true -> nonempty key = true -> ident_name key <> [] ->
  forallb whitespaceF ws = true -> c = "/"%char \/ c = ">"%char ->
  parseAttrs (S (S fuel)) node (key ++ ws ++ c :: r)
    = Ok (append_Attr node (mkAttribute (ident_name key) []), c :: r).
Proof.
  intros Hrun Hne Hname Hws Hc.
  assert (Hinv : identInvalidF c = true) by (destruct Hc as [-> | ->]; reflexivity).
  assert (Hnws : whitespaceF c = false) by (destruct Hc as [-> | ->]; reflexivity).
  assert (Heq : Ascii.eqb c "="%char = false) by (destruct Hc as [-> | ->]; reflexivity).
  destruct (first_invalid ws c r Hws Hinv) as (x & t & Hxt & Hx).
  cbn [parseAttrs].
  destruct key as [|k ks] eqn:Hkey; [discriminate|].
  destruct (ident_run_first k ks Hrun) as (Hk1 & Hk2 & _).
  cbn [app]. rewrite at_index_cons. cbn [bind]. rewrite Hk1, Hk2. cbn [negb andb].
  change (k :: ks ++ ?u) with ((k :: ks) ++ u).
  rewrite Hxt, (nextIdent_stop (k :: ks) x t Hrun Hne Hx), <- Hxt. cbn [bind].
  rewrite (bytes_eqb_neq _ _ Hname).
  rewrite (skipSpace_run_stop ws c r Hws Hnws), at_index_cons. cbn [bind].
  rewrite Heq. cbn [bind]. rewrite !(skipSpace_stop c r Hnws).
  rewrite at_index_cons. cbn [bind].
  destruct Hc; subst c; reflexivity.
Qed.

(** One iteration on an attribute with a value, whatever its form, followed
    by the end of the tag. *)
Lemma parseAttrs_valued (fuel : nat) (node : Node) (key ws1 vtext v after : bytes)
  (c : ascii) (r : bytes) :
  ident_run key = true -> nonempty key = true -> ident_name key <> [] ->
  forallb whitespaceF ws1 = true ->
  nextValue (skipSpace vtext) = Ok (v, after) ->
  skipSpace after = c :: r -> c = "/"%char \/ c = ">"%char ->
  parseAttrs (S (S fuel)) node (key ++ ws1 ++ "="%char :: vtext)
    = Ok (append_Attr node (mkAttribute (ident_name key) v), c :: r).
Proof.
  intros Hrun Hne Hname Hws Hval Hafter Hc.
  destruct (first_invalid ws1 "="%char vtext Hws eq_refl) as (x & t & Hxt & Hx).
  cbn [parseAttrs].
  destruct key as [|k ks] eqn:Hkey; [discriminate|].
  destruct (ident_run_first k ks Hrun) as (Hk1 & Hk2 & _).
  cbn [app]. rewrite at_index_cons. cbn [bind]. rewrite Hk1, Hk2. cbn [negb andb].
  change (k :: ks ++ ?u) with ((k :: ks) ++ u).
  rewrite Hxt, (nextIdent_stop (k :: ks) x t Hrun Hne Hx), <- Hxt. cbn [bind].
  rewrite (bytes_eqb_neq _ _ Hname).
  rewrite (skipSpace_run_stop ws1 "="%char vtext Hws eq_refl), at_index_cons.
  cbn [bind Ascii.eqb Bool.eqb]. rewrite slice_1. cbn [bind].
  rewrite Hval. cbn [bind]. rewrite skipSpace_idem, Hafter.
  rewrite at_index_cons. cbn [bind].
  destruct Hc; subst c; reflexivity.
Qed.

Lemma unquoted_head (v : bytes) (d : ascii) :
  nonempty v = true -> forallb (fun x => negb (unquotInvalidF x)) v = true ->
  is_quote (hd d v) = false /\ whitespaceF (hd d v) = false.
Proof.
  destruct v as [|x v]; [discriminate|]. intros _. cbn [forallb hd].
  rewrite andb_true_iff, negb_true_iff. intros [Hx _].
  unfold unquotInvalidF in Hx. rewrite !orb_false_iff in Hx.
  unfold is_quote. rewrite orb_false_iff. tauto.
Qed.

(** The closing [>] of a tag with one attribute. *)
Lemma start_tag_one_attr (run : bytes) (atext : bytes) (a : Attribute) (rest : bytes) :
  ident_run run = true -> nonempty run = true -> ident_name run <> [] ->
  nonempty atext = true ->
  (forall fuel node,
     parseAttrs (S (S fuel)) node atext = Ok (append_Attr node a, ">"%char :: rest)) ->
  whitespaceF (hd " "%char atext) = false ->
  parseStartTag ("<"%char :: run ++ " "%char :: atext)
    = Ok (mkNode ElementNode (ident_name run) (Lookup (asciiLower run)) [a] [],
          false, rest).
Proof.
  intros Hrun Hne Hname Hat Hloop Hhd.
  assert (Hws : forallb whitespaceF [] = true) by reflexivity.
  change ("<"%char :: run ++ " "%char :: atext)
    with ("<"%char :: [] ++ run ++ " "%char :: atext).
  open_name Hws Hrun Hne Hname (eq_refl : identInvalidF " "%char = true).
  change (skipSpace (" "%char :: atext)) with (skipSpace atext).
  destruct atext as [|x t]; [discriminate|]. cbn [hd] in Hhd.
  rewrite (skipSpace_stop x t Hhd). cbn [List.length].
  rewrite Hloop. cbn [bind]. rewrite at_index_cons.
  cbn [bind Ascii.eqb Bool.eqb negb]. rewrite slice_1. reflexivity.
Qed.

(** X19.  The forms of an attribute.  A name alone is an attribute with the
    empty value.  After [=], with white space allowed on both sides, a value
    in single or in double quotes is the bytes between the quotes, and a
    value without quotes is the run of bytes up to the white space or the
    [>] that ends it. *)
Theorem X19_attribute_forms (run key ws1 ws2 ws3 v rest : bytes) :
  ident_run run = true -> nonempty run = true -> ident_name run <> [] ->
  ident_run key = true -> nonempty key = true -> ident_name key <> [] ->
  forallb whitespaceF ws1 = true -> forallb whitespaceF ws2 = true ->
  forallb whitespaceF ws3 = true ->
  let elem (val : bytes) :=
    mkNode ElementNode (ident_name run) (Lookup (asciiLower run))
           [mkAttribute (ident_name key) val] [] in
  parseStartTag ("<"%char :: run ++ " "%char :: key ++ ws3 ++ ">"%char :: rest)
    = Ok (elem [], false, rest) /\
  (forall q, is_quote q = true -> lacks q v = true ->
     parseStartTag
       ("<"%char :: run ++ " "%char :: key ++ ws1 ++ "="%char :: ws2
          ++ q :: v ++ q :: ws3 ++ ">"%char :: rest)
       = Ok (elem v, false, rest)) /\
  (nonempty v = true -> forallb (fun x => negb (unquotInvalidF x)) v = true ->
   parseStartTag
     ("<"%char :: run ++ " "%char :: key ++ ws1 ++ "="%char :: ws2
        ++ v ++ ws3 ++ ">"%char :: rest)
     = Ok (elem v, false, rest)).
Proof.
  intros Hrun Hne Hname Hkrun Hkne Hkname Hws1 Hws2 Hws3 elem. subst elem.
  assert (Hkhd : forall u, nonempty (key ++ u) = true /\
                           whitespaceF (hd " "%char (key ++ u)) = false).
  { intros u. destruct key as [|k ks]; [discriminate|]. split; [reflexivity|].
    now destruct (ident_run_first k ks Hkrun) as (_ & _ & H). }
  split; [|split].
  - apply start_tag_one_attr; auto; try apply Hkhd.
    intros fuel node. apply parseAttrs_bare; auto.
  - intros q Hq Hv. apply start_tag_one_attr; auto; try apply Hkhd.
    intros fuel node.
    apply parseAttrs_valued with (after := ws3 ++ ">"%char :: rest); auto.
    + assert (Hqws : whitespaceF q = false).
      { unfold is_quote in Hq. apply orb_true_iff in Hq.
        destruct Hq as [Hq|Hq]; apply Ascii.eqb_eq in Hq; subst q; reflexivity. }
      rewrite (skipSpace_run_stop ws2 q _ Hws2 Hqws).
      now apply nextValue_quoted.
    + now apply skipSpace_before_gt.
  - intros Hvne Hv. apply start_tag_one_attr; auto; try apply Hkhd.
    intros fuel node.
    apply parseAttrs_valued with (after := ws3 ++ ">"%char :: rest); auto.
    + assert (Hd : exists d t, ws3 ++ ">"%char :: rest = d :: t /\ unquotInvalidF d = true).
      { destruct ws3 as [|w ws3']; [exists ">"%char, rest; auto|].
        exists w, (ws3' ++ ">"%char :: rest). split; [reflexivity|].
        simpl in Hws3. apply andb_true_iff in Hws3. destruct Hws3 as [Hw _].
        unfold unquotInvalidF. now rewrite Hw. }
      destruct Hd as (d & t & Hdt & Hd). rewrite Hdt.
      destruct (unquoted_head v d Hvne Hv) as [Hq Hw].
      destruct v as [|x v']; [discriminate|]. cbn [hd] in Hq, Hw.
      change ((x :: v') ++ d :: t) with (x :: v' ++ d :: t).
      rewrite (skipSpace_run_stop ws2 x _ Hws2 Hw).
      change (x :: v' ++ d :: t) with ((x :: v') ++ d :: t).
      now apply nextValue_unquoted.
    + now apply skipSpace_before_gt.
Qed.

End StartTagFacts.

Lemma X7_attributes_read_back_witness :
  @parseStartTag Sample.env (B "<A HREF=" ++ ["034"%char] ++ B "x y" ++ ["034"%char] ++ B "/>z")
    = Ok (mkNode ElementNode (B "a") 20%N [mkAttribute (B "href") (B "x y")] [],
          true, B "z").
Proof.
  apply (@X7_attributes_read_back Sample.env (B "A")
           [mkAttribute (B "HREF") (B "x y")] true (B "z")).
  - reflexivity.
  - reflexivity.
  - vm_compute. discriminate.
  - constructor; [|constructor].
    repeat split; vm_compute; congruence.
Defined.

Lemma X8_start_tag_white_space_witness :
  @parseStartTag Sample.env (B "< br / >z") = Ok (@element Sample.env (B "br"), true, B "z").
Proof.
  apply (@X8_start_tag_white_space Sample.env (B " ") (B "br") (B " ") (B " ") true (B "z"));
    try reflexivity.
  vm_compute. discriminate.
Defined.

Lemma X9_start_tag_errors_witness :
  @parseStartTag Sample.env (B "<a =b>") = Err (UnexpectedInOpeningNamed "="%char (B "a")).
Proof.
  apply (@X9_start_tag_errors Sample.env [] (B "a") (B " ") [] "="%char (B "b>"));
    try reflexivity; vm_compute; discriminate.
Defined.

Lemma X19_attribute_forms_witness :
  @parseStartTag Sample.env (B "<a b = 'x>y' >z")
    = Ok (mkNode ElementNode (B "a") 20%N [mkAttribute (B "b") (B "x>y")] [],
          false, B "z").
Proof.
  refine (proj1 (proj2 (@X19_attribute_forms Sample.env (B "a") (B "b") (B " ")
                          (B " ") (B " ") (B "x>y") (B "z") _ _ _ _ _ _ _ _ _))
                "'"%char eq_refl eq_refl);
    try reflexivity; vm_compute; discriminate.
Defined.

(** * Further properties of the tree builder *)

Section BuilderFacts.
Context {E : Env}.

(** ** Closing tags that are not well formed *)

Lemma end_tag_no_name (start : option Node) (c : ascii) (r : bytes) :
  identInvalidF c = true ->
  parseEndTag start ("<"%char :: "/"%char :: c :: r) = Err (UnexpectedInClosingTag c).
Proof.
  intros Hc. unfold parseEndTag.
  rewrite (proj2 (slice_2 "<"%char "/"%char (c :: r))). cbn [bind].
  rewrite (nextIdent_scan [] c r eq_refl Hc). cbn [nonempty bind].
  rewrite bytes_eqb_refl, at_index_cons. reflexivity.
Qed.

(** X10.  A [</] that is followed at once by a byte that cannot begin a
    name (white space included: none is skipped there) is a fatal error that
    names the byte, in tag mode at any depth and in raw-text mode alike; in
    raw-text mode the two bytes are not taken as text. *)
Theorem X10_end_tag_without_name (c : ascii) (r : bytes) :
  identInvalidF c = true ->
  (forall start,
     parseEndTag start ("<"%char :: "/"%char :: c :: r)
       = Err (UnexpectedInClosingTag c)) /\
  (forall fuel parent root pre,
     lacks "<" pre = true ->
     parse (S fuel) parent root (pre ++ "<"%char :: "/"%char :: c :: r)
       = (textNode parent pre, Err (UnexpectedInClosingTag c))) /\
  (forall fuel parent escapable pre buf,
     lacks "<" pre = true ->
     parseRaw_loop (S fuel) parent escapable (pre ++ "<"%char :: "/"%char :: c :: r) buf
       = (parent, Err (UnexpectedInClosingTag c))).
Proof.
  intros Hc. split; [|split].
  - intros start. now apply end_tag_no_name.
  - intros fuel parent root pre Hpre.
    rewrite (parse_step_close fuel parent root pre (c :: r) Hpre). cbv zeta.
    now rewrite end_tag_no_name.
  - intros fuel parent escapable pre buf Hpre.
    rewrite (parseRaw_step_close fuel parent escapable pre (c :: r) buf Hpre).
    now rewrite end_tag_no_name.
Qed.

Lemma end_tag_junk (parent : Node) (run ws : bytes) (c : ascii) (r : bytes) :
  ident_run run = true -> nonempty run = true -> ident_name run <> [] ->
  forallb whitespaceF ws = true -> whitespaceF c = false -> c <> ">"%char ->
  (ws = [] -> identInvalidF c = true) ->
  tag_matches parent (ident_name run) (Lookup (asciiLower run)) = true ->
  parseEndTag (Some parent) ("<"%char :: "/"%char :: run ++ ws ++ c :: r)
    = Err (UnexpectedInClosingNamed c (ident_name run)).
Proof.
  intros Hrun Hne Hname Hws Hnws Hg Hinv Hm.
  assert (Hhd : exists x t, ws ++ c :: r = x :: t /\ identInvalidF x = true).
  { destruct ws as [|w ws'].
    - exists c, r. split; [reflexivity|]. now apply Hinv.
    - exists w, (ws' ++ c :: r). split; [reflexivity|].
      simpl in Hws. apply andb_true_iff in Hws. now apply whitespace_identInvalid. }
  destruct Hhd as (x & t & Hxt & Hx).
  rewrite (parseEndTag_scan (Some parent) (run ++ ws ++ c :: r) (ident_name run)
             (Lookup (asciiLower run)) (ws ++ c :: r)).
  - rewrite end_mismatch_matches, Hm. cbn [negb].
    rewrite (skipSpace_run_stop ws c r Hws Hnws), at_index_cons. cbn [bind].
    apply Ascii.eqb_neq in Hg. now rewrite Hg.
  - rewrite Hxt. now apply nextIdent_stop.
  - exact Hname.
Qed.

(** X11.  A closing tag whose name matches the open element but which
    goes on with something other than white space and [>] is a fatal error
    that names the byte and the tag, in tag mode below the root and in
    raw-text mode. *)
Theorem X11_end_tag_with_junk (parent : Node) (run ws : bytes) (c : ascii)
  (r : bytes) :
  ident_run run = true -> nonempty run = true -> ident_name run <> [] ->
  forallb whitespaceF ws = true -> whitespaceF c = false -> c <> ">"%char ->
  (ws = [] -> identInvalidF c = true) ->
  tag_matches parent (ident_name run) (Lookup (asciiLower run)) = true ->
  (forall fuel pre,
     lacks "<" pre = true ->
     parse (S fuel) parent false (pre ++ "<"%char :: "/"%char :: run ++ ws ++ c :: r)
       = (textNode parent pre,
          Err (UnexpectedInClosingNamed c (ident_name run)))) /\
  (forall fuel escapable pre buf,
     lacks "<" pre = true ->
     parseRaw_loop (S fuel) parent escapable
                   (pre ++ "<"%char :: "/"%char :: run ++ ws ++ c :: r) buf
       = (parent, Err (UnexpectedInClosingNamed c (ident_name run)))).
Proof.
  intros Hrun Hne Hname Hws Hnws Hg Hinv Hm. split.
  - intros fuel pre Hpre.
    rewrite (parse_step_close fuel parent false pre _ Hpre). cbv zeta.
    rewrite (end_tag_junk (textNode parent pre) run ws c r); auto.
    now rewrite tag_matches_textNode.
  - intros fuel escapable pre buf Hpre.
    rewrite (parseRaw_step_close fuel parent escapable pre _ buf Hpre).
    now rewrite (end_tag_junk parent run ws c r).
Qed.

(** ** The end of the input right after [<] *)

Lemma lacks_lt_index (pre : bytes) (r : bytes) :
  lacks "<" pre = true ->
  (IndexByte (pre ++ "<"%char :: r) "<" <? 0) = false /\
  slice_to (pre ++ "<"%char :: r) (IndexByte (pre ++ "<"%char :: r) "<") = Ok pre /\
  slice_from (pre ++ "<"%char :: r) (IndexByte (pre ++ "<"%char :: r) "<")
    = Ok ("<"%char :: r).
Proof. apply find_lt. Qed.

(** X12.  When the input ends with [<], the error is "unexpected end of
    file in opening tag" in tag mode, the document root included, and in
    raw-text mode: a final [<] is never text.  When it ends with [<!] in tag
    mode the error is "unexpected end of file in comment tag".  The text
    before the [<] has been emitted in tag mode. *)
Theorem X12_input_ends_in_tag_opener (fuel : nat) (parent : Node) (pre : bytes) :
  lacks "<" pre = true ->
  (forall root,
     parse (S fuel) parent root (pre ++ B "<")
       = (textNode parent pre, Err EOFInOpeningTag)) /\
  (forall escapable buf,
     parseRaw_loop (S fuel) parent escapable (pre ++ B "<") buf
       = (parent, Err EOFInOpeningTag)) /\
  (forall root,
     parse (S fuel) parent root (pre ++ B "<!")
       = (textNode parent pre, Err EOFInCommentTag)).
Proof.
  intros Hpre. split; [|split].
  - intros root. cbn [parse B list_ascii_of_string].
    destruct (lacks_lt_index pre [] Hpre) as (H1 & H2 & H3).
    rewrite H1, H2, H3. reflexivity.
  - intros escapable buf. cbn [parseRaw_loop B list_ascii_of_string].
    destruct (lacks_lt_index pre [] Hpre) as (H1 & H2 & H3).
    rewrite H1, H2, H3. reflexivity.
  - intros root. cbn [B list_ascii_of_string].
    rewrite (parse_step_decl fuel parent root pre [] Hpre). reflexivity.
Qed.

(** ** What the builder leaves alone *)

(** X13.  Whatever the input and the outcome, [Parse] only appends to the
    node it is given: the node's type, data, atom and attributes are
    unchanged and the children it had are still there, in their order, before
    the new ones. *)
Theorem X13_Parse_only_appends (parent : Node) (text : bytes) :
  Type_ (fst (Parse parent text)) = Type_ parent /\
  Data (fst (Parse parent text)) = Data parent /\
  DataAtom (fst (Parse parent text)) = DataAtom parent /\
  Attr (fst (Parse parent text)) = Attr parent /\
  exists later,
    Children (fst (Parse parent text)) = Children parent ++ later.
Proof.
  destruct (parse_appends (S (List.length text)) parent true text) as (l & Hl).
  unfold Parse. rewrite Hl. cbn. repeat split. now exists l.
Qed.

(** ** Progress *)

(** X14.  Every iteration of the loops of [parse] and [parseRaw] consumes
    input: a budget of more iterations than the text has bytes is never
    used up, so [Parse] returns, with a value, an error or a panic, after
    at most [len(text) + 1] iterations of each loop; and the cursor a
    successful call leaves is not longer than the text it was given
    (strictly shorter for [parseRaw]). *)
Theorem X14_loops_consume_input (fuel : nat) (parent : Node) (root escapable : bool)
  (text buf : bytes) :
  len text < Z.of_nat fuel ->
  snd (parse fuel parent root text) <> OutOfFuel /\
  snd (parseRaw_loop fuel parent escapable text buf) <> OutOfFuel /\
  snd (Parse parent text) <> OutOfFuel /\
  (forall parent' text',
     parse fuel parent root text = (parent', Ok text') -> len text' <= len text) /\
  (forall parent' text',
     parseRaw_loop fuel parent escapable text buf = (parent', Ok text') ->
     len text' < len text).
Proof.
  intros Hfuel. split; [now apply parse_fuel|]. split; [now apply parseRaw_loop_fuel|].
  split; [apply parse_total|]. split.
  - intros parent' text'. apply parse_length.
  - intros parent' text'. apply parseRaw_loop_length.
Qed.

(** ** A whole element *)

Lemma tag_matches_self (run run' : bytes) :
  asciiLower run' = asciiLower run ->
  tag_matches (element run) (ident_name run') (Lookup (asciiLower run')) = true.
Proof.
  intros H. unfold tag_matches, element, ident_name. rewrite H.
  cbn [Data DataAtom].
  destruct (Lookup (asciiLower run) =? 0)%N eqn:Hz; cbn [andb].
  - apply bytes_eqb_refl.
  - apply N.eqb_refl.
Qed.

Lemma nonempty_fold_eq (run run' : bytes) :
  asciiLower run' = asciiLower run -> nonempty run' = nonempty run.
Proof.
  intros H. rewrite <- (nonempty_lower run), <- (nonempty_lower run'). now rewrite H.
Qed.

Lemma ident_name_fold_eq (run run' : bytes) :
  asciiLower run' = asciiLower run -> ident_name run' = ident_name run.
Proof. intros H. unfold ident_name. now rewrite H. Qed.

(** The closing tag of a raw-text element whose body has no [<]. *)
Lemma parseRaw_closed (fuel : nat) (parent : Node) (escapable : bool)
  (body run ws rest buf : bytes) :
  lacks "<" body = true ->
  ident_run run = true -> nonempty run = true -> ident_name run <> [] ->
  forallb whitespaceF ws = true ->
  tag_matches parent (ident_name run) (Lookup (asciiLower run)) = true ->
  parseRaw_loop (S fuel) parent escapable
                (body ++ "<"%char :: "/"%char :: run ++ ws ++ ">"%char :: rest) buf
    = (rawText parent escapable (buf ++ body), Ok rest).
Proof.
  intros Hbody Hrun Hne Hname Hws Hm.
  rewrite (parseRaw_step_close fuel parent escapable body _ buf Hbody).
  rewrite (parseEndTag_name (Some parent) run ws rest Hrun Hne Hname Hws).
  now rewrite end_mismatch_matches, Hm.
Qed.

(** An element with a body without markup, from its start tag to its
    closing tag. *)
Lemma parse_whole_element (fuel : nat) (parent : Node) (root : bool)
  (pre run run' ws body rest : bytes) :
  lacks "<" pre = true -> lacks "<" body = true ->
  ident_run run = true -> nonempty run = true ->
  hd "a"%char run <> "!"%char -> ident_name run <> [] ->
  ident_run run' = true -> asciiLower run' = asciiLower run ->
  forallb whitespaceF ws = true ->
  categorize (Lookup (asciiLower run)) <> catVoid ->
  parse (S (S fuel)) parent root
        (pre ++ B "<" ++ run ++ B ">" ++ body ++ B "</" ++ run' ++ ws ++ B ">" ++ rest)
    = parse (S fuel)
            (AppendChild (textNode parent pre)
               (match categorize (Lookup (asciiLower run)) with
                | catRaw => rawText (element run) false body
                | catEscapableRaw => rawText (element run) true body
                | _ => textNode (element run) body
                end))
            root rest.
Proof.
  intros Hpre Hbody Hrun Hne Hbang Hname Hrun' Hfold Hws Hvoid.
  pose proof (nonempty_fold_eq run run' Hfold) as Hne'. rewrite Hne in Hne'.
  pose proof (ident_name_fold_eq run run' Hfold) as Hname'.
  assert (Hname2 : ident_name run' <> []) by (rewrite Hname'; exact Hname).
  cbn [B list_ascii_of_string app].
  destruct run as [|c run0] eqn:Hr; [discriminate|]. rewrite <- Hr in *.
  destruct (ident_run_head c run0) as (_ & Hslash & _);
    [rewrite <- Hr; exact Hrun|].
  assert (Hc : c <> "!"%char) by (rewrite Hr in Hbang; exact Hbang).
  rewrite Hr at 1. cbn [app].
  rewrite (parse_step_open (S fuel) parent root pre c _ Hpre Hslash Hc). cbv zeta.
  change ("<"%char :: c :: run0 ++ ?t) with ("<"%char :: (c :: run0) ++ t).
  rewrite <- Hr.
  pose proof (parseStartTag_name run false
                (body ++ "<"%char :: "/"%char :: run' ++ ws ++ ">"%char :: rest)
                Hrun Hne Hname) as Hst.
  cbn [app] in Hst. rewrite Hst. clear Hst.
  cbn [element DataAtom]. fold (element run).
  destruct (categorize (Lookup (asciiLower run))) eqn:Hcat;
    try (elim Hvoid; reflexivity).
  - (* template *)
    rewrite (parse_step_close fuel (element run) false body _ Hbody). cbv zeta.
    rewrite (parseEndTag_name _ run' ws rest Hrun' Hne' Hname2 Hws).
    rewrite end_mismatch_matches, tag_matches_textNode, (tag_matches_self run run' Hfold).
    reflexivity.
  - (* raw text *)
    unfold parseRaw.
    rewrite (parseRaw_closed fuel (element run) false body run' ws rest []
               Hbody Hrun' Hne' Hname2 Hws (tag_matches_self run run' Hfold)).
    reflexivity.
  - (* escapable raw text *)
    unfold parseRaw.
    rewrite (parseRaw_closed fuel (element run) true body run' ws rest []
               Hbody Hrun' Hne' Hname2 Hws (tag_matches_self run run' Hfold)).
    reflexivity.
  - (* foreign *)
    rewrite (parse_step_close fuel (element run) false body _ Hbody). cbv zeta.
    rewrite (parseEndTag_name _ run' ws rest Hrun' Hne' Hname2 Hws).
    rewrite end_mismatch_matches, tag_matches_textNode, (tag_matches_self run run' Hfold).
    reflexivity.
  - (* normal *)
    rewrite (parse_step_close fuel (element run) false body _ Hbody). cbv zeta.
    rewrite (parseEndTag_name _ run' ws rest Hrun' Hne' Hname2 Hws).
    rewrite end_mismatch_matches, tag_matches_textNode, (tag_matches_self run run' Hfold).
    reflexivity.
Qed.

(** X15.  An element that is not void, whose body has no [<] and whose
    closing tag spells the same name in any case, with white space allowed
    before its [>], is parsed into the element with its body as the only
    child: decoded text for an ordinary element and for an escapable raw-text
    element, the bytes verbatim for a raw-text element, and no child when
    the body is empty.  The parent's loop goes on after the closing tag. *)
Theorem X15_element_round_trip (fuel : nat) (parent : Node) (root : bool)
  (pre run run' ws body rest : bytes) :
  lacks "<" pre = true -> lacks "<" body = true ->
  ident_run run = true -> nonempty run = true ->
  hd "a"%char run <> "!"%char -> ident_name run <> [] ->
  ident_run run' = true -> asciiLower run' = asciiLower run ->
  forallb whitespaceF ws = true ->
  categorize (Lookup (asciiLower run)) <> catVoid ->
  parse (S (S fuel)) parent root
        (pre ++ B "<" ++ run ++ B ">" ++ body ++ B "</" ++ run' ++ ws ++ B ">" ++ rest)
    = parse (S fuel)
            (AppendChild (textNode parent pre)
               (match categorize (Lookup (asciiLower run)) with
                | catRaw => rawText (element run) false body
                | catEscapableRaw => rawText (element run) true body
                | _ => textNode (element run) body
                end))
            root rest.
Proof.
  intros Hpre Hbody Hrun Hne Hbang Hname Hrun' Hfold Hws Hvoid.
  now apply parse_whole_element.
Qed.

(** ** A literal [<] in raw text *)

(** X16.  In raw-text mode a [<] that is not followed by [/] is text, and
    so is the byte after it, which is consumed without being looked at.  So
    when that byte is itself a [<], a closing tag that begins there is not
    seen: if no further [<] follows, the element is reported as unclosed. *)
Theorem X16_raw_text_pairs (fuel : nat) (parent : Node) (escapable : bool)
  (pre t buf : bytes) :
  lacks "<" pre = true ->
  (forall c, c <> "/"%char ->
     parseRaw_loop (S fuel) parent escapable (pre ++ "<"%char :: c :: t) buf
       = parseRaw_loop fuel parent escapable t ((buf ++ pre) ++ ["<"%char; c])) /\
  (lacks "<" t = true ->
   parseRaw_loop (S (S fuel)) parent escapable (pre ++ "<"%char :: "<"%char :: t) buf
     = (parent, Err (Unclosed (Data parent)))).
Proof.
  intros Hpre. split.
  - intros c Hc. now apply parseRaw_step_other.
  - intros Ht.
    rewrite (parseRaw_step_other (S fuel) parent escapable pre "<"%char t buf Hpre)
      by discriminate.
    now apply parseRaw_step_end.
Qed.

End BuilderFacts.

Lemma X10_end_tag_without_name_witness :
  @parse Sample.env 1 Sample.doc true (B "x</ a>")
    = (@textNode Sample.env Sample.doc (B "x"), Err (UnexpectedInClosingTag " "%char)).
Proof.
  exact (proj1 (proj2 (@X10_end_tag_without_name Sample.env " "%char (B "a>") eq_refl))
           0%nat Sample.doc true (B "x") eq_refl).
Defined.

Lemma X11_end_tag_with_junk_witness :
  @parseRaw_loop Sample.env 1 (@element Sample.env (B "script")) false
     (B "x</script=>") []
    = (@element Sample.env (B "script"),
       Err (UnexpectedInClosingNamed "="%char (B "script"))).
Proof.
  refine (proj2 (@X11_end_tag_with_junk Sample.env (@element Sample.env (B "script"))
                   (B "script") [] "="%char (B ">") _ _ _ _ _ _ _ _)
                0%nat false (B "x") [] eq_refl);
    try reflexivity; vm_compute; discriminate.
Defined.

Lemma X12_input_ends_in_tag_opener_witness :
  @parse Sample.env 1 Sample.doc true (B "x<")
    = (@textNode Sample.env Sample.doc (B "x"), Err EOFInOpeningTag).
Proof.
  exact (proj1 (@X12_input_ends_in_tag_opener Sample.env 0 Sample.doc (B "x") eq_refl)
           true).
Defined.

Lemma X14_loops_consume_input_witness :
  snd (@parse Sample.env 5 Sample.doc true (B "<a>b")) <> OutOfFuel.
Proof.
  apply (@X14_loops_consume_input Sample.env 5 Sample.doc true false (B "<a>b") []).
  vm_compute. reflexivity.
Defined.

Lemma X15_element_round_trip_witness :
  @parse Sample.env 2 Sample.doc true (B "<P>x</p >y")
    = @parse Sample.env 1
        (AppendChild (@textNode Sample.env Sample.doc [])
           (@textNode Sample.env (@element Sample.env (B "P")) (B "x")))
        true (B "y").
Proof.
  apply (@X15_element_round_trip Sample.env 0 Sample.doc true
           [] (B "P") (B "p") (B " ") (B "x") (B "y"));
    try reflexivity; vm_compute; discriminate.
Defined.

Lemma X16_raw_text_pairs_witness :
  @parseRaw_loop Sample.env 2 (@element Sample.env (B "script")) false
     (B "a<</script>") []
    = (@element Sample.env (B "script"), Err (Unclosed (B "script"))).
Proof.
  exact (proj2 (@X16_raw_text_pairs Sample.env 0 (@element Sample.env (B "script"))
                  false (B "a") (B "/script>") [] eq_refl) eq_refl).
Defined.

(** * Further properties of the arena *)

Module ArenaLayout.
Import Arena ArenaFacts.
Local Open Scope nat_scope.

Section Layout.
Context {T : Type} (zero : T).

Lemma run_snoc (ops : list (op (T:=T))) (o : op) :
  run zero (ops ++ [o]) = step zero (run zero ops) o.
Proof. unfold run. now rewrite fold_left_app. Qed.

Lemma repeat_snoc {A : Type} (a : A) (n : nat) : repeat a (S n) = repeat a n ++ [a].
Proof. induction n as [|n IH]; [reflexivity|]. simpl in *. now rewrite <- IH. Qed.

(** One parser allocating [n] nodes from a fresh arena. *)
Lemma allocs_state (n : nat) :
  forall q r, n = arenaSize * q + r -> r < arenaSize ->
  let w := run zero (repeat AllocLeft n) in
  List.length (w_heap w) = q + (if Nat.eqb r 0 then 0 else 1) /\
  alen (w_left w) = (if Nat.eqb r 0 then 0 else arenaSize - r) /\
  (r <> 0 -> backing (w_left w) = q /\ offset (w_left w) = r).
Proof.
  unfold arenaSize. induction n as [|n IH]; intros q r Hn Hr.
  - assert (q = 0 /\ r = 0) as [-> ->] by lia. cbn. repeat split; intros; lia.
  - rewrite repeat_snoc, run_snoc. cbv zeta. cbn [step]. unfold alloc_left.
    destruct (Nat.eq_dec r 0) as [Hr0|Hr0].
    + subst r. assert (Hq : q <> 0) by lia.
      destruct (IH (q - 1) 63) as (Hlen & Halen & Hbo); [lia|lia|].
      cbn [Nat.eqb] in Hlen, Halen. cbv zeta in Hlen, Halen, Hbo.
      rewrite (newNode_available zero) by lia. cbn [fst w_heap w_left alen].
      rewrite Hlen, Halen. cbn [Nat.eqb]. repeat split; lia.
    + destruct (Nat.eq_dec r 1) as [Hr1|Hr1].
      * subst r. destruct (IH q 0) as (Hlen & Halen & _); [lia|lia|].
        cbn [Nat.eqb] in Hlen, Halen. cbv zeta in Hlen, Halen.
        rewrite (newNode_exhausted zero) by exact Halen.
        cbn [fst w_heap w_left alen backing offset].
        rewrite length_app, Hlen. cbn [List.length Nat.eqb].
        unfold arenaSize. repeat split; lia.
      * destruct (IH q (r - 1)) as (Hlen & Halen & Hbo); [lia|lia|].
        cbv zeta in Hlen, Halen, Hbo.
        destruct (Nat.eqb_spec (r - 1) 0) as [Hz|Hz]; [lia|].
        destruct (Hbo Hz) as [Hb Ho].
        rewrite (newNode_available zero) by lia.
        cbn [fst w_heap w_left alen backing offset].
        rewrite Hlen, Halen, Hb, Ho.
        destruct (Nat.eqb_spec r 0) as [Hz'|Hz']; [lia|].
        repeat split; lia.
Qed.

(** X17.  A fresh arena hands out its slots in sequence: the request
    number [64 q + r], counting from [0] with [r < 64], is served from slot
    [r] of the backing array number [q], and after it the heap holds exactly
    [q + 1] arrays.  So sixty-four consecutive nodes share one array and an
    array is made only when the one before it is used up. *)
Theorem X17_arena_sequential (q r : nat) :
  r < arenaSize ->
  let w := run zero (repeat AllocLeft (arenaSize * q + r)) in
  snd (alloc_left zero w) = mkPtr q r /\
  List.length (w_heap (fst (alloc_left zero w))) = S q.
Proof.
  intros Hr w.
  destruct (allocs_state (arenaSize * q + r) q r eq_refl Hr) as (Hlen & Halen & Hbo).
  fold w in Hlen, Halen, Hbo. unfold alloc_left.
  destruct (Nat.eqb_spec r 0) as [Hz|Hz].
  - subst r. rewrite (newNode_exhausted zero) by exact Halen.
    cbn [fst snd w_heap]. rewrite length_app, Hlen. cbn [List.length].
    split; [f_equal; lia|lia].
  - destruct (Hbo Hz) as [Hb Ho]. unfold arenaSize in *.
    rewrite (newNode_available zero) by lia.
    cbn [fst snd w_heap]. rewrite Hb, Ho, Hlen. split; [reflexivity|lia].
Qed.

(** ** Addresses stay valid *)

Lemma load_store_same (h : heap (T:=T)) (p : ptr) (v old : T) :
  load h p = Some old -> load (store h p v) p = Some v.
Proof.
  unfold load, store. rewrite nth_error_update_same.
  destruct (nth_error h (block p)) as [b|]; [|discriminate]. cbn [option_map].
  rewrite nth_error_update_same. intros ->. reflexivity.
Qed.

Lemma load_store_some (h : heap (T:=T)) (p q : ptr) (v old : T) :
  load h q = Some old -> exists x, load (store h p v) q = Some x.
Proof.
  intros H. destruct (ptr_eqb p q) eqn:Hpq.
  - apply ptr_eqb_eq in Hpq. subst q. exists v. now apply load_store_same with old.
  - exists old. rewrite load_store_other; [exact H|].
    intros ->. assert (Ht : ptr_eqb q q = true) by now apply ptr_eqb_eq.
    congruence.
Qed.

Lemma alloc_keeps_loadable (h : heap (T:=T)) (known : list ptr) (a o : arena) :
  unissued zero h known a -> unissued zero h known o ->
  (0 < alen a -> 0 < alen o -> backing a <> backing o) ->
  (forall p, In p known -> block p < List.length h) ->
  (forall p, In p known -> exists x, load h p = Some x) ->
  forall p, In p (snd (newNode zero h a) :: known) ->
            exists x, load (fst (fst (newNode zero h a))) p = Some x.
Proof.
  intros Ha Ho Hd Hk Hload p Hp.
  pose proof (newNode_spec zero h known a o Ha Ho Hd Hk) as Hspec.
  destruct (Nat.eq_dec (alen a) 0) as [Hz|Hz].
  - rewrite (newNode_exhausted zero h a Hz) in *. cbn [fst snd] in *.
    destruct Hspec as (_ & Hnew & _).
    destruct Hp as [<-|Hp]; [now exists zero|].
    destruct (Hload p Hp) as (x & Hx). exists x.
    rewrite load_app_old; [exact Hx|now apply Hk].
  - rewrite (newNode_available zero h a) in * by lia. cbn [fst snd] in *.
    destruct Hspec as (_ & Hnew & _).
    destruct Hp as [<-|Hp]; [now exists zero|now apply Hload].
Qed.

Lemma loadable_step (w : world (T:=T)) (o : op) :
  invariant zero w ->
  (forall p, In p (issued w) -> exists x, load (w_heap w) p = Some x) ->
  forall p, In p (issued (step zero w o)) ->
            exists x, load (w_heap (step zero w o)) p = Some x.
Proof.
  intros (Hl & Hr & Hd & Hk & Hnd) Hload p. destruct o as [| |q v]; cbn [step].
  - unfold alloc_left.
    pose proof (alloc_keeps_loadable _ _ _ _ Hl Hr Hd Hk Hload p) as H.
    destruct (newNode zero (w_heap w) (w_left w)) as [[h' a'] p0].
    cbn [fst snd w_heap issued_left issued_right] in *.
    unfold issued. cbn [issued_left issued_right]. exact H.
  - unfold alloc_right.
    assert (Hd0 : 0 < alen (w_right w) -> 0 < alen (w_left w) ->
                  backing (w_right w) <> backing (w_left w))
      by (intros ? ? ?; apply Hd; auto).
    pose proof (alloc_keeps_loadable _ _ _ _ Hr Hl Hd0 Hk Hload p) as H.
    destruct (newNode zero (w_heap w) (w_right w)) as [[h' a'] p0].
    cbn [fst snd w_heap issued_left issued_right] in *.
    unfold issued. cbn [issued_left issued_right].
    intros Hp. apply H. apply in_app_or in Hp. unfold issued.
    cbn [In] in *. rewrite in_app_iff. tauto.
  - destruct (existsb (ptr_eqb q) (issued w)); [|apply Hload].
    unfold issued. cbn [w_heap issued_left issued_right].
    intros Hp. destruct (Hload p Hp) as (x & Hx).
    now apply load_store_some with x.
Qed.

Lemma loadable_run (ops : list (op (T:=T))) :
  forall p, In p (issued (run zero ops)) ->
            exists x, load (w_heap (run zero ops)) p = Some x.
Proof.
  induction ops as [|o ops IH] using rev_ind.
  - intros p [].
  - rewrite run_snoc. apply loadable_step; [apply invariant_run|exact IH].
Qed.

Lemma step_heap_grows (w : world (T:=T)) (o : op) :
  List.length (w_heap w) <= List.length (w_heap (step zero w o)).
Proof.
  destruct o as [| |q v]; cbn [step].
  - unfold alloc_left, newNode.
    destruct (Nat.eqb (alen (w_left w)) 0); cbn [fst w_heap make];
      [rewrite length_app|]; lia.
  - unfold alloc_right, newNode.
    destruct (Nat.eqb (alen (w_right w)) 0); cbn [fst w_heap make];
      [rewrite length_app|]; lia.
  - destruct (existsb (ptr_eqb q) (issued w)); cbn [w_heap];
      [rewrite store_length|]; lia.
Qed.

(** X18.  An address [newNode] has returned stays valid whatever the two
    parsers do afterwards: its slot can be read, a value written through it
    is read back, the write changes no other slot, and no operation removes
    a backing array from the heap. *)
Theorem X18_arena_addresses_stay_valid (ops : list (op (T:=T))) (p : ptr) (v : T) :
  let w := run zero ops in
  In p (issued w) ->
  (exists x, load (w_heap w) p = Some x) /\
  load (store (w_heap w) p v) p = Some v /\
  (forall q, q <> p -> load (store (w_heap w) p v) q = load (w_heap w) q) /\
  (forall o, List.length (w_heap w) <= List.length (w_heap (step zero w o))).
Proof.
  intros w Hp. destruct (loadable_run ops p Hp) as (x & Hx). fold w in Hx.
  split; [now exists x|]. split; [now apply load_store_same with x|].
  split; [|intros o; apply step_heap_grows].
  intros q Hq. apply load_store_other. congruence.
Qed.

End Layout.

Lemma X17_arena_sequential_witness :
  snd (alloc_left 0 (run 0 (repeat AllocLeft (arenaSize * 1 + 2)))) = mkPtr 1 2.
Proof.
  apply (X17_arena_sequential 0 1 2). vm_compute. lia.
Defined.

Lemma X18_arena_addresses_stay_valid_witness :
  load (store (w_heap (run 0 [AllocLeft; AllocRight])) (mkPtr 1 0) 5) (mkPtr 1 0)
    = Some 5.
Proof.
  apply (X18_arena_addresses_stay_valid 0 [AllocLeft; AllocRight] (mkPtr 1 0) 5).
  simpl. auto.
Defined.

End ArenaLayout.

(** * Raw-text mode backtracks on a close tag of another name (C2) *)

Section RawFacts.
Context {E : Env}.

(** One iteration of the raw-text loop on a closing tag of another name. *)
Lemma parseRaw_mismatch_step (fuel : nat) (parent : Node) (escapable : bool)
  (pre rest buf : bytes) (elemS : bytes) (elemA : Atom) (after : bytes) :
  lacks "<" pre = true ->
  nextIdent rest = Ok (elemS, elemA, after) ->
  elemS <> [] ->
  tag_matches parent elemS elemA = false ->
  parseRaw_loop (S fuel) parent escapable (pre ++ B "</" ++ rest) buf
    = parseRaw_loop fuel parent escapable rest (buf ++ pre ++ B "</").
Proof.
  intros Hpre Hid Hne Hmis. change (B "</" ++ rest) with ("<"%char :: "/"%char :: rest).
  rewrite (parseRaw_step_close _ _ _ _ _ _ Hpre).
  rewrite (parseEndTag_scan _ _ _ _ _ Hid Hne).
  rewrite end_mismatch_matches, Hmis. cbn [negb].
  now rewrite <- app_assoc.
Qed.

(** The loop from a closing tag of another name to the closing tag of the
    element. *)
Lemma parseRaw_mismatch_then_close (fuel : nat) (parent : Node) (escapable : bool)
  (pre mid run ws tail buf : bytes) (elemS : bytes) (elemA : Atom) (after : bytes) :
  lacks "<" pre = true -> lacks "<" mid = true ->
  nextIdent (mid ++ B "</" ++ run ++ ws ++ B ">" ++ tail) = Ok (elemS, elemA, after) ->
  elemS <> [] -> tag_matches parent elemS elemA = false ->
  ident_run run = true -> nonempty run = true -> ident_name run <> [] ->
  forallb whitespaceF ws = true ->
  tag_matches parent (ident_name run) (Lookup (asciiLower run)) = true ->
  parseRaw_loop (S (S fuel)) parent escapable
                (pre ++ B "</" ++ mid ++ B "</" ++ run ++ ws ++ B ">" ++ tail) buf
    = (rawText parent escapable (buf ++ pre ++ B "</" ++ mid), Ok tail).
Proof.
  intros Hpre Hmid Hid Hne Hmis Hrun Hrne Hname Hws Hm.
  rewrite (parseRaw_mismatch_step (S fuel) parent escapable pre _ buf _ _ _
             Hpre Hid Hne Hmis).
  cbn [B list_ascii_of_string app].
  rewrite (parseRaw_closed fuel parent escapable mid run ws tail _
             Hmid Hrun Hrne Hname Hws Hm).
  now rewrite <- !app_assoc.
Qed.

(** The scan of a name that the input ends in. *)
Lemma parseRaw_truncated_name (fuel : nat) (parent : Node) (escapable : bool)
  (pre rest buf : bytes) :
  lacks "<" pre = true -> ident_run rest = true ->
  parseRaw_loop (S fuel) parent escapable (pre ++ B "</" ++ rest) buf
    = (parent, Panic).
Proof.
  intros Hpre Hrest. change (B "</" ++ rest) with ("<"%char :: "/"%char :: rest).
  rewrite (parseRaw_step_close _ _ _ _ _ _ Hpre).
  unfold parseEndTag. rewrite (proj2 (slice_2 "<"%char "/"%char rest)). cbn [bind].
  now rewrite (nextIdent_panic rest Hrest).
Qed.

(** A raw-text element whose body holds a closing tag of another name. *)
Lemma parse_raw_element (fuel : nat) (outer : Node) (root escapable : bool)
  (pre0 name pre mid run ws tail : bytes) (elemS : bytes) (elemA : Atom)
  (after : bytes) :
  lacks "<" pre0 = true ->
  ident_run name = true -> nonempty name = true ->
  hd "a"%char name <> "!"%char -> ident_name name <> [] ->
  categorize (Lookup (asciiLower name))
    = (if escapable then catEscapableRaw else catRaw) ->
  lacks "<" pre = true -> lacks "<" mid = true ->
  nextIdent (mid ++ B "</" ++ run ++ ws ++ B ">" ++ tail) = Ok (elemS, elemA, after) ->
  elemS <> [] -> tag_matches (element name) elemS elemA = false ->
  ident_run run = true -> nonempty run = true -> ident_name run <> [] ->
  forallb whitespaceF ws = true ->
  tag_matches (element name) (ident_name run) (Lookup (asciiLower run)) = true ->
  parse (S (S (S fuel))) outer root
        (pre0 ++ B "<" ++ name ++ B ">" ++ pre ++ B "</" ++ mid
           ++ B "</" ++ run ++ ws ++ B ">" ++ tail)
    = parse (S (S fuel))
            (AppendChild (textNode outer pre0)
               (rawText (element name) escapable (pre ++ B "</" ++ mid)))
            root tail.
Proof.
  intros Hpre0 Hnrun Hnne Hbang Hnname Hcat Hpre Hmid Hid Hne Hmis Hrun Hrne Hname
         Hws Hm.
  pose proof (parseRaw_mismatch_then_close fuel (element name) escapable pre mid run
                ws tail [] elemS elemA after Hpre Hmid Hid Hne Hmis Hrun Hrne Hname
                Hws Hm) as Hloop.
  cbn [B list_ascii_of_string app] in Hloop |- *.
  destruct name as [|c name0] eqn:Hn; [discriminate|]. rewrite <- Hn in *.
  destruct (ident_run_head c name0) as (_ & Hslash & _);
    [rewrite <- Hn; exact Hnrun|].
  assert (Hc : c <> "!"%char) by (rewrite Hn in Hbang; exact Hbang).
  rewrite Hn at 1. cbn [app].
  rewrite (parse_step_open (S (S fuel)) outer root pre0 c _ Hpre0 Hslash Hc).
  cbv zeta.
  change ("<"%char :: c :: name0 ++ ?t) with ("<"%char :: (c :: name0) ++ t).
  rewrite <- Hn.
  pose proof (parseStartTag_name name false
                (pre ++ "<"%char :: "/"%char :: mid
                   ++ "<"%char :: "/"%char :: run ++ ws ++ ">"%char :: tail)
                Hnrun Hnne Hnname) as Hst.
  cbn [app] in Hst. rewrite Hst. clear Hst.
  cbn [element DataAtom]. fold (element name). rewrite Hcat.
  destruct escapable; unfold parseRaw; rewrite Hloop; reflexivity.
Qed.

End RawFacts.

(** C2.  In raw-text mode, when the next [<] is followed by [/] and the
    close-tag scan yields a name that does not match the element being
    scanned, the iteration does not fail: the loop goes on with the cursor
    exactly two bytes after the [<] (nothing of the failed scan is
    consumed) and with the bytes before the [<] and the two bytes [</]
    appended to the buffer.  So, when the closing tag of the element comes
    next, the loop ends well and the text child of the element holds the
    bytes before the [<], the two bytes [</] and all that followed them up
    to that closing tag, the name that did not match included; and [parse]
    of a raw-text or escapable raw-text element with such a body attaches
    that element and goes on after its closing tag.  (When the input ends
    within the name that follows [</] there is no name to compare: the scan
    panics, as on every input that ends within a tag.) *)
Theorem C2_raw_mismatch_backtracks (E : Env) (fuel : nat) (parent : Node)
  (escapable : bool) (pre rest buf : bytes)
  (elemS : bytes) (elemA : Atom) (after : bytes) :
  lacks "<" pre = true ->
  nextIdent rest = Ok (elemS, elemA, after) ->
  elemS <> [] ->
  tag_matches parent elemS elemA = false ->
  parseRaw_loop (S fuel) parent escapable (pre ++ B "</" ++ rest) buf
    = parseRaw_loop fuel parent escapable rest (buf ++ pre ++ B "</") /\
  (forall mid run ws tail,
     rest = mid ++ B "</" ++ run ++ ws ++ B ">" ++ tail ->
     lacks "<" mid = true ->
     ident_run run = true -> nonempty run = true -> ident_name run <> [] ->
     forallb whitespaceF ws = true ->
     tag_matches parent (ident_name run) (Lookup (asciiLower run)) = true ->
     parseRaw_loop (S (S fuel)) parent escapable (pre ++ B "</" ++ rest) buf
       = (rawText parent escapable (buf ++ pre ++ B "</" ++ mid), Ok tail)) /\
  (forall outer root pre0 name mid run ws tail,
     parent = element name ->
     lacks "<" pre0 = true ->
     ident_run name = true -> nonempty name = true ->
     hd "a"%char name <> "!"%char -> ident_name name <> [] ->
     categorize (Lookup (asciiLower name))
       = (if escapable then catEscapableRaw else catRaw) ->
     rest = mid ++ B "</" ++ run ++ ws ++ B ">" ++ tail ->
     lacks "<" mid = true ->
     ident_run run = true -> nonempty run = true -> ident_name run <> [] ->
     forallb whitespaceF ws = true ->
     tag_matches parent (ident_name run) (Lookup (asciiLower run)) = true ->
     parse (S (S (S fuel))) outer root
           (pre0 ++ B "<" ++ name ++ B ">" ++ pre ++ B "</" ++ rest)
       = parse (S (S fuel))
               (AppendChild (textNode outer pre0)
                  (rawText parent escapable (pre ++ B "</" ++ mid)))
               root tail) /\
  (forall rest',
     ident_run rest' = true ->
     parseRaw_loop (S fuel) parent escapable (pre ++ B "</" ++ rest') buf
       = (parent, Panic)).
Proof.
  intros Hpre Hid Hne Hmis. split; [|split; [|split]].
  - now apply parseRaw_mismatch_step with elemS elemA after.
  - intros mid run ws tail -> Hmid Hrun Hrne Hname Hws Hm.
    now apply parseRaw_mismatch_then_close with elemS elemA after.
  - intros outer root pre0 name mid run ws tail -> Hpre0 Hnrun Hnne Hbang Hnname
           Hcat -> Hmid Hrun Hrne Hname Hws Hm.
    now apply parse_raw_element with elemS elemA after.
  - intros rest' Hrest'. now apply parseRaw_truncated_name.
Qed.

Lemma C2_raw_mismatch_backtracks_witness :
  let parent := @element Sample.env (B "script") in
  @parseRaw_loop Sample.env 9 parent false (B "a" ++ B "</" ++ B "b>c</script>") []
    = @parseRaw_loop Sample.env 8 parent false (B "b>c</script>") ([] ++ B "a" ++ B "</") /\
  @parseRaw_loop Sample.env 10 parent false (B "a" ++ B "</" ++ B "b>c</script>") []
    = (AppendChild parent (leaf TextNode (B "a</b>c")), Ok []) /\
  @parse Sample.env 11 Sample.doc true (B "<script>a</b>c</script>")
    = (AppendChild Sample.doc
         (AppendChild parent (leaf TextNode (B "a</b>c"))), Ok []).
Proof.
  intros parent.
  assert (H1 : lacks "<" (B "a") = true) by reflexivity.
  assert (H2 : @nextIdent Sample.env (B "b>c</script>")
               = Ok (B "b", 21%N, B ">c</script>")) by reflexivity.
  assert (H3 : B "b" <> []) by discriminate.
  assert (H4 : tag_matches parent (B "b") 21%N = false) by reflexivity.
  assert (Hname : @ident_name Sample.env (B "script") <> [])
    by (vm_compute; discriminate).
  destruct (C2_raw_mismatch_backtracks Sample.env 8 parent false (B "a")
              (B "b>c</script>") [] (B "b") 21%N (B ">c</script>") H1 H2 H3 H4)
    as (Hstep & Hclose & Hwhole & _).
  split; [exact Hstep|]. split.
  - rewrite (Hclose (B "b>c") (B "script") [] [] eq_refl eq_refl eq_refl eq_refl
               Hname eq_refl eq_refl).
    reflexivity.
  - change (B "<script>a</b>c</script>")
      with ([] ++ B "<" ++ B "script" ++ B ">" ++ B "a" ++ B "</" ++ B "b>c</script>").
    rewrite (Hwhole Sample.doc true [] (B "script") (B "b>c") (B "script") [] []
               eq_refl eq_refl eq_refl eq_refl ltac:(discriminate) Hname eq_refl
               eq_refl eq_refl eq_refl eq_refl Hname eq_refl eq_refl).
    reflexivity.
Defined.

(** * Where the reference decoder is applied (C6) *)

Section DecoderUse.
Context {E : Env}.







End DecoderUse.


